(** * Midnight Billow: the invoice API adapter and the browser deployment manager

    A shallow embedding of
      - [api/src/index.new.ts]   (class [InvoiceAPI]: the derived-state stream
        [state$] and the operations [issueInvoice], [payInvoice],
        [resetInvoice]), and
      - [bboard-ui/src/contexts/BrowserDeployedBoardManager.ts]
        (class [BrowserDeployedInvoiceManager], [initializeProviders],
        [connectToWallet]), and
      - [bboard-ui/src/components/InvoiceBoard.tsx]
        (the handlers of the board that call the two),
    followed by the properties the specification states about them and by
    further properties read off the code.

    JavaScript runs these classes on one thread: an [async] function runs
    without interruption up to its next [await].  Each piece of code between
    two suspension points is therefore modelled as one function on an explicit
    state, and whatever the outside world decides (what a promise settles
    with, what the ledger stream emits) arrives as an event. *)

From Stdlib Require Import ZArith Strings.Byte Ascii String List Lia Bool.
From stdpp Require Import base option list strings.
Import ListNotations.

Set Warnings "-register-all".

Local Open Scope Z_scope.

(** ** JavaScript values that cross a [throw]

    [catch (error: unknown)] can receive anything.  The code only asks three
    things of a caught value: [error instanceof Error], its truthiness
    ([error ? .. : ..]) and [String(error)]. *)

Module Js.

(** An [Error] object, identified by its message. *)
Record Error := mkError { message : string }.

Inductive Value :=
| VError (e : Error)                        (* an instance of Error *)
| VOther (truthy : bool) (to_string : string). (* anything else *)

Definition is_truthy (v : Value) : bool :=
  match v with
  | VError _ => true   (* objects are truthy *)
  | VOther t _ => t
  end.

(** [String(v)]: for an [Error], its name and message. *)
Definition String_ (v : Value) : string :=
  match v with
  | VError e => "Error: " +:+ message e
  | VOther _ s => s
  end.

(** The result of awaiting a promise: its value, or what it rejected with. *)
Inductive Result (A : Type) :=
| Ok (a : A)
| Throw (v : Value).
Arguments Ok {A} a.
Arguments Throw {A} v.

End Js.

(** ** Byte strings and [toHex]

    [Uint8Array] values are lists of bytes.  [toHex] is the hexadecimal
    printer of [@midnight-ntwrk/midnight-js-utils]: two lowercase digits per
    byte, most significant first. *)

Definition Uint8Array := list byte.

Definition hex_digit (n : N) : ascii :=
  match n with
  | 0%N => "0" | 1%N => "1" | 2%N => "2" | 3%N => "3"
  | 4%N => "4" | 5%N => "5" | 6%N => "6" | 7%N => "7"
  | 8%N => "8" | 9%N => "9" | 10%N => "a" | 11%N => "b"
  | 12%N => "c" | 13%N => "d" | 14%N => "e" | _ => "f"
  end%char.

Definition hex_value (c : ascii) : option N :=
  let n := N_of_ascii c in
  if ((48 <=? n) && (n <=? 57))%N then Some (n - 48)%N
  else if ((97 <=? n) && (n <=? 102))%N then Some (n - 87)%N
  else if ((65 <=? n) && (n <=? 70))%N then Some (n - 55)%N
  else None.

Definition byte_hi (b : byte) : ascii := hex_digit (Byte.to_N b / 16).
Definition byte_lo (b : byte) : ascii := hex_digit (Byte.to_N b mod 16).

Fixpoint toHex (bytes : Uint8Array) : string :=
  match bytes with
  | [] => EmptyString
  | b :: rest => String (byte_hi b) (String (byte_lo b) (toHex rest))
  end.


(** ** JavaScript strings

    A JavaScript string is a sequence of UTF-16 code units, numbers from 0
    to 65535; its [length] is the number of code units.  The texts the code
    looks into (the invoice text of the ledger, the fields of an invoice, the
    fields of the form) are such sequences.  The functions below are total on
    sequences of natural numbers and none of the results depends on the upper
    bound.  Texts the code only passes along or compares as wholes
    (addresses, hashes, messages, version numbers) stay Rocq strings.

    [js] reads a Rocq string as the JavaScript string with the same codes, so
    that the ASCII literals of the source can be written as they are. *)

Definition JsString := list N.

Definition code (c : ascii) : N := N_of_ascii c.

Fixpoint js (s : string) : JsString :=
  match s with
  | EmptyString => []
  | String c s' => code c :: js s'
  end.

Coercion js : string >-> JsString.

Fixpoint JsString_eqb (a b : JsString) : bool :=
  match a, b with
  | [], [] => true
  | x :: a', y :: b' => (x =? y)%N && JsString_eqb a' b'
  | _, _ => false
  end.

(** ** JSON

    [JSON.stringify] and [JSON.parse] of ECMAScript.  A value is given as
    the tree [JSON.parse] builds: the members of an object in the order
    JavaScript enumerates its own properties (array indices first, in
    ascending order, then the other keys in the order of their creation; a
    repeated key keeps its place and takes the later value).  A number is
    given by the literal that denotes it; the adapter never looks into a
    number, and [stringify] is applied to strings and objects of strings
    only. *)

Module JSON.

Inductive Json :=
| JNull
| JBool (b : bool)
| JNumber (literal : JsString)
| JString (s : JsString)
| JArray (items : list Json)
| JObject (members : list (JsString * Json)).

Definition dquote : N := 34%N.
Definition backslash : N := 92%N.

(** *** [JSON.stringify] *)

Definition is_high_surrogate (c : N) : bool := ((55296 <=? c) && (c <=? 56319))%N.
Definition is_low_surrogate (c : N) : bool := ((56320 <=? c) && (c <=? 57343))%N.

(** UnicodeEscape: [\u] and four lowercase hexadecimal digits. *)
Definition unicode_escape (c : N) : JsString :=
  [ backslash; code "u";
    code (hex_digit (c / 4096)); code (hex_digit ((c / 256) mod 16));
    code (hex_digit ((c / 16) mod 16)); code (hex_digit (c mod 16)) ]%N.

(** QuoteJSONString on one code unit that is not a surrogate. *)
Definition escape_char (c : N) : JsString :=
  if (c =? 8)%N then [backslash; code "b"]
  else if (c =? 9)%N then [backslash; code "t"]
  else if (c =? 10)%N then [backslash; code "n"]
  else if (c =? 12)%N then [backslash; code "f"]
  else if (c =? 13)%N then [backslash; code "r"]
  else if (c =? dquote)%N then [backslash; dquote]
  else if (c =? backslash)%N then [backslash; backslash]
  else if (c <? 32)%N then unicode_escape c
  else [c].

(** QuoteJSONString goes through the string by code points: a surrogate
    pair is copied, a surrogate on its own is escaped. *)
Fixpoint escape_string (s : JsString) : JsString :=
  match s with
  | [] => []
  | c :: rest =>
      if is_high_surrogate c then
        match rest with
        | d :: rest' =>
            if is_low_surrogate d then c :: d :: escape_string rest'
            else unicode_escape c ++ escape_string rest
        | [] => unicode_escape c
        end
      else if is_low_surrogate c then unicode_escape c ++ escape_string rest
      else escape_char c ++ escape_string rest
  end.

Definition quote (s : JsString) : JsString :=
  dquote :: escape_string s ++ [dquote].

Fixpoint join_comma (parts : list JsString) : JsString :=
  match parts with
  | [] => []
  | [p] => p
  | p :: rest => p ++ code "," :: join_comma rest
  end.

Fixpoint stringify (j : Json) : JsString :=
  match j with
  | JNull => "null"
  | JBool true => "true"
  | JBool false => "false"
  | JNumber literal => literal
  | JString s => quote s
  | JArray items => code "[" :: join_comma (map stringify items) ++ [code "]"]
  | JObject members =>
      code "{"
        :: join_comma (map (fun kv => quote (fst kv) ++ code ":" :: stringify (snd kv)) members)
        ++ [code "}"]
  end.

(** *** [JSON.parse] *)

Definition is_ws (c : N) : bool :=
  ((c =? 32) || (c =? 9) || (c =? 10) || (c =? 13))%N.

Fixpoint skip_ws (s : JsString) : JsString :=
  match s with
  | [] => []
  | c :: s' => if is_ws c then skip_ws s' else s
  end.

Definition is_digit (c : N) : bool := ((48 <=? c) && (c <=? 57))%N.

(** The longest prefix of digits, and what follows it. *)
Fixpoint span_digits (s : JsString) : JsString * JsString :=
  match s with
  | [] => ([], [])
  | c :: s' =>
      if is_digit c
      then let '(d, r) := span_digits s' in (c :: d, r)
      else ([], s)
  end.

(** [expect c s]: [s] without its first code unit, which must be [c]. *)
Definition expect (c : N) (s : JsString) : option JsString :=
  match s with
  | [] => None
  | c' :: r => if (c' =? c)%N then Some r else None
  end.

Fixpoint strip_prefix (p s : JsString) : option JsString :=
  match p with
  | [] => Some s
  | c :: p' =>
      match expect c s with
      | Some r => strip_prefix p' r
      | None => None
      end
  end.

Definition hex_value (c : N) : option N :=
  if ((48 <=? c) && (c <=? 57))%N then Some (c - 48)%N
  else if ((97 <=? c) && (c <=? 102))%N then Some (c - 87)%N
  else if ((65 <=? c) && (c <=? 70))%N then Some (c - 55)%N
  else None.

Definition hex4 (a b c d : N) : option N :=
  match hex_value a, hex_value b, hex_value c, hex_value d with
  | Some x, Some y, Some z, Some w => Some (4096 * x + 256 * y + 16 * z + w)%N
  | _, _, _, _ => None
  end.

Definition push_char (c : N) (r : option (JsString * JsString)) : option (JsString * JsString) :=
  match r with
  | Some (s, rest) => Some (c :: s, rest)
  | None => None
  end.

(** The code units of a string literal, after its opening quote, up to and
    including the closing quote.  A [\uXXXX] escape stands for the code unit
    with that number, whatever it is. *)
Fixpoint parse_chars (s : JsString) : option (JsString * JsString) :=
  match s with
  | [] => None
  | c :: s' =>
      if (c =? dquote)%N then Some ([], s')
      else if (c =? backslash)%N then
        match s' with
        | [] => None
        | e :: s'' =>
            if (e =? dquote)%N then push_char dquote (parse_chars s'')
            else if (e =? backslash)%N then push_char backslash (parse_chars s'')
            else if (e =? code "/")%N then push_char (code "/") (parse_chars s'')
            else if (e =? code "b")%N then push_char 8%N (parse_chars s'')
            else if (e =? code "f")%N then push_char 12%N (parse_chars s'')
            else if (e =? code "n")%N then push_char 10%N (parse_chars s'')
            else if (e =? code "r")%N then push_char 13%N (parse_chars s'')
            else if (e =? code "t")%N then push_char 9%N (parse_chars s'')
            else if (e =? code "u")%N then
              match s'' with
              | h1 :: h2 :: h3 :: h4 :: s3 =>
                  match hex4 h1 h2 h3 h4 with
                  | Some n => push_char n (parse_chars s3)
                  | None => None
                  end
              | _ => None
              end
            else None
        end
      else if (c <? 32)%N then None
      else push_char c (parse_chars s')
  end.

(** A number literal: an optional minus sign; an integer part that is
    either a single zero or a nonzero digit followed by digits; an optional
    fraction (a dot and at least one digit); an optional exponent (e or E,
    an optional sign, at least one digit). *)
Definition parse_int_part (s : JsString) : option (JsString * JsString) :=
  match span_digits s with
  | ([], _) => None
  | (d :: ds, r) =>
      if (d =? code "0")%N
      then Some ([d], ds ++ r)   (* a leading zero ends the integer part *)
      else Some (d :: ds, r)
  end.

Definition parse_frac_part (s : JsString) : option (JsString * JsString) :=
  match expect (code ".") s with
  | None => Some ([], s)
  | Some r =>
      match span_digits r with
      | ([], _) => None
      | (ds, r') => Some (code "." :: ds, r')
      end
  end.

Definition parse_exp_part (s : JsString) : option (JsString * JsString) :=
  match s with
  | e :: r =>
      if ((e =? code "e") || (e =? code "E"))%N then
        let '(sign, r1) :=
          match r with
          | g :: r' =>
              if ((g =? code "+") || (g =? code "-"))%N
              then ([g], r')
              else ([], r)
          | [] => ([], r)
          end in
        match span_digits r1 with
        | ([], _) => None
        | (ds, r2) => Some (e :: sign ++ ds, r2)
        end
      else Some ([], s)
  | [] => Some ([], s)
  end.

Definition parse_number (s : JsString) : option (JsString * JsString) :=
  let '(sign, r0) :=
    match expect (code "-") s with
    | Some r => ([code "-"], r)
    | None => ([], s)
    end in
  match parse_int_part r0 with
  | None => None
  | Some (i, r1) =>
      match parse_frac_part r1 with
      | None => None
      | Some (f, r2) =>
          match parse_exp_part r2 with
          | None => None
          | Some (e, r3) => Some (sign ++ i ++ f ++ e, r3)
          end
      end
  end.

(** A property key that is an array index: the canonical decimal text of
    an integer below 2^32 - 1. *)
Fixpoint digits_value (acc : N) (s : JsString) : option N :=
  match s with
  | [] => Some acc
  | c :: s' => if is_digit c then digits_value (10 * acc + (c - 48))%N s' else None
  end.

Definition canonical_decimal (k : JsString) : option N :=
  match k with
  | [] => None
  | c :: rest =>
      match rest with
      | _ :: _ => if (c =? code "0")%N then None else digits_value 0%N k
      | [] => digits_value 0%N k
      end
  end.

Definition array_index (k : JsString) : option N :=
  match canonical_decimal k with
  | Some n => if (n <? 4294967295)%N then Some n else None
  | None => None
  end.

(** Defining a property on an object under construction.  A key the
    object has already keeps its place and takes the new value. *)
Fixpoint obj_replace (k : JsString) (v : Json) (members : list (JsString * Json))
  : option (list (JsString * Json)) :=
  match members with
  | [] => None
  | (k', v') :: rest =>
      if JsString_eqb k' k then Some ((k', v) :: rest)
      else match obj_replace k v rest with
           | Some rest' => Some ((k', v') :: rest')
           | None => None
           end
  end.

(** A new key goes where the enumeration order puts it: an array index
    before the first greater index or the first other key, any other key at
    the end. *)
Fixpoint obj_insert (k : JsString) (v : Json) (members : list (JsString * Json))
  : list (JsString * Json) :=
  match members with
  | [] => [(k, v)]
  | (k', v') :: rest =>
      match array_index k, array_index k' with
      | Some i, Some i' =>
          if (i <? i')%N then (k, v) :: members else (k', v') :: obj_insert k v rest
      | Some _, None => (k, v) :: members
      | None, _ => (k', v') :: obj_insert k v rest
      end
  end.

Definition obj_set (k : JsString) (v : Json) (members : list (JsString * Json))
  : list (JsString * Json) :=
  match obj_replace k v members with
  | Some members' => members'
  | None => obj_insert k v members
  end.

(** The recursive descent proper.  [fuel] bounds the number of nested
    calls.  Along a chain of nested calls every second one starts further
    to the right in the text, so twice the length of the text, which [parse]
    below supplies, is not used up. *)
Fixpoint parse_value (fuel : nat) (s : JsString) {struct fuel} : option (Json * JsString) :=
  match fuel with
  | O => None
  | S fuel' =>
      match skip_ws s with
      | [] => None
      | c :: r =>
          if (c =? code "{")%N then
            match expect (code "}") (skip_ws r) with
            | Some r' => Some (JObject [], r')
            | None => parse_members fuel' [] r
            end
          else if (c =? code "[")%N then
            match expect (code "]") (skip_ws r) with
            | Some r' => Some (JArray [], r')
            | None => parse_elements fuel' [] r
            end
          else if (c =? dquote)%N then
            match parse_chars r with
            | Some (str, r') => Some (JString str, r')
            | None => None
            end
          else
            match strip_prefix "true" (c :: r) with
            | Some r' => Some (JBool true, r')
            | None =>
            match strip_prefix "false" (c :: r) with
            | Some r' => Some (JBool false, r')
            | None =>
            match strip_prefix "null" (c :: r) with
            | Some r' => Some (JNull, r')
            | None =>
            match parse_number (c :: r) with
            | Some (n, r') => Some (JNumber n, r')
            | None => None
            end end end end
      end
  end
with parse_elements (fuel : nat) (acc : list Json) (s : JsString) {struct fuel} : option (Json * JsString) :=
  match fuel with
  | O => None
  | S fuel' =>
      match parse_value fuel' s with
      | None => None
      | Some (v, r) =>
          match expect (code ",") (skip_ws r) with
          | Some r' => parse_elements fuel' (acc ++ [v]) r'
          | None =>
              match expect (code "]") (skip_ws r) with
              | Some r' => Some (JArray (acc ++ [v]), r')
              | None => None
              end
          end
      end
  end
with parse_members (fuel : nat) (acc : list (JsString * Json)) (s : JsString) {struct fuel} : option (Json * JsString) :=
  match fuel with
  | O => None
  | S fuel' =>
      match expect dquote (skip_ws s) with
      | None => None
      | Some r =>
          match parse_chars r with
          | None => None
          | Some (k, r1) =>
              match expect (code ":") (skip_ws r1) with
              | None => None
              | Some r2 =>
                  match parse_value fuel' r2 with
                  | None => None
                  | Some (v, r3) =>
                      match expect (code ",") (skip_ws r3) with
                      | Some r4 => parse_members fuel' (obj_set k v acc) r4
                      | None =>
                          match expect (code "}") (skip_ws r3) with
                          | Some r4 => Some (JObject (obj_set k v acc), r4)
                          | None => None
                          end
                      end
                  end
              end
          end
      end
  end.

(** [JSON.parse text]: [None] stands for the [SyntaxError] it throws. *)
Definition parse (text : JsString) : option Json :=
  match parse_value (2 * length text + 2) text with
  | Some (j, rest) =>
      match skip_ws rest with
      | [] => Some j
      | _ :: _ => None
      end
  | None => None
  end.

End JSON.


(** ** The types of [api/src/common-types.ts] and of the contract's ledger *)

Definition ContractAddress := string.

(** The contract's [State] enumeration. *)
Inductive State := EMPTY | ISSUED | PAID.

(** Compact's [Maybe<T>] as the generated code presents it. *)
Module Maybe.
Record t (A : Type) := mk { is_some : bool; value : A }.
Arguments mk {A} is_some value.
Arguments is_some {A} _.
Arguments value {A} _.
End Maybe.

(** The ledger projection [ledger(contractState.data)]. *)
Module Ledger.
Record t := mk {
  state : State;
  sequence : Z;
  amount : Z;
  buyerPk : Uint8Array;
  invoiceJson : Maybe.t JsString;
}.
End Ledger.

Module InvoicePrivateState.
Record t := mk { secretKey : Uint8Array }.
End InvoicePrivateState.

Module InvoiceData.
Record t := mk {
  title : JsString;
  description : JsString;
  issuedAt : JsString;
  currency : JsString;
}.

(** The record as the JavaScript object it is: four string properties, in
    the order an object literal of this type lists them. *)
Definition to_json (d : t) : JSON.Json :=
  JSON.JObject
    [ (js "title", JSON.JString (title d));
      (js "description", JSON.JString (description d));
      (js "issuedAt", JSON.JString (issuedAt d));
      (js "currency", JSON.JString (currency d)) ].
End InvoiceData.

Inductive TransactionType := issue | payment | reset.

Module TransactionHistoryEntry.
Record t := mk {
  type : TransactionType;
  txHash : string;
  blockHeight : Z;
  timestamp : Z;                       (* [new Date()], as milliseconds *)
  amount : option Z;
  invoiceData : option InvoiceData.t;
}.
End TransactionHistoryEntry.

Module InvoiceDerivedState.
Record t := mk {
  state : State;
  sequence : Z;
  amount : Z;
  invoiceData : option JSON.Json;      (* [undefined] is [None] *)
  canPay : bool;
  transactionHistory : list TransactionHistoryEntry.t;
}.
End InvoiceDerivedState.

(** What [await this.deployedContract.callTx.f(..)] yields in its [public]
    part once the transaction is finalized. *)
Module FinalizedTx.
Record t := mk { txHash : string; blockHeight : Z }.
End FinalizedTx.

(** The two functions [state$] calls that live outside the repository:
    [pureCircuits.buyerKey] of the compiled contract and
    [convert_bigint_to_Uint8Array] of the Compact runtime. *)
Class Circuits := {
  buyerKey : Uint8Array -> Uint8Array -> Uint8Array;
  convert_bigint_to_Uint8Array : nat -> Z -> Uint8Array;
}.

(** Calls on the [pino] logger, in order.  Interpolated payloads are left
    out; the message identifies the call site. *)
Inductive LogEntry :=
| LogInfo (msg : string)
| LogTrace (msg : string)
| LogError (msg : string).

(** [logger?.f(..)]: nothing happens when no logger was passed. *)
Definition log_if (logger : bool) (entry : LogEntry) : list LogEntry :=
  if logger then [entry] else [].

(** ** [InvoiceAPI] *)

Module InvoiceAPI.
Record t := mk {
  deployedContractAddress : ContractAddress;
  logger : bool;                        (* whether a [Logger] was passed *)
  (* The promise [providers.privateStateProvider.get(invoicePrivateStateKey)]
     created by the constructor, given by what it settles with.  The cast
     [as Promise<InvoicePrivateState>] hides that the store may answer
     [null]. *)
  privateState : Js.Result (option InvoicePrivateState.t);
  transactionHistory : list TransactionHistoryEntry.t;
}.
End InvoiceAPI.

(** The private-state store of the providers, reduced to the one key the
    adapter uses. *)
Definition PrivateStateStore := option InvoicePrivateState.t.

(** [get] on a store that answers: the promise fulfils with the content,
    [null] when the key is missing.  A [get] that rejects is the case
    [Js.Throw] of [start_fetching] below. *)
Definition privateStateProvider_get (store : PrivateStateStore)
  : Js.Result (option InvoicePrivateState.t) :=
  Js.Ok store.

(** The constructor: the address, and the single [get] on the store. *)
Definition new_InvoiceAPI (address : ContractAddress) (logger : bool)
    (store : PrivateStateStore) : InvoiceAPI.t :=
  {| InvoiceAPI.deployedContractAddress := address;
     InvoiceAPI.logger := logger;
     InvoiceAPI.privateState := privateStateProvider_get store;
     InvoiceAPI.transactionHistory := [] |}.

(** *** The projection of [combineLatest] *)

(** Truthiness of a string: [if (ledgerState.invoiceJson.value)]. *)
Definition string_truthy (s : JsString) : bool :=
  match s with
  | [] => false
  | _ :: _ => true
  end.

(** Lines 318-325: the [invoiceData] of a snapshot and what gets logged. *)
Definition parse_invoiceJson (logger : bool) (ledgerState : Ledger.t)
  : option JSON.Json * list LogEntry :=
  let text := Maybe.value (Ledger.invoiceJson ledgerState) in
  if string_truthy text then
    match JSON.parse text with
    | Some data => (Some data, [])
    | None => (None, log_if logger (LogError "Failed to parse invoice JSON"))
    end
  else (None, []).

Definition TypeError_secretKey : Js.Value :=
  Js.VError (Js.mkError "Cannot read properties of null (reading 'secretKey')").

(** Lines 312-335.  The result is the snapshot, or what the function throws
    (reading [secretKey] of [null]); the log entries come with it. *)
Definition project `{Circuits} (api : InvoiceAPI.t) (ledgerState : Ledger.t)
    (privateState : option InvoicePrivateState.t)
  : Js.Result InvoiceDerivedState.t * list LogEntry :=
  match privateState with
  | None => (Js.Throw TypeError_secretKey, [])
  | Some ps =>
      let hashedSecretKey :=
        buyerKey (InvoicePrivateState.secretKey ps)
                 (convert_bigint_to_Uint8Array 32 (Ledger.sequence ledgerState)) in
      let '(invoiceData, logged) := parse_invoiceJson (InvoiceAPI.logger api) ledgerState in
      (Js.Ok {| InvoiceDerivedState.state := Ledger.state ledgerState;
                InvoiceDerivedState.sequence := Ledger.sequence ledgerState;
                InvoiceDerivedState.amount := Ledger.amount ledgerState;
                InvoiceDerivedState.invoiceData := invoiceData;
                InvoiceDerivedState.canPay :=
                  String.eqb (toHex (Ledger.buyerPk ledgerState)) (toHex hashedSecretKey);
                InvoiceDerivedState.transactionHistory := InvoiceAPI.transactionHistory api |},
       logged)
  end.

(** *** [combineLatest] over the ledger stream and the private-state promise

    What an observer of a stream is sent. *)
Inductive Notification (A : Type) :=
| Next (a : A)
| Error (v : Js.Value)
| Complete.
Arguments Next {A} a.
Arguments Error {A} v.
Arguments Complete {A}.

(** The state RxJS keeps for one subscriber of [state$]: the latest value of
    each source (absent before its first), whether each source is still
    active, and whether the subscriber has been unsubscribed. *)
Module Subscription.
Record t := mk {
  ledgerValue : option Ledger.t;
  ledgerActive : bool;
  privateValue : option (option InvoicePrivateState.t);
  privateActive : bool;
  closed : bool;
}.
Definition initial : t :=
  {| ledgerValue := None; ledgerActive := true;
     privateValue := None; privateActive := true; closed := false |}.
End Subscription.

(** A source emitted: store its value, and once both sources have one,
    send the projection of the pair.  A throwing projection errors the
    stream. *)
Definition combine `{Circuits} (api : InvoiceAPI.t) (s : Subscription.t)
  : Subscription.t * list (Notification InvoiceDerivedState.t) * list LogEntry :=
  match Subscription.ledgerValue s, Subscription.privateValue s with
  | Some ledgerState, Some privateState =>
      match project api ledgerState privateState with
      | (Js.Ok derived, logged) => (s, [Next derived], logged)
      | (Js.Throw v, logged) =>
          ({| Subscription.ledgerValue := Subscription.ledgerValue s;
              Subscription.ledgerActive := false;
              Subscription.privateValue := Subscription.privateValue s;
              Subscription.privateActive := false;
              Subscription.closed := true |}, [Error v], logged)
      end
  | _, _ => (s, [], [])
  end.

(** A source completed: the result completes when no source is active. *)
Definition source_completed (s : Subscription.t)
  : Subscription.t * list (Notification InvoiceDerivedState.t) :=
  if Subscription.ledgerActive s || Subscription.privateActive s
  then (s, [])
  else ({| Subscription.ledgerValue := Subscription.ledgerValue s;
           Subscription.ledgerActive := false;
           Subscription.privateValue := Subscription.privateValue s;
           Subscription.privateActive := false;
           Subscription.closed := true |}, [Complete]).

Definition source_failed (s : Subscription.t) (v : Js.Value)
  : Subscription.t * list (Notification InvoiceDerivedState.t) :=
  ({| Subscription.ledgerValue := Subscription.ledgerValue s;
      Subscription.ledgerActive := false;
      Subscription.privateValue := Subscription.privateValue s;
      Subscription.privateActive := false;
      Subscription.closed := true |}, [Error v]).

(** *** The three operations

    Each is an [async] method with one suspension point that matters, the
    [await] of the contract call ([await txData.public] awaits a plain object
    and resumes at once).  [f_call] is the method up to that [await]: what it
    logs and which circuit it calls, with which arguments.  [f_resume] is the
    rest, given what the call settled with and the clock: the new adapter
    state, what is logged, and what the method's own promise settles with. *)

Inductive CircuitCall :=
| CallIssueInvoice (amount : Z) (invoiceJson : JsString)
| CallPayInvoice
| CallResetInvoice.

(** [this.transactionHistory.push(entry)]. *)
Definition push_history (api : InvoiceAPI.t) (entry : TransactionHistoryEntry.t) : InvoiceAPI.t :=
  {| InvoiceAPI.deployedContractAddress := InvoiceAPI.deployedContractAddress api;
     InvoiceAPI.logger := InvoiceAPI.logger api;
     InvoiceAPI.privateState := InvoiceAPI.privateState api;
     InvoiceAPI.transactionHistory := InvoiceAPI.transactionHistory api ++ [entry] |}.

Definition issueInvoice_call (api : InvoiceAPI.t) (amount : Z) (invoiceData : InvoiceData.t)
  : list LogEntry * CircuitCall :=
  let invoiceJson := JSON.stringify (InvoiceData.to_json invoiceData) in
  (log_if (InvoiceAPI.logger api) (LogInfo "issuingInvoice"),
   CallIssueInvoice amount invoiceJson).

Definition issueInvoice_resume (api : InvoiceAPI.t) (amount : Z) (invoiceData : InvoiceData.t)
    (txData : Js.Result FinalizedTx.t) (now : Z)
  : InvoiceAPI.t * list LogEntry * Js.Result string :=
  match txData with
  | Js.Ok finalizedTx =>
      (push_history api
         {| TransactionHistoryEntry.type := issue;
            TransactionHistoryEntry.txHash := FinalizedTx.txHash finalizedTx;
            TransactionHistoryEntry.blockHeight := FinalizedTx.blockHeight finalizedTx;
            TransactionHistoryEntry.timestamp := now;
            TransactionHistoryEntry.amount := Some amount;
            TransactionHistoryEntry.invoiceData := Some invoiceData |},
       log_if (InvoiceAPI.logger api) (LogTrace "transactionAdded: issueInvoice"),
       Js.Ok (FinalizedTx.txHash finalizedTx))
  | Js.Throw error =>
      (api, log_if (InvoiceAPI.logger api) (LogError "Failed to issue invoice"), Js.Throw error)
  end.

Definition payInvoice_call (api : InvoiceAPI.t) : list LogEntry * CircuitCall :=
  (log_if (InvoiceAPI.logger api) (LogInfo "payingInvoice"), CallPayInvoice).

Definition payInvoice_resume (api : InvoiceAPI.t) (txData : Js.Result FinalizedTx.t) (now : Z)
  : InvoiceAPI.t * list LogEntry * Js.Result string :=
  match txData with
  | Js.Ok finalizedTx =>
      (push_history api
         {| TransactionHistoryEntry.type := payment;
            TransactionHistoryEntry.txHash := FinalizedTx.txHash finalizedTx;
            TransactionHistoryEntry.blockHeight := FinalizedTx.blockHeight finalizedTx;
            TransactionHistoryEntry.timestamp := now;
            TransactionHistoryEntry.amount := None;
            TransactionHistoryEntry.invoiceData := None |},
       log_if (InvoiceAPI.logger api) (LogTrace "transactionAdded: payInvoice"),
       Js.Ok (FinalizedTx.txHash finalizedTx))
  | Js.Throw error =>
      (api, log_if (InvoiceAPI.logger api) (LogError "Failed to pay invoice"), Js.Throw error)
  end.

Definition resetInvoice_call (api : InvoiceAPI.t) : list LogEntry * CircuitCall :=
  (log_if (InvoiceAPI.logger api) (LogInfo "resettingInvoice"), CallResetInvoice).

Definition resetInvoice_resume (api : InvoiceAPI.t) (txData : Js.Result FinalizedTx.t) (now : Z)
  : InvoiceAPI.t * list LogEntry * Js.Result string :=
  match txData with
  | Js.Ok finalizedTx =>
      (push_history api
         {| TransactionHistoryEntry.type := reset;
            TransactionHistoryEntry.txHash := FinalizedTx.txHash finalizedTx;
            TransactionHistoryEntry.blockHeight := FinalizedTx.blockHeight finalizedTx;
            TransactionHistoryEntry.timestamp := now;
            TransactionHistoryEntry.amount := None;
            TransactionHistoryEntry.invoiceData := None |},
       log_if (InvoiceAPI.logger api) (LogTrace "transactionAdded: resetInvoice"),
       Js.Ok (FinalizedTx.txHash finalizedTx))
  | Js.Throw error =>
      (api, log_if (InvoiceAPI.logger api) (LogError "Failed to reset invoice"), Js.Throw error)
  end.

(** The methods in one piece, for a call during which nothing else runs:
    [callTx] says what the circuit call settles with. *)
Definition issueInvoice (callTx : CircuitCall -> Js.Result FinalizedTx.t) (now : Z)
    (api : InvoiceAPI.t) (amount : Z) (invoiceData : InvoiceData.t)
  : InvoiceAPI.t * list LogEntry * Js.Result string :=
  let '(logged, call) := issueInvoice_call api amount invoiceData in
  let '(api', logged', result) := issueInvoice_resume api amount invoiceData (callTx call) now in
  (api', logged ++ logged', result).

Definition payInvoice (callTx : CircuitCall -> Js.Result FinalizedTx.t) (now : Z)
    (api : InvoiceAPI.t) : InvoiceAPI.t * list LogEntry * Js.Result string :=
  let '(logged, call) := payInvoice_call api in
  let '(api', logged', result) := payInvoice_resume api (callTx call) now in
  (api', logged ++ logged', result).

Definition resetInvoice (callTx : CircuitCall -> Js.Result FinalizedTx.t) (now : Z)
    (api : InvoiceAPI.t) : InvoiceAPI.t * list LogEntry * Js.Result string :=
  let '(logged, call) := resetInvoice_call api in
  let '(api', logged', result) := resetInvoice_resume api (callTx call) now in
  (api', logged ++ logged', result).

(** An operation that has called its circuit and awaits the outcome. *)
Inductive PendingCall :=
| PendingIssue (amount : Z) (invoiceData : InvoiceData.t)
| PendingPay
| PendingReset.

Definition resume (api : InvoiceAPI.t) (call : PendingCall)
    (txData : Js.Result FinalizedTx.t) (now : Z)
  : InvoiceAPI.t * list LogEntry * Js.Result string :=
  match call with
  | PendingIssue amount invoiceData => issueInvoice_resume api amount invoiceData txData now
  | PendingPay => payInvoice_resume api txData now
  | PendingReset => resetInvoice_resume api txData now
  end.

(** *** One adapter, one subscriber of [state$], and the world around them *)

Module World.
Record t := mk {
  api : InvoiceAPI.t;
  store : PrivateStateStore;            (* the private-state store, now *)
  subscription : Subscription.t;
  received : list (Notification InvoiceDerivedState.t);  (* sent to the subscriber *)
  submitted : list CircuitCall;         (* circuit calls made, in order *)
  pending : list PendingCall;           (* operations awaiting their call *)
  returned : list (Js.Result string);   (* what finished operations settled with *)
  log : list LogEntry;
}.
End World.

(** The adapter is built over the store as it is at that moment, and
    [state$] is subscribed to. *)
Definition start (address : ContractAddress) (logger : bool) (store : PrivateStateStore) : World.t :=
  {| World.api := new_InvoiceAPI address logger store;
     World.store := store;
     World.subscription := Subscription.initial;
     World.received := [];
     World.submitted := [];
     World.pending := [];
     World.returned := [];
     World.log := [] |}.

Inductive Event :=
(* the ledger stream, after [map(ledger)] *)
| LedgerNext (ledgerState : Ledger.t)
| LedgerError (v : Js.Value)
| LedgerComplete
(* the constructor's [get] promise settles *)
| PrivateStateSettled
(* somebody writes the private-state store *)
| StorePut (p : InvoicePrivateState.t)
(* the UI calls an operation *)
| InvokeIssueInvoice (amount : Z) (invoiceData : InvoiceData.t)
| InvokePayInvoice
| InvokeResetInvoice
(* the contract call of the [i]-th pending operation settles *)
| CallSettled (i : nat) (txData : Js.Result FinalizedTx.t) (now : Z).

Definition deliver (w : World.t) (s : Subscription.t)
    (out : list (Notification InvoiceDerivedState.t)) (logged : list LogEntry) : World.t :=
  {| World.api := World.api w;
     World.store := World.store w;
     World.subscription := s;
     World.received := World.received w ++ out;
     World.submitted := World.submitted w;
     World.pending := World.pending w;
     World.returned := World.returned w;
     World.log := World.log w ++ logged |}.

Definition set_ledgerValue (s : Subscription.t) (l : Ledger.t) : Subscription.t :=
  {| Subscription.ledgerValue := Some l;
     Subscription.ledgerActive := Subscription.ledgerActive s;
     Subscription.privateValue := Subscription.privateValue s;
     Subscription.privateActive := Subscription.privateActive s;
     Subscription.closed := Subscription.closed s |}.

Definition set_privateValue (s : Subscription.t) (p : option InvoicePrivateState.t) : Subscription.t :=
  {| Subscription.ledgerValue := Subscription.ledgerValue s;
     Subscription.ledgerActive := Subscription.ledgerActive s;
     Subscription.privateValue := Some p;
     Subscription.privateActive := Subscription.privateActive s;
     Subscription.closed := Subscription.closed s |}.

Definition end_ledger (s : Subscription.t) : Subscription.t :=
  {| Subscription.ledgerValue := Subscription.ledgerValue s;
     Subscription.ledgerActive := false;
     Subscription.privateValue := Subscription.privateValue s;
     Subscription.privateActive := Subscription.privateActive s;
     Subscription.closed := Subscription.closed s |}.

Definition end_private (s : Subscription.t) : Subscription.t :=
  {| Subscription.ledgerValue := Subscription.ledgerValue s;
     Subscription.ledgerActive := Subscription.ledgerActive s;
     Subscription.privateValue := Subscription.privateValue s;
     Subscription.privateActive := false;
     Subscription.closed := Subscription.closed s |}.

Definition invoke (w : World.t) (called : list LogEntry * CircuitCall) (p : PendingCall) : World.t :=
  {| World.api := World.api w;
     World.store := World.store w;
     World.subscription := World.subscription w;
     World.received := World.received w;
     World.submitted := World.submitted w ++ [snd called];
     World.pending := World.pending w ++ [p];
     World.returned := World.returned w;
     World.log := World.log w ++ fst called |}.

Definition step `{Circuits} (w : World.t) (e : Event) : World.t :=
  let s := World.subscription w in
  let api := World.api w in
  match e with
  | LedgerNext ledgerState =>
      if Subscription.closed s || negb (Subscription.ledgerActive s) then w
      else
        let '(s', out, logged) := combine api (set_ledgerValue s ledgerState) in
        deliver w s' out (log_if (InvoiceAPI.logger api) (LogTrace "ledgerStateChanged") ++ logged)
  | LedgerError v =>
      if Subscription.closed s || negb (Subscription.ledgerActive s) then w
      else let '(s', out) := source_failed s v in deliver w s' out []
  | LedgerComplete =>
      if Subscription.closed s || negb (Subscription.ledgerActive s) then w
      else let '(s', out) := source_completed (end_ledger s) in deliver w s' out []
  | PrivateStateSettled =>
      if Subscription.closed s || negb (Subscription.privateActive s) then w
      else
        match InvoiceAPI.privateState api with
        | Js.Ok p =>
            (* [from(promise)]: the value, then completion *)
            let '(s1, out1, logged) := combine api (set_privateValue s p) in
            if Subscription.closed s1 then deliver w s1 out1 logged
            else
              let '(s2, out2) := source_completed (end_private s1) in
              deliver w s2 (out1 ++ out2) logged
        | Js.Throw v =>
            let '(s', out) := source_failed s v in deliver w s' out []
        end
  | StorePut p =>
      {| World.api := api;
         World.store := Some p;
         World.subscription := s;
         World.received := World.received w;
         World.submitted := World.submitted w;
         World.pending := World.pending w;
         World.returned := World.returned w;
         World.log := World.log w |}
  | InvokeIssueInvoice amount invoiceData =>
      invoke w (issueInvoice_call api amount invoiceData) (PendingIssue amount invoiceData)
  | InvokePayInvoice => invoke w (payInvoice_call api) PendingPay
  | InvokeResetInvoice => invoke w (resetInvoice_call api) PendingReset
  | CallSettled i txData now =>
      match World.pending w !! i with
      | None => w
      | Some call =>
          let '(api', logged, result) := resume api call txData now in
          {| World.api := api';
             World.store := World.store w;
             World.subscription := s;
             World.received := World.received w;
             World.submitted := World.submitted w;
             World.pending := delete i (World.pending w);
             World.returned := World.returned w ++ [result];
             World.log := World.log w ++ logged |}
      end
  end.

Definition run `{Circuits} (w : World.t) (events : list Event) : World.t :=
  fold_left step events w.

(** The snapshots among what a subscriber was sent. *)
Definition emissions (w : World.t) : list InvoiceDerivedState.t :=
  omap (fun n => match n with Next d => Some d | _ => None end) (World.received w).

(** ** [BrowserDeployedInvoiceManager] *)

Inductive InvoiceDeployment :=
| InProgress
| Deployed (api : InvoiceAPI.t)
| Failed (error : Js.Error).

(** An RxJS [BehaviorSubject]: its current value, whether it has been
    stopped by [error()] or [complete()], and every notification sent so
    far to an observer subscribed since creation (the initial value
    first). *)
Module BehaviorSubject.
Record t (A : Type) := mk {
  value : A;
  isStopped : bool;
  notified : list (Notification A);
}.
Arguments mk {A} value isStopped notified.
Arguments value {A} _.
Arguments isStopped {A} _.
Arguments notified {A} _.

(** [new BehaviorSubject(v)]. *)
Definition create {A} (v : A) : t A :=
  {| value := v; isStopped := false; notified := [Next v] |}.

(** [subject.next(v)]. *)
Definition next {A} (s : t A) (v : A) : t A :=
  if isStopped s
  then {| value := v; isStopped := true; notified := notified s |}
  else {| value := v; isStopped := false; notified := notified s ++ [Next v] |}.
End BehaviorSubject.

(** The provider bundle [initializeProviders] assembles. *)
Module InvoiceProviders.
Record t := mk {
  privateStateStoreName : string;
  zkConfigPath : string;
  proofServerUri : string;
  indexerUri : string;
  indexerWsUri : string;
  coinPublicKey : string;
  encryptionPublicKey : string;
}.
End InvoiceProviders.

Inductive PromiseState (A : Type) :=
| Pending
| Settled (r : Js.Result A).
Arguments Pending {A}.
Arguments Settled {A} r.

(** A running call of [deployDeployment] or [joinDeployment].  Both are
    [async] with two suspension points: [await this.getProviders()] and
    [await InvoiceAPI.deploy(..)] / [InvoiceAPI.join(..)]. *)
Inductive TaskKind :=
| DeployTask
| JoinTask (contractAddress : ContractAddress).

Inductive TaskPhase :=
| AwaitingProviders
| AwaitingApi (providers : InvoiceProviders.t)
| Finished.

Module Task.
Record t := mk {
  deployment : nat;      (* the [BehaviorSubject] it was handed *)
  kind : TaskKind;
  providers : nat;       (* the promise [getProviders()] returned to it *)
  phase : TaskPhase;
}.
Definition set_phase (task : t) (p : TaskPhase) : t :=
  {| deployment := deployment task; kind := kind task;
     providers := providers task; phase := p |}.
End Task.

(** Objects are held by reference: a [BehaviorSubject<InvoiceDeployment>] is
    its index in [subjects], a providers promise its index in [promises].
    Both lists only grow, so a reference never dangles and is never
    reused. *)
Module Manager.
Record t := mk {
  subjects : list (BehaviorSubject.t InvoiceDeployment);
  invoiceDeploymentsSubject : BehaviorSubject.t (list nat);
  initializedProviders : option nat;
  promises : list (PromiseState InvoiceProviders.t);
  tasks : list Task.t;
}.

(** The constructor. *)
Definition initial : t :=
  {| subjects := [];
     invoiceDeploymentsSubject := BehaviorSubject.create [];
     initializedProviders := None;
     promises := [];
     tasks := [] |}.
End Manager.

(** [error instanceof Error ? error : new Error(String(error))]. *)
Definition normalize_error (error : Js.Value) : Js.Error :=
  match error with
  | Js.VError e => e
  | Js.VOther _ _ => Js.mkError (Js.String_ error)
  end.

(** Lines 174-182.  [initializeProviders(this.logger)] is [async]: calling
    it creates a new pending promise, and that is the only place one is
    created. *)
Definition getProviders (m : Manager.t) : Manager.t * nat :=
  match Manager.initializedProviders m with
  | Some p => (m, p)
  | None =>
      let p := length (Manager.promises m) in
      ({| Manager.subjects := Manager.subjects m;
          Manager.invoiceDeploymentsSubject := Manager.invoiceDeploymentsSubject m;
          Manager.initializedProviders := Some p;
          Manager.promises := Manager.promises m ++ [Pending];
          Manager.tasks := Manager.tasks m |}, p)
  end.

(** The predicate of [deployments.find(..)] on line 150. *)
Definition deployed_at (m : Manager.t) (contractAddress : option ContractAddress) (d : nat) : bool :=
  match Manager.subjects m !! d with
  | Some subject =>
      match BehaviorSubject.value subject with
      | Deployed api => bool_decide (Some (InvoiceAPI.deployedContractAddress api) = contractAddress)
      | _ => false
      end
  | None => false
  end.

(** [if (contractAddress)]: [undefined] and the empty string are falsy. *)
Definition task_kind (contractAddress : option ContractAddress) : TaskKind :=
  match contractAddress with
  | Some a => if string_truthy a then JoinTask a else DeployTask
  | None => DeployTask
  end.

(** Lines 148-172.  The [async] helper runs inside [resolve] up to its first
    [await], so [getProviders()] is called before [resolve] publishes the
    new array. *)
Definition resolve (contractAddress : option ContractAddress) (m : Manager.t) : Manager.t * nat :=
  let deployments := BehaviorSubject.value (Manager.invoiceDeploymentsSubject m) in
  match List.find (deployed_at m contractAddress) deployments with
  | Some deployment => (m, deployment)
  | None =>
      let deployment := length (Manager.subjects m) in
      let '(m1, p) := getProviders m in
      ({| Manager.subjects := Manager.subjects m1 ++ [BehaviorSubject.create InProgress];
          Manager.invoiceDeploymentsSubject :=
            BehaviorSubject.next (Manager.invoiceDeploymentsSubject m1) (deployments ++ [deployment]);
          Manager.initializedProviders := Manager.initializedProviders m1;
          Manager.promises := Manager.promises m1;
          Manager.tasks :=
            Manager.tasks m1 ++
              [ {| Task.deployment := deployment;
                   Task.kind := task_kind contractAddress;
                   Task.providers := p;
                   Task.phase := AwaitingProviders |} ] |},
       deployment)
  end.

(** [deployment.next(v)] on the subject a task holds, and the task's new
    phase. *)
Definition task_next (m : Manager.t) (t : nat) (task : Task.t)
    (v : option InvoiceDeployment) (p : TaskPhase) : Manager.t :=
  {| Manager.subjects :=
       match v with
       | Some v => alter (fun subject => BehaviorSubject.next subject v) (Task.deployment task) (Manager.subjects m)
       | None => Manager.subjects m
       end;
     Manager.invoiceDeploymentsSubject := Manager.invoiceDeploymentsSubject m;
     Manager.initializedProviders := Manager.initializedProviders m;
     Manager.promises := Manager.promises m;
     Manager.tasks := <[t := Task.set_phase task p]> (Manager.tasks m) |}.

(** Lines 184-219, from the first [await] on: the promise of
    [getProviders()] has settled and the task continues. *)
Definition resume_with_providers (m : Manager.t) (t : nat) : Manager.t :=
  match Manager.tasks m !! t with
  | Some task =>
      match Task.phase task, Manager.promises m !! Task.providers task with
      | AwaitingProviders, Some (Settled (Js.Ok providers)) =>
          (* calls [InvoiceAPI.deploy] / [InvoiceAPI.join] and awaits it *)
          task_next m t task None (AwaitingApi providers)
      | AwaitingProviders, Some (Settled (Js.Throw error)) =>
          task_next m t task (Some (Failed (normalize_error error))) Finished
      | _, _ => m
      end
  | None => m
  end.

(** From the second [await] on: [InvoiceAPI.deploy] / [join] has settled. *)
Definition resume_with_api (m : Manager.t) (t : nat) (outcome : Js.Result InvoiceAPI.t) : Manager.t :=
  match Manager.tasks m !! t with
  | Some task =>
      match Task.phase task with
      | AwaitingApi _ =>
          match outcome with
          | Js.Ok api => task_next m t task (Some (Deployed api)) Finished
          | Js.Throw error => task_next m t task (Some (Failed (normalize_error error))) Finished
          end
      | _ => m
      end
  | None => m
  end.

(** The promise [initializeProviders] returned settles; a promise settles
    once. *)
Definition settle_providers (m : Manager.t) (p : nat) (outcome : Js.Result InvoiceProviders.t) : Manager.t :=
  match Manager.promises m !! p with
  | Some Pending =>
      {| Manager.subjects := Manager.subjects m;
         Manager.invoiceDeploymentsSubject := Manager.invoiceDeploymentsSubject m;
         Manager.initializedProviders := Manager.initializedProviders m;
         Manager.promises := <[p := Settled outcome]> (Manager.promises m);
         Manager.tasks := Manager.tasks m |}
  | _ => m
  end.

Inductive ManagerEvent :=
| Resolve (contractAddress : option ContractAddress)
| ProvidersSettled (p : nat) (outcome : Js.Result InvoiceProviders.t)
| TaskResumed (t : nat)
| ApiSettled (t : nat) (outcome : Js.Result InvoiceAPI.t).

Definition manager_step (m : Manager.t) (e : ManagerEvent) : Manager.t :=
  match e with
  | Resolve contractAddress => fst (resolve contractAddress m)
  | ProvidersSettled p outcome => settle_providers m p outcome
  | TaskResumed t => resume_with_providers m t
  | ApiSettled t outcome => resume_with_api m t outcome
  end.

Definition manager_run (m : Manager.t) (events : list ManagerEvent) : Manager.t :=
  fold_left manager_step events m.

(** Observations on a manager state. *)
Definition deployments (m : Manager.t) : list nat :=
  BehaviorSubject.value (Manager.invoiceDeploymentsSubject m).

Definition status (m : Manager.t) (d : nat) : option InvoiceDeployment :=
  BehaviorSubject.value <$> Manager.subjects m !! d.

(** The addresses of the deployed entries of the registry, in its order. *)
Definition deployed_addresses (m : Manager.t) : list ContractAddress :=
  omap (fun d => match status m d with
                 | Some (Deployed api) => Some (InvoiceAPI.deployedContractAddress api)
                 | _ => None
                 end) (deployments m).

(** How often [initializeProviders] has run. *)
Definition bootstraps (m : Manager.t) : nat := length (Manager.promises m).

(** ** [connectToWallet] and [initializeProviders]

    What a call on the wallet connector does, as far as this code can tell:
    its promise fulfils, rejects, or is still pending when it matters (at
    the deadline of a [timeout], or for good). *)

Inductive Outcome (A : Type) :=
| Resolves (a : A)
| Rejects (v : Js.Value)
| NeverSettles.
Arguments Resolves {A} a.
Arguments Rejects {A} v.
Arguments NeverSettles {A}.

Module ServiceUriConfig.
Record t := mk {
  indexerUri : string;
  indexerWsUri : string;
  proverServerUri : string;
}.
End ServiceUriConfig.

Module WalletState.
Record t := mk { coinPublicKey : string; encryptionPublicKey : string }.
End WalletState.

(** The session [enable()] hands out. *)
Module DAppConnectorWalletAPI.
Record t := mk { state : Outcome WalletState.t }.
End DAppConnectorWalletAPI.

(** [window.midnight.mnLace]. *)
Module DAppConnectorAPI.
Record t := mk {
  apiVersion : string;
  isEnabled : Outcome bool;
  enable : Outcome DAppConnectorWalletAPI.t;
  serviceUriConfig : Outcome ServiceUriConfig.t;
}.
End DAppConnectorAPI.

(** [semver.satisfies(version, range)] of the [semver] package. *)
Class Semver := { semver_satisfies : string -> string -> bool }.

(** What [connectToWallet] does to the outside, in order. *)
Inductive ConnectorMethod := isEnabled_ | enable_ | serviceUriConfig_.

Inductive Effect :=
| Log (entry : LogEntry)
| Call (method : ConnectorMethod).

(** A stream that delivers at most one thing, with the effects of getting
    there: a value, an error, or nothing (so far). *)
Inductive Signal (A : Type) :=
| Value (a : A)
| Failure (v : Js.Value)
| Silent.
Arguments Value {A} a.
Arguments Failure {A} v.
Arguments Silent {A}.

Definition Stream (A : Type) : Type := list Effect * Signal A.

(** [concatMap(f)] on such a stream: errors pass by without [f] running. *)
Definition concatMap {A B} (f : A -> Stream B) (s : Stream A) : Stream B :=
  match s with
  | (eff, Value a) => let '(eff', r) := f a in (eff ++ eff', r)
  | (eff, Failure v) => (eff, Failure v)
  | (eff, Silent) => (eff, Silent)
  end.

(** [timeout({ first, with })]: when nothing has arrived at the deadline,
    switch to the stream [with_] gives. *)
Definition timeout {A} (with_ : Stream A) (s : Stream A) : Stream A :=
  match s with
  | (eff, Silent) => let '(eff', r) := with_ in (eff ++ eff', r)
  | _ => s
  end.

(** [throwError(() => { logger.error(msg); return new Error(text) })]. *)
Definition throwError {A} (logged : LogEntry) (text : string) : Stream A :=
  ([Log logged], Failure (Js.VError (Js.mkError text))).

(** An async function awaiting one call on the connector. *)
Definition await_call {A} (method : ConnectorMethod) (o : Outcome A) : Stream A :=
  match o with
  | Resolves a => ([Call method], Value a)
  | Rejects v => ([Call method], Failure v)
  | NeverSettles => ([Call method], Silent)
  end.

Definition COMPATIBLE_CONNECTOR_API_VERSION : string := "1.x".

Definition incompatible_message (actual : string) : string :=
  "Incompatible version of Midnight Lace wallet found. Require '"
    +:+ COMPATIBLE_CONNECTOR_API_VERSION +:+ "', got '" +:+ actual +:+ "'.".

(** Lines 268-294: [interval(100)] down to [take(1)].  [ticks] lists what
    [window.midnight?.mnLace] is at each tick of the interval that fires
    before the first deadline.  The first connector seen decides. *)
Fixpoint discover `{Semver} (ticks : list (option DAppConnectorAPI.t)) : Stream DAppConnectorAPI.t :=
  match ticks with
  | [] => ([], Silent)
  | None :: rest =>
      let '(eff, r) := discover rest in
      (Log (LogInfo "Check for wallet connector API") :: eff, r)
  | Some connectorAPI :: _ =>
      concatMap
        (fun c => ([Log (LogInfo "Compatible wallet connector API found. Connecting.")], Value c))
        (concatMap
           (fun c =>
              if semver_satisfies (DAppConnectorAPI.apiVersion c) COMPATIBLE_CONNECTOR_API_VERSION
              then ([], Value c)
              else throwError (LogError "Incompatible version of wallet connector API")
                              (incompatible_message (DAppConnectorAPI.apiVersion c)))
           ([Log (LogInfo "Check for wallet connector API")], Value connectorAPI))
  end.

(** Lines 268-320: one subscription, up to and including [enable()]. *)
Definition attempt `{Semver} (ticks : list (option DAppConnectorAPI.t))
  : Stream (DAppConnectorWalletAPI.t * DAppConnectorAPI.t) :=
  concatMap
    (fun connectorAPI =>
       concatMap (fun walletConnectorAPI => ([], Value (walletConnectorAPI, connectorAPI)))
                 (await_call enable_ (DAppConnectorAPI.enable connectorAPI)))
    (timeout
       (throwError (LogError "Wallet connector API has failed to respond")
                   "Midnight Lace wallet has failed to respond. Extension enabled?")
       (concatMap
          (fun connectorAPI =>
             concatMap
               (fun isEnabled =>
                  ([Log (LogInfo "Wallet connector API enabled status")], Value connectorAPI))
               (await_call isEnabled_ (DAppConnectorAPI.isEnabled connectorAPI)))
          (timeout
             (throwError (LogError "Could not find wallet connector API")
                         "Could not find Midnight Lace wallet. Extension installed?")
             (discover ticks)))).

(** Lines 321-328: [catchError((error, apis) => error ? throwError(..) : apis)].
    A truthy error is replaced; a falsy one makes the operator subscribe to
    [apis], the stream it sits on, again: a new subscription with new ticks.
    [subscriptions] lists the ticks of each subscription in turn; when the
    list runs out nothing more is known and the stream stays silent. *)
Fixpoint attempts `{Semver} (subscriptions : list (list (option DAppConnectorAPI.t)))
  : Stream (DAppConnectorWalletAPI.t * DAppConnectorAPI.t) :=
  match subscriptions with
  | [] => ([], Silent)
  | ticks :: later =>
      match attempt ticks with
      | (eff, Failure error) =>
          if Js.is_truthy error
          then let '(eff', r) :=
                 throwError (LogError "Unable to enable connector API")
                            "Application is not authorized" in
               (eff ++ eff', r)
          else let '(eff', r) := attempts later in (eff ++ eff', r)
      | s => s
      end
  end.

(** [firstValueFrom]: the promise for the first value. *)
Definition firstValueFrom {A} (s : Stream A) : list Effect * PromiseState A :=
  match s with
  | (eff, Value a) => (eff, Settled (Js.Ok a))
  | (eff, Failure v) => (eff, Settled (Js.Throw v))
  | (eff, Silent) => (eff, Pending)
  end.

(** Lines 263-338. *)
Definition connectToWallet `{Semver} (subscriptions : list (list (option DAppConnectorAPI.t)))
  : list Effect * PromiseState (DAppConnectorWalletAPI.t * ServiceUriConfig.t) :=
  firstValueFrom
    (concatMap
       (fun '(walletConnectorAPI, connectorAPI) =>
          concatMap
            (fun uris =>
               ([Log (LogInfo "Connected to wallet connector API and retrieved service configuration")],
                Value (walletConnectorAPI, uris)))
            (await_call serviceUriConfig_ (DAppConnectorAPI.serviceUriConfig connectorAPI)))
       (attempts subscriptions)).

(** Lines 223-260: the bundle, or what made the [async] function reject.
    [origin] is [window.location.origin]; the [console.log] calls are left
    out. *)
Definition initializeProviders `{Semver} (subscriptions : list (list (option DAppConnectorAPI.t)))
    (origin : string) : list Effect * PromiseState InvoiceProviders.t :=
  match connectToWallet subscriptions with
  | (eff, Settled (Js.Ok (wallet, uris))) =>
      match DAppConnectorWalletAPI.state wallet with
      | Resolves walletState =>
          (eff,
           Settled (Js.Ok
             {| InvoiceProviders.privateStateStoreName := "invoice-private-state";
                InvoiceProviders.zkConfigPath := origin;
                InvoiceProviders.proofServerUri := "http://127.0.0.1:6300";
                InvoiceProviders.indexerUri := ServiceUriConfig.indexerUri uris;
                InvoiceProviders.indexerWsUri := ServiceUriConfig.indexerWsUri uris;
                InvoiceProviders.coinPublicKey := WalletState.coinPublicKey walletState;
                InvoiceProviders.encryptionPublicKey := WalletState.encryptionPublicKey walletState |}))
      | Rejects v => (eff, Settled (Js.Throw v))
      | NeverSettles => (eff, Pending)
      end
  | (eff, Settled (Js.Throw v)) => (eff, Settled (Js.Throw v))
  | (eff, Pending) => (eff, Pending)
  end.

(** How often a method of the connector was called. *)
Definition is_call (method : ConnectorMethod) (e : Effect) : bool :=
  match e, method with
  | Call isEnabled_, isEnabled_ => true
  | Call enable_, enable_ => true
  | Call serviceUriConfig_, serviceUriConfig_ => true
  | _, _ => false
  end.

Definition calls (method : ConnectorMethod) (eff : list Effect) : nat :=
  length (List.filter (is_call method) eff).

(** A reading of [semver.satisfies] for versions written [MAJOR.MINOR.PATCH]
    and ranges written [MAJOR.x]: the major numbers must agree. *)
Fixpoint before_dot (s : string) : string :=
  match s with
  | EmptyString => EmptyString
  | String c s' => if Ascii.eqb c "." then EmptyString else String c (before_dot s')
  end.

Definition major_x_semver : Semver :=
  {| semver_satisfies version range := String.eqb (before_dot version) (before_dot range) |}.

(** ** Sample data for the worked instances below *)

(** Little-endian bytes of a non-negative integer, [n] of them. *)
Fixpoint le_bytes (n : nat) (x : Z) : Uint8Array :=
  match n with
  | O => []
  | S n' =>
      match Byte.of_N (Z.to_N (x mod 256)) with
      | Some b => b :: le_bytes n' (x / 256)
      | None => le_bytes n' (x / 256)
      end
  end.

(** A stand-in for the contract's circuit: any function of the two byte
    strings would do. *)
Definition sample_circuits : Circuits :=
  {| buyerKey sk seq := sk ++ seq;
     convert_bigint_to_Uint8Array := le_bytes |}.

Definition sample_secret : InvoicePrivateState.t :=
  {| InvoicePrivateState.secretKey := ["s"; "k"]%byte |}.

Definition sample_invoice : InvoiceData.t :=
  {| InvoiceData.title := "T";
     InvoiceData.description := "D";
     InvoiceData.issuedAt := "2025-01-01";
     InvoiceData.currency := "NIGHT" |}.

Definition sample_ledger (text : JsString) : Ledger.t :=
  {| Ledger.state := ISSUED;
     Ledger.sequence := 1;
     Ledger.amount := 100;
     Ledger.buyerPk := ["s"; "k"]%byte ++ le_bytes 32 1;
     Ledger.invoiceJson := Maybe.mk true text |}.

Definition sample_tx (h : string) (height : Z) : FinalizedTx.t :=
  {| FinalizedTx.txHash := h; FinalizedTx.blockHeight := height |}.

Definition sample_providers : InvoiceProviders.t :=
  {| InvoiceProviders.privateStateStoreName := "invoice-private-state";
     InvoiceProviders.zkConfigPath := "http://localhost";
     InvoiceProviders.proofServerUri := "http://127.0.0.1:6300";
     InvoiceProviders.indexerUri := "http://indexer";
     InvoiceProviders.indexerWsUri := "ws://indexer";
     InvoiceProviders.coinPublicKey := "cpk";
     InvoiceProviders.encryptionPublicKey := "epk" |}.

Definition sample_wallet : DAppConnectorWalletAPI.t :=
  {| DAppConnectorWalletAPI.state :=
       Resolves {| WalletState.coinPublicKey := "cpk"; WalletState.encryptionPublicKey := "epk" |} |}.

Definition sample_connector (version : string) : DAppConnectorAPI.t :=
  {| DAppConnectorAPI.apiVersion := version;
     DAppConnectorAPI.isEnabled := Resolves true;
     DAppConnectorAPI.enable := Resolves sample_wallet;
     DAppConnectorAPI.serviceUriConfig :=
       Resolves {| ServiceUriConfig.indexerUri := "http://indexer";
                   ServiceUriConfig.indexerWsUri := "ws://indexer";
                   ServiceUriConfig.proverServerUri := "http://prover" |} |}.

(** ** What holds of every state of an adapter

    [events] is what has happened since the adapter was built over [store]
    with logging set to [logger]. *)
Definition adapter_inv `{Circuits} (logger : bool) (store : PrivateStateStore)
    (events : list Event) (w : World.t) : Prop :=
  InvoiceAPI.privateState (World.api w) = Js.Ok store /\
  InvoiceAPI.logger (World.api w) = logger /\
  (forall l, Subscription.ledgerValue (World.subscription w) = Some l -> In (LedgerNext l) events) /\
  (forall p, Subscription.privateValue (World.subscription w) = Some p -> p = store) /\
  (forall d, In d (emissions w) ->
     exists l ps api,
       In (LedgerNext l) events /\ store = Some ps /\
       InvoiceAPI.logger api = logger /\
       fst (project api l (Some ps)) = Js.Ok d).

(** The snapshot the adapter sends for [sample_ledger text] when it holds
    [sample_secret] and has no history. *)
Definition sample_snapshot (invoiceData : option JSON.Json) : InvoiceDerivedState.t :=
  {| InvoiceDerivedState.state := ISSUED;
     InvoiceDerivedState.sequence := 1;
     InvoiceDerivedState.amount := 100;
     InvoiceDerivedState.invoiceData := invoiceData;
     InvoiceDerivedState.canPay := true;
     InvoiceDerivedState.transactionHistory := [] |}.

(** A text cut off in the middle of a string. *)
Definition truncated_json : JsString :=
  code "{" :: JSON.dquote :: js "title" ++ JSON.dquote :: code ":" :: JSON.dquote :: js "T".

(** Well-formed JSON that is not an invoice: an object whose one property
    is [paid]. *)
Definition other_shape_json : JsString :=
  code "{" :: JSON.dquote :: js "paid" ++ JSON.dquote :: js ":true}".

(** Events other than writes to the private-state store. *)
Definition is_StorePut (e : Event) : bool :=
  match e with
  | StorePut _ => true
  | _ => false
  end.

Definition without_store_puts (events : list Event) : list Event :=
  List.filter (fun e => negb (is_StorePut e)) events.

(** A world with the current content of the store left out of the picture. *)
Definition forget_store (w : World.t) : World.t :=
  {| World.api := World.api w;
     World.store := None;
     World.subscription := World.subscription w;
     World.received := World.received w;
     World.submitted := World.submitted w;
     World.pending := World.pending w;
     World.returned := World.returned w;
     World.log := World.log w |}.

(** The invoice text is empty or [JSON.parse] rejects it. *)
Definition unparsable (ledgerState : Ledger.t) : Prop :=
  let text := Maybe.value (Ledger.invoiceJson ledgerState) in
  text = [] \/ JSON.parse text = None.

(** The history entry the specification describes for an operation whose
    transaction was finalized as [tx] at time [now]. *)
Definition entry_of (call : PendingCall) (tx : FinalizedTx.t) (now : Z) : TransactionHistoryEntry.t :=
  {| TransactionHistoryEntry.type :=
       match call with
       | PendingIssue _ _ => issue
       | PendingPay => payment
       | PendingReset => reset
       end;
     TransactionHistoryEntry.txHash := FinalizedTx.txHash tx;
     TransactionHistoryEntry.blockHeight := FinalizedTx.blockHeight tx;
     TransactionHistoryEntry.timestamp := now;
     TransactionHistoryEntry.amount :=
       match call with
       | PendingIssue amount _ => Some amount
       | _ => None
       end;
     TransactionHistoryEntry.invoiceData :=
       match call with
       | PendingIssue _ invoiceData => Some invoiceData
       | _ => None
       end |}.

(** What an event adds to the history: one entry when it is the
    finalization of a pending operation, nothing otherwise. *)
Definition appended (w : World.t) (e : Event) : list TransactionHistoryEntry.t :=
  match e with
  | CallSettled i (Js.Ok tx) now =>
      match World.pending w !! i with
      | Some call => [entry_of call tx now]
      | None => []
      end
  | _ => []
  end.

Definition history (w : World.t) : list TransactionHistoryEntry.t :=
  InvoiceAPI.transactionHistory (World.api w).

Definition other_secret : InvoicePrivateState.t :=
  {| InvoicePrivateState.secretKey := ["x"]%byte |}.

(** ** What holds of every state of a manager *)

(** The task with index [t] and the subject it was handed.  A task that has
    not finished has sent nothing beyond the initial [in-progress]; one that
    has finished has sent exactly one further value, after its providers
    promise settled, and if that promise rejected, the value is the failure
    made of the rejection. *)
Definition task_ok (m : Manager.t) (t : nat) (task : Task.t) : Prop :=
  Task.deployment task = t /\
  Task.providers task = 0%nat /\
  exists subject,
    Manager.subjects m !! t = Some subject /\
    BehaviorSubject.isStopped subject = false /\
    match Task.phase task with
    | AwaitingProviders =>
        BehaviorSubject.value subject = InProgress /\
        BehaviorSubject.notified subject = [Next InProgress]
    | AwaitingApi providers =>
        BehaviorSubject.value subject = InProgress /\
        BehaviorSubject.notified subject = [Next InProgress] /\
        Manager.promises m !! 0%nat = Some (Settled (Js.Ok providers))
    | Finished =>
        exists v,
          v <> InProgress /\
          BehaviorSubject.value subject = v /\
          BehaviorSubject.notified subject = [Next InProgress; Next v] /\
          (exists r, Manager.promises m !! 0%nat = Some (Settled r)) /\
          (forall error,
             Manager.promises m !! 0%nat = Some (Settled (Js.Throw error)) ->
             v = Failed (normalize_error error))
    end.

Definition manager_inv (m : Manager.t) : Prop :=
  length (Manager.tasks m) = length (Manager.subjects m) /\
  deployments m = seq 0 (length (Manager.subjects m)) /\
  ((Manager.initializedProviders m = None /\ Manager.promises m = [] /\ Manager.tasks m = [])
   \/ (Manager.initializedProviders m = Some 0%nat /\ length (Manager.promises m) = 1%nat)) /\
  (forall t task, Manager.tasks m !! t = Some task -> task_ok m t task).

(** What the wallet bootstrap rejects with when it fails. *)
Definition not_authorized : Js.Value :=
  Js.VError (Js.mkError "Application is not authorized").

(** The adapter [InvoiceAPI.join] returns for the contract at address a. *)
Definition sample_api : InvoiceAPI.t := new_InvoiceAPI "a" true (Some sample_secret).

(** Two [resolve] calls for one address before the first has finished,
    the providers arriving, and both tasks reaching [InvoiceAPI.join]. *)
Definition two_joins : list ManagerEvent :=
  [ Resolve (Some "a"); Resolve (Some "a");
    ProvidersSettled 0 (Js.Ok sample_providers);
    TaskResumed 0; TaskResumed 1 ].

(** Case analysis on every test a goal about [step] still contains. *)
Ltac step_cases :=
  repeat match goal with
         | |- context [if ?b then _ else _] => destruct b eqn:?
         | |- context [let '(_, _) := ?x in _] => destruct x eqn:?
         | |- context [match ?x with _ => _ end] => destruct x eqn:?
         end.

(** ** Further invariants and observations *)

(** What the registry has published: every array so far, from the empty one
    on, each listing the subjects created up to then in creation order. *)
Definition published_ok (m : Manager.t) : Prop :=
  BehaviorSubject.isStopped (Manager.invoiceDeploymentsSubject m) = false /\
  BehaviorSubject.notified (Manager.invoiceDeploymentsSubject m)
  = map (fun n => Next (seq 0 n)) (seq 0 (S (length (Manager.subjects m)))).

(** The connector [window.midnight?.mnLace] first shows during a
    subscription, if it shows at all. *)
Fixpoint first_connector (ticks : list (option DAppConnectorAPI.t)) : option DAppConnectorAPI.t :=
  match ticks with
  | [] => None
  | Some connectorAPI :: _ => Some connectorAPI
  | None :: rest => first_connector rest
  end.

Definition compatible `{Semver} (connectorAPI : DAppConnectorAPI.t) : bool :=
  semver_satisfies (DAppConnectorAPI.apiVersion connectorAPI) COMPATIBLE_CONNECTOR_API_VERSION.

(** The ticks of a subscription that pass until the connector shows, that
    one included; all of them when it never shows. *)
Fixpoint waited (ticks : list (option DAppConnectorAPI.t)) : nat :=
  match ticks with
  | [] => 0
  | Some _ :: _ => 1
  | None :: rest => S (waited rest)
  end.

Definition sample_uris : ServiceUriConfig.t :=
  {| ServiceUriConfig.indexerUri := "http://indexer";
     ServiceUriConfig.indexerWsUri := "ws://indexer";
     ServiceUriConfig.proverServerUri := "http://prover" |}.

(** The adapter and its subscriber when the [get] of the constructor
    settles with [fetched], which may be a rejection.  [start address logger
    store] is the case of a store that answers, [fetched = Js.Ok store]. *)
Definition start_fetching (address : ContractAddress) (logger : bool) (store : PrivateStateStore)
    (fetched : Js.Result (option InvoicePrivateState.t)) : World.t :=
  {| World.api :=
       {| InvoiceAPI.deployedContractAddress := address;
          InvoiceAPI.logger := logger;
          InvoiceAPI.privateState := fetched;
          InvoiceAPI.transactionHistory := [] |};
     World.store := store;
     World.subscription := Subscription.initial;
     World.received := [];
     World.submitted := [];
     World.pending := [];
     World.returned := [];
     World.log := [] |}.

(** Where an error notification of [state$] can come from: the ledger
    stream, the [get] promise, or the projection throwing on a ledger state
    that has arrived and the value the promise fulfilled with. *)
Definition error_source `{Circuits} (fetched : Js.Result (option InvoicePrivateState.t))
    (events : list Event) (v : Js.Value) : Prop :=
  In (LedgerError v) events \/
  (fetched = Js.Throw v /\ In PrivateStateSettled events) \/
  (exists api ledgerState privateState,
     fetched = Js.Ok privateState /\
     In PrivateStateSettled events /\
     In (LedgerNext ledgerState) events /\
     fst (project api ledgerState privateState) = Js.Throw v).

(** What a subscriber of [state$] has been sent, and why: snapshots, then
    at most one terminal notification, each terminal notification traced to
    the events that caused it.  [events] is what has happened since the
    adapter was built, [fetched] what its [get] settles with. *)
Definition delivered_ok `{Circuits} (fetched : Js.Result (option InvoicePrivateState.t))
    (events : list Event) (w : World.t) : Prop :=
  exists ds tail,
    World.received w = map Next ds ++ tail /\
    match tail with
    | [] => Subscription.closed (World.subscription w) = false
    | [Error v] =>
        Subscription.closed (World.subscription w) = true /\ error_source fetched events v
    | [Complete] =>
        Subscription.closed (World.subscription w) = true /\
        In LedgerComplete events /\ In PrivateStateSettled events
    | _ => False
    end.

Definition stream_ok `{Circuits} (fetched : Js.Result (option InvoicePrivateState.t))
    (events : list Event) (w : World.t) : Prop :=
  let s := World.subscription w in
  InvoiceAPI.privateState (World.api w) = fetched /\
  (forall l, Subscription.ledgerValue s = Some l -> In (LedgerNext l) events) /\
  (forall p, Subscription.privateValue s = Some p ->
     fetched = Js.Ok p /\ In PrivateStateSettled events) /\
  (Subscription.ledgerActive s = false ->
   Subscription.closed s = true \/ In LedgerComplete events) /\
  (Subscription.privateActive s = false ->
   Subscription.closed s = true \/ In PrivateStateSettled events) /\
  delivered_ok fetched events w.

Definition is_ledger_end (e : Event) : bool :=
  match e with
  | LedgerError _ | LedgerComplete => true
  | _ => false
  end.

(** While the subscription is open and the ledger stream has not ended:
    what has arrived is held, and with no private state in the store at most
    one of the two sources has delivered. *)
Definition awaiting_ok (store : PrivateStateStore) (events : list Event) (w : World.t) : Prop :=
  let s := World.subscription w in
  Subscription.closed s = false ->
  Subscription.ledgerActive s = true /\
  (In PrivateStateSettled events -> Subscription.privateValue s = Some store) /\
  (Subscription.privateValue s = None -> Subscription.privateActive s = true) /\
  ((exists l, In (LedgerNext l) events) -> Subscription.ledgerValue s <> None) /\
  (store = None -> Subscription.ledgerValue s = None \/ Subscription.privateValue s = None).

(** The histories carried by the snapshots sent so far: each is an initial
    part of every later one and of the adapter's own. *)
Definition histories_grow (w : World.t) : Prop :=
  (forall i j d1 d2,
      (i <= j)%nat ->
      emissions w !! i = Some d1 ->
      emissions w !! j = Some d2 ->
      InvoiceDerivedState.transactionHistory d1 `prefix_of` InvoiceDerivedState.transactionHistory d2) /\
  (forall d, In d (emissions w) -> InvoiceDerivedState.transactionHistory d `prefix_of` history w).

(** ** The board component, [InvoiceBoard.tsx]

    The handlers of the React component that call the adapter.  The
    component's state is a record of its [useState] cells, those the handlers
    below read or write; a [set..] call replaces one cell.  Each [async]
    handler is given in two parts, as the adapter's methods are: up to its
    [await], and from there on. *)

(** [Number(s) <= 0] and [BigInt(s)] on the text of the amount field; the
    second throws a [SyntaxError] on text that is not an integer. *)
Class Numeric := {
  Number_le_0 : JsString -> bool;
  BigInt_ : JsString -> Js.Result Z;
}.

(** [String.prototype.trim] removes white space and line terminators from
    both ends.  These are, as code units: U+0009 to U+000D, U+0020, U+00A0,
    U+1680, U+2000 to U+200A, U+2028, U+2029, U+202F, U+205F, U+3000 and
    U+FEFF. *)
Definition is_white_space (c : N) : bool :=
  ((9 <=? c) && (c <=? 13) || (c =? 32) || (c =? 160) || (c =? 5760)
   || (8192 <=? c) && (c <=? 8202) || (c =? 8232) || (c =? 8233) || (c =? 8239)
   || (c =? 8287) || (c =? 12288) || (c =? 65279))%N.

Fixpoint trimStart (s : JsString) : JsString :=
  match s with
  | [] => []
  | c :: s' => if is_white_space c then trimStart s' else s
  end.

Fixpoint trimEnd (s : JsString) : JsString :=
  match s with
  | [] => []
  | c :: s' =>
      match trimEnd s' with
      | [] => if is_white_space c then [] else [c]
      | rest => c :: rest
      end
  end.

Definition trim (s : JsString) : JsString := trimEnd (trimStart s).

(** [error instanceof Error ? error.message : String(error)]. *)
Definition error_text (error : Js.Value) : string :=
  match error with
  | Js.VError e => Js.message e
  | Js.VOther _ _ => Js.String_ error
  end.

Module Board.
Record t := mk {
  invoiceDeployment : option InvoiceDeployment;
  deployedInvoiceAPI : option InvoiceAPI.t;
  errorMessage : option string;
  isWorking : bool;
  showIssueForm : bool;
  lastTxHash : option string;
  title : JsString;
  description : JsString;
  amount : JsString;
  currency : JsString;
  titleError : string;
  amountError : string;
}.

(** Lines 72-89: the cells as [useState] creates them; [observing] says
    whether the component was given a deployment to observe. *)
Definition initial (observing : bool) : t :=
  {| invoiceDeployment := None; deployedInvoiceAPI := None; errorMessage := None;
     isWorking := observing; showIssueForm := false; lastTxHash := None;
     title := []; description := []; amount := []; currency := "NIGHT";
     titleError := ""; amountError := "" |}.

Definition setErrorMessage (b : t) (v : option string) : t :=
  {| invoiceDeployment := invoiceDeployment b; deployedInvoiceAPI := deployedInvoiceAPI b;
     errorMessage := v;
     isWorking := isWorking b; showIssueForm := showIssueForm b; lastTxHash := lastTxHash b;
     title := title b; description := description b; amount := amount b;
     currency := currency b; titleError := titleError b; amountError := amountError b |}.

Definition setIsWorking (b : t) (v : bool) : t :=
  {| invoiceDeployment := invoiceDeployment b; deployedInvoiceAPI := deployedInvoiceAPI b;
     errorMessage := errorMessage b;
     isWorking := v;
     showIssueForm := showIssueForm b; lastTxHash := lastTxHash b;
     title := title b; description := description b; amount := amount b;
     currency := currency b; titleError := titleError b; amountError := amountError b |}.

Definition setLastTxHash (b : t) (v : option string) : t :=
  {| invoiceDeployment := invoiceDeployment b; deployedInvoiceAPI := deployedInvoiceAPI b;
     errorMessage := errorMessage b; isWorking := isWorking b; showIssueForm := showIssueForm b;
     lastTxHash := v;
     title := title b; description := description b; amount := amount b;
     currency := currency b; titleError := titleError b; amountError := amountError b |}.

Definition setTitleError (b : t) (v : string) : t :=
  {| invoiceDeployment := invoiceDeployment b; deployedInvoiceAPI := deployedInvoiceAPI b;
     errorMessage := errorMessage b; isWorking := isWorking b; showIssueForm := showIssueForm b;
     lastTxHash := lastTxHash b;
     title := title b; description := description b; amount := amount b;
     currency := currency b;
     titleError := v;
     amountError := amountError b |}.

Definition setAmountError (b : t) (v : string) : t :=
  {| invoiceDeployment := invoiceDeployment b; deployedInvoiceAPI := deployedInvoiceAPI b;
     errorMessage := errorMessage b; isWorking := isWorking b; showIssueForm := showIssueForm b;
     lastTxHash := lastTxHash b;
     title := title b; description := description b; amount := amount b;
     currency := currency b; titleError := titleError b;
     amountError := v |}.

(** Lines 143-148: the form is hidden and emptied. *)
Definition closeIssueForm (b : t) : t :=
  {| invoiceDeployment := invoiceDeployment b; deployedInvoiceAPI := deployedInvoiceAPI b;
     errorMessage := errorMessage b; isWorking := isWorking b;
     showIssueForm := false;
     lastTxHash := lastTxHash b;
     title := []; description := []; amount := [];
     currency := currency b;
     titleError := ""; amountError := "" |}.
End Board.

(** Lines 97-121. *)
Definition validateForm `{Numeric} (b : Board.t) : Board.t * bool :=
  let '(b1, titleValid) :=
    if negb (string_truthy (trim (Board.title b)))
    then (Board.setTitleError b "Title is required", false)
    else if (length (Board.title b) <? 3)%nat
         then (Board.setTitleError b "Title must be at least 3 characters", false)
         else (Board.setTitleError b "", true) in
  let '(b2, amountValid) :=
    if negb (string_truthy (Board.amount b))
    then (Board.setAmountError b1 "Amount is required", false)
    else if Number_le_0 (Board.amount b)
         then (Board.setAmountError b1 "Amount must be greater than 0", false)
         else (Board.setAmountError b1 "", true) in
  (b2, titleValid && amountValid).

(** Lines 149-153, shared by the three handlers: [catch] then [finally]. *)
Definition failed (b : Board.t) (error : Js.Value) : Board.t :=
  Board.setIsWorking (Board.setErrorMessage b (Some (error_text error))) false.

(** Lines 123-141: [onIssueInvoice] up to the [await]; [today] is
    [new Date().toISOString().split('T')[0]].  The result says with which
    arguments the adapter's [issueInvoice] is called, if it is. *)
Definition onIssueInvoice_call `{Numeric} (today : JsString) (b : Board.t)
  : Board.t * option (Z * InvoiceData.t) :=
  match Board.deployedInvoiceAPI b with
  | None => (b, None)
  | Some _ =>
      let '(b1, isValid) := validateForm b in
      if negb isValid then (b1, None)
      else
        let b2 := Board.setErrorMessage (Board.setIsWorking b1 true) None in
        let invoiceData :=
          {| InvoiceData.title := trim (Board.title b);
             InvoiceData.description := trim (Board.description b);
             InvoiceData.issuedAt := today;
             InvoiceData.currency := Board.currency b |} in
        match BigInt_ (Board.amount b) with
        | Js.Ok amount => (b2, Some (amount, invoiceData))
        | Js.Throw error => (failed b2 error, None)
        end
  end.

(** Lines 141-153: from the [await] on, given what [issueInvoice] settled
    with. *)
Definition onIssueInvoice_resume (b : Board.t) (result : Js.Result string) : Board.t :=
  match result with
  | Js.Ok txHash =>
      Board.setIsWorking (Board.closeIssueForm (Board.setLastTxHash b (Some txHash))) false
  | Js.Throw error => failed b error
  end.

(** Lines 156-186: [onPayInvoice] and [onResetInvoice] have the same
    shape. *)
Definition onPayInvoice_call (b : Board.t) : Board.t * bool :=
  match Board.deployedInvoiceAPI b with
  | None => (b, false)
  | Some _ => (Board.setIsWorking b true, true)
  end.

Definition onPayInvoice_resume (b : Board.t) (result : Js.Result string) : Board.t :=
  match result with
  | Js.Ok txHash => Board.setIsWorking (Board.setLastTxHash b (Some txHash)) false
  | Js.Throw error => failed b error
  end.

Definition onResetInvoice_call (b : Board.t) : Board.t * bool := onPayInvoice_call b.

Definition onResetInvoice_resume (b : Board.t) (result : Js.Result string) : Board.t :=
  onPayInvoice_resume b result.

(** [onIssueInvoice] on an adapter in state [api], for a call during which
    nothing else runs. *)
Definition onIssueInvoice `{Numeric} (callTx : CircuitCall -> Js.Result FinalizedTx.t) (now : Z)
    (today : JsString) (b : Board.t) (api : InvoiceAPI.t) : Board.t * InvoiceAPI.t :=
  match onIssueInvoice_call today b with
  | (b1, None) => (b1, api)
  | (b1, Some (amount, invoiceData)) =>
      let '(api', _, result) := issueInvoice callTx now api amount invoiceData in
      (onIssueInvoice_resume b1 result, api')
  end.

(** Lines 193-203: the observer of the deployment. *)
Definition onDeployment (b : Board.t) (deployment : InvoiceDeployment) : Board.t :=
  let b1 :=
    {| Board.invoiceDeployment := Some deployment;
       Board.deployedInvoiceAPI := Board.deployedInvoiceAPI b;
       Board.errorMessage := Board.errorMessage b; Board.isWorking := Board.isWorking b;
       Board.showIssueForm := Board.showIssueForm b; Board.lastTxHash := Board.lastTxHash b;
       Board.title := Board.title b; Board.description := Board.description b;
       Board.amount := Board.amount b; Board.currency := Board.currency b;
       Board.titleError := Board.titleError b; Board.amountError := Board.amountError b |} in
  match deployment with
  | InProgress => b1
  | Deployed api =>
      Board.setIsWorking
        {| Board.invoiceDeployment := Board.invoiceDeployment b1;
           Board.deployedInvoiceAPI := Some api;
           Board.errorMessage := Board.errorMessage b1; Board.isWorking := Board.isWorking b1;
           Board.showIssueForm := Board.showIssueForm b1; Board.lastTxHash := Board.lastTxHash b1;
           Board.title := Board.title b1; Board.description := Board.description b1;
           Board.amount := Board.amount b1; Board.currency := Board.currency b1;
           Board.titleError := Board.titleError b1; Board.amountError := Board.amountError b1 |}
        false
  | Failed error => Board.setIsWorking (Board.setErrorMessage b1 (Some (Js.message error))) false
  end.

(** What the subscriber of lines 193-203 does with a notification: it
    passes a [next] callback only. *)
Definition observeDeployment (b : Board.t) (n : Notification InvoiceDeployment) : Board.t :=
  match n with
  | Next deployment => onDeployment b deployment
  | _ => b
  end.

(** A stand-in for the two conversions that agrees with them on text made
    of decimal digits, and answers for any other text as they do for text
    that is not a number.  It serves the worked instances only. *)
Fixpoint decimal (acc : Z) (s : JsString) : option Z :=
  match s with
  | [] => Some acc
  | c :: s' =>
      if JSON.is_digit c then decimal (10 * acc + Z.of_N (c - 48)) s' else None
  end.

Definition decimal_numeric : Numeric :=
  {| Number_le_0 s := match decimal 0 s with Some n => n <=? 0 | None => false end;
     BigInt_ s :=
       match decimal 0 s with
       | Some n => Js.Ok n
       | None => Js.Throw (Js.VError (Js.mkError "Cannot convert the text to a BigInt"))
       end |}.

Definition sample_board : Board.t :=
  {| Board.invoiceDeployment := Some (Deployed sample_api);
     Board.deployedInvoiceAPI := Some sample_api;
     Board.errorMessage := Some "earlier";
     Board.isWorking := false; Board.showIssueForm := true; Board.lastTxHash := None;
     Board.title := " Web design "; Board.description := "Landing page";
     Board.amount := "250"; Board.currency := "NIGHT";
     Board.titleError := ""; Board.amountError := "" |}.

(** * Properties *)

(** ** [toHex] is injective *)




(** ** The derived-state stream *)

Lemma run_snoc `{Circuits} (w : World.t) (events : list Event) (e : Event) :
  run w (events ++ [e]) = step (run w events) e.
Proof. unfold run. rewrite fold_left_app. reflexivity. Qed.

Lemma emissions_deliver (w : World.t) s out logged :
  emissions (deliver w s out logged)
  = emissions w ++ omap (fun n => match n with Next d => Some d | _ => None end) out.
Proof. unfold emissions, deliver. simpl. apply omap_app. Qed.

Lemma combine_spec `{Circuits} api s s' out logged :
  combine api s = (s', out, logged) ->
  Subscription.ledgerValue s' = Subscription.ledgerValue s /\
  Subscription.privateValue s' = Subscription.privateValue s /\
  forall d, In (Next d) out ->
    exists l p, Subscription.ledgerValue s = Some l /\
                Subscription.privateValue s = Some p /\
                project api l p = (Js.Ok d, logged).
Proof.
  unfold combine. intros E.
  destruct (Subscription.ledgerValue s) as [l|] eqn:El;
    destruct (Subscription.privateValue s) as [p|] eqn:Ep;
    try (injection E as <- <- <-; rewrite ?El, ?Ep; repeat split; intros d []).
  destruct (project api l p) as [[d'|v] lg] eqn:Eproj; injection E as <- <- <-.
  - rewrite El, Ep. repeat split. intros d [[= ->]|[]]. eauto.
  - simpl. repeat split. intros d [[=]|[]].
Qed.

Lemma source_completed_spec s s' out :
  source_completed s = (s', out) ->
  Subscription.ledgerValue s' = Subscription.ledgerValue s /\
  Subscription.privateValue s' = Subscription.privateValue s /\
  forall d, ~ In (Next d) out.
Proof.
  unfold source_completed. intros E.
  destruct (_ || _); injection E as <- <-; simpl; repeat split; intros d [[=]|[]] || intros d [].
Qed.

Lemma project_ok `{Circuits} api l p d logged :
  project api l p = (Js.Ok d, logged) ->
  exists ps, p = Some ps /\ fst (project api l (Some ps)) = Js.Ok d.
Proof.
  intros E. destruct p as [ps|]; [|discriminate].
  exists ps. split; [reflexivity|]. rewrite E. reflexivity.
Qed.

Lemma In_emissions_app_next (rcv : list InvoiceDerivedState.t) out d (P : Prop) :
  (In d rcv -> P) ->
  (In (Next d) out -> P) ->
  In d (rcv ++ omap (fun n => match n with Next d => Some d | _ => None end) out) -> P.
Proof.
  intros H1 H2 Hin. apply in_app_or in Hin as [Hin|Hin]; [auto|].
  apply H2. apply list_elem_of_In in Hin. apply list_elem_of_omap in Hin as (n & Hn & En).
  destruct n; inversion En; subst. apply list_elem_of_In. exact Hn.
Qed.

Lemma adapter_inv_start `{Circuits} address logger store :
  adapter_inv logger store [] (start address logger store).
Proof.
  unfold adapter_inv, start, emissions. simpl. repeat split; try discriminate.
  intros d [].
Qed.

Lemma adapter_inv_weaken `{Circuits} logger store events e w :
  adapter_inv logger store events w -> adapter_inv logger store (events ++ [e]) w.
Proof.
  intros (Hp & Hl & Hlv & Hpv & Hem). repeat split; auto.
  - intros l El. apply in_or_app. left. auto.
  - intros d Hd. destruct (Hem d Hd) as (l & ps & api & Hin & ? & ? & ?).
    exists l, ps, api. repeat split; auto. apply in_or_app. left. exact Hin.
Qed.

Lemma resume_keeps_fetch api call txData now api' logged result :
  resume api call txData now = (api', logged, result) ->
  InvoiceAPI.privateState api' = InvoiceAPI.privateState api /\
  InvoiceAPI.logger api' = InvoiceAPI.logger api /\
  InvoiceAPI.deployedContractAddress api' = InvoiceAPI.deployedContractAddress api.
Proof.
  destruct call, txData; simpl; intros [= <- <- <-]; auto.
Qed.

Lemma adapter_inv_step `{Circuits} logger store events w e :
  adapter_inv logger store events w ->
  adapter_inv logger store (events ++ [e]) (step w e).
Proof.
  intros Hinv.
  pose proof (adapter_inv_weaken logger store events e w Hinv) as Hweak.
  destruct Hweak as (Hp & Hl & Hlv & Hpv & Hem).
  destruct e as [l|v| | |p|amount data| | |i txData now]; unfold step.
  - (* LedgerNext *)
    destruct (_ || _); [repeat split; assumption|].
    destruct (combine _ _) as [[s' out] logged] eqn:Ec.
    apply combine_spec in Ec as (El & Epv & Hout). simpl in El, Epv.
    repeat split; simpl; auto.
    + rewrite El. intros l' [= <-]. apply in_or_app. right. left. reflexivity.
    + rewrite Epv. auto.
    + intros d. rewrite emissions_deliver. apply In_emissions_app_next; [apply Hem|].
      intros Hd. destruct (Hout d Hd) as (l' & p & [= <-] & Ep & Eproj). simpl in Ep.
      apply Hpv in Ep. subst p.
      apply project_ok in Eproj as (ps & -> & Eproj).
      exists l, ps, (World.api w). repeat split; auto.
      apply in_or_app. right. left. reflexivity.
  - (* LedgerError *)
    destruct (_ || _); [repeat split; assumption|].
    simpl. repeat split; simpl; auto.
    intros d. rewrite emissions_deliver. apply In_emissions_app_next; [apply Hem|].
    intros [[=]|[]].
  - (* LedgerComplete *)
    destruct (_ || _); [repeat split; assumption|].
    destruct (source_completed _) as [s' out] eqn:Ec.
    apply source_completed_spec in Ec as (El & Epv & Hout). simpl in El, Epv.
    repeat split; simpl; auto.
    + rewrite El. auto.
    + rewrite Epv. auto.
    + intros d. rewrite emissions_deliver. apply In_emissions_app_next; [apply Hem|].
      intros Hd. destruct (Hout d Hd).
  - (* PrivateStateSettled *)
    destruct (_ || _); [repeat split; assumption|].
    rewrite Hp.
    destruct (combine _ _) as [[s1 out1] logged] eqn:Ec.
    apply combine_spec in Ec as (El & Epv & Hout). simpl in El, Epv.
    assert (forall d, In (Next d) out1 ->
              exists l ps api, In (LedgerNext l) (events ++ [PrivateStateSettled]) /\
                store = Some ps /\ InvoiceAPI.logger api = logger /\
                fst (project api l (Some ps)) = Js.Ok d) as Hnew.
    { intros d Hd. destruct (Hout d Hd) as (l & p & El' & [= <-] & Eproj). simpl in El'.
      apply project_ok in Eproj as (ps & -> & Eproj).
      exists l, ps, (World.api w). repeat split; auto. }
    destruct (Subscription.closed s1).
    + repeat split; simpl; auto.
      * rewrite El. auto.
      * rewrite Epv. intros p [= <-]. reflexivity.
      * intros d. rewrite emissions_deliver. apply In_emissions_app_next; [apply Hem|apply Hnew].
    + destruct (source_completed _) as [s2 out2] eqn:Ec2.
      apply source_completed_spec in Ec2 as (El2 & Epv2 & Hout2). simpl in El2, Epv2.
      repeat split; simpl; auto.
      * rewrite El2, El. auto.
      * rewrite Epv2, Epv. intros p [= <-]. reflexivity.
      * intros d. rewrite emissions_deliver. apply In_emissions_app_next; [apply Hem|].
        intros Hd. apply in_app_or in Hd as [Hd|Hd]; [auto|destruct (Hout2 d Hd)].
  - (* StorePut *)
    repeat split; simpl; auto.
  - (* InvokeIssueInvoice *)
    repeat split; simpl; auto.
  - repeat split; simpl; auto.
  - repeat split; simpl; auto.
  - (* CallSettled *)
    destruct (World.pending w !! i) as [call|]; [|repeat split; assumption].
    destruct (resume _ _ _ _) as [[api' logged] result] eqn:Er.
    apply resume_keeps_fetch in Er as (E1 & E2 & _).
    repeat split; simpl; auto; congruence.
Qed.

Lemma adapter_inv_run `{Circuits} address logger store events :
  adapter_inv logger store events (run (start address logger store) events).
Proof.
  induction events as [|e events IH] using rev_ind.
  - apply adapter_inv_start.
  - rewrite run_snoc. apply adapter_inv_step. exact IH.
Qed.

(** Every snapshot a subscriber receives is the projection of a ledger
    state the stream delivered and of the private state the constructor
    fetched. *)
Lemma emissions_are_projections `{Circuits} address logger store events d :
  In d (emissions (run (start address logger store) events)) ->
  exists l ps api,
    In (LedgerNext l) events /\ store = Some ps /\
    InvoiceAPI.logger api = logger /\
    fst (project api l (Some ps)) = Js.Ok d.
Proof.
  intros Hd. destruct (adapter_inv_run address logger store events) as (_ & _ & _ & _ & Hem).
  exact (Hem d Hd).
Qed.



(** ** [JSON.parse] undoes [JSON.stringify] on invoice records *)

Lemma hex_value_digit k : (k < 16)%N -> JSON.hex_value (code (hex_digit k)) = Some k.
Proof.
  intros Hk.
  assert (k = 0 \/ k = 1 \/ k = 2 \/ k = 3 \/ k = 4 \/ k = 5 \/ k = 6 \/ k = 7 \/
          k = 8 \/ k = 9 \/ k = 10 \/ k = 11 \/ k = 12 \/ k = 13 \/ k = 14 \/ k = 15)%N
    as Hcases by lia.
  repeat (destruct Hcases as [->|Hcases]; [reflexivity|]). subst k. reflexivity.
Qed.

(** The four digits of an escape are read back as the code unit. *)
Lemma parse_chars_unicode_escape c t :
  (c < 65536)%N ->
  JSON.parse_chars (JSON.unicode_escape c ++ t) = JSON.push_char c (JSON.parse_chars t).
Proof.
  intros Hc. unfold JSON.unicode_escape. cbn [app].
  change (JSON.parse_chars
            (JSON.backslash :: code "u" :: code (hex_digit (c / 4096))
               :: code (hex_digit ((c / 256) mod 16)) :: code (hex_digit ((c / 16) mod 16))
               :: code (hex_digit (c mod 16)) :: t))
    with (match JSON.hex4 (code (hex_digit (c / 4096))) (code (hex_digit ((c / 256) mod 16)))
                  (code (hex_digit ((c / 16) mod 16))) (code (hex_digit (c mod 16))) with
          | Some n => JSON.push_char n (JSON.parse_chars t)
          | None => None
          end).
  unfold JSON.hex4.
  rewrite !hex_value_digit by (try apply N.mod_lt; try apply N.Div0.div_lt_upper_bound; lia).
  replace (4096 * (c / 4096) + 256 * ((c / 256) mod 16) + 16 * ((c / 16) mod 16) + c mod 16)%N
    with c; [reflexivity|].
  pose proof (N.div_mod c 16 ltac:(lia)) as H1.
  pose proof (N.div_mod (c / 16) 16 ltac:(lia)) as H2.
  pose proof (N.div_mod (c / 256) 16 ltac:(lia)) as H3.
  rewrite N.Div0.div_div in H2. rewrite N.Div0.div_div in H3.
  change (16 * 16)%N with 256%N in H2. change (256 * 16)%N with 4096%N in H3. lia.
Qed.

Lemma parse_chars_raw c t :
  (32 <= c)%N -> c <> JSON.dquote -> c <> JSON.backslash ->
  JSON.parse_chars (c :: t) = JSON.push_char c (JSON.parse_chars t).
Proof.
  intros Hc Hq Hb. cbn [JSON.parse_chars].
  rewrite (proj2 (N.eqb_neq _ _) Hq), (proj2 (N.eqb_neq _ _) Hb), (proj2 (N.ltb_ge _ _) Hc).
  reflexivity.
Qed.

(** One escaped code unit is read back as that code unit. *)
Lemma parse_chars_escape_char c t :
  JSON.parse_chars (JSON.escape_char c ++ t) = JSON.push_char c (JSON.parse_chars t).
Proof.
  unfold JSON.escape_char.
  destruct (N.eqb_spec c 8) as [->|H8]; [reflexivity|].
  destruct (N.eqb_spec c 9) as [->|H9]; [reflexivity|].
  destruct (N.eqb_spec c 10) as [->|H10]; [reflexivity|].
  destruct (N.eqb_spec c 12) as [->|H12]; [reflexivity|].
  destruct (N.eqb_spec c 13) as [->|H13]; [reflexivity|].
  destruct (N.eqb_spec c JSON.dquote) as [->|Hq]; [reflexivity|].
  destruct (N.eqb_spec c JSON.backslash) as [->|Hb]; [reflexivity|].
  destruct (N.ltb_spec c 32) as [Hlt|Hge].
  - apply parse_chars_unicode_escape. lia.
  - apply parse_chars_raw; assumption.
Qed.

Lemma surrogate_raw c t :
  JSON.is_high_surrogate c = true \/ JSON.is_low_surrogate c = true ->
  (c < 65536)%N /\
  JSON.parse_chars (c :: t) = JSON.push_char c (JSON.parse_chars t).
Proof.
  unfold JSON.is_high_surrogate, JSON.is_low_surrogate, JSON.dquote, JSON.backslash.
  intros Hs.
  assert (55296 <= c <= 57343)%N as Hrange.
  { destruct Hs as [Hs|Hs]; apply andb_prop in Hs as [Hlo Hhi];
      apply N.leb_le in Hlo, Hhi; lia. }
  split; [lia|].
  apply parse_chars_raw; unfold JSON.dquote, JSON.backslash; lia.
Qed.

Lemma parse_chars_escape s rest :
  JSON.parse_chars (JSON.escape_string s ++ JSON.dquote :: rest) = Some (s, rest).
Proof.
  revert rest.
  assert (forall s : JsString,
             (forall rest, JSON.parse_chars (JSON.escape_string s ++ JSON.dquote :: rest)
                           = Some (s, rest)) /\
             (forall c rest, JSON.parse_chars (JSON.escape_string (c :: s) ++ JSON.dquote :: rest)
                             = Some (c :: s, rest))) as Hboth.
  { clear s. induction s as [|d s [IH0 IH1]].
    - split; [reflexivity|]. intros c rest. cbn [JSON.escape_string].
      destruct (JSON.is_high_surrogate c) eqn:Eh.
      + destruct (surrogate_raw c [] (or_introl Eh)) as [Hc _].
        rewrite parse_chars_unicode_escape by exact Hc. reflexivity.
      + destruct (JSON.is_low_surrogate c) eqn:El.
        * destruct (surrogate_raw c [] (or_intror El)) as [Hc _].
          rewrite <- app_assoc, parse_chars_unicode_escape by exact Hc. reflexivity.
        * rewrite <- app_assoc, parse_chars_escape_char. reflexivity.
    - split; [exact (IH1 d)|]. intros c rest.
      change (JSON.escape_string (c :: d :: s))
        with (if JSON.is_high_surrogate c
              then if JSON.is_low_surrogate d
                   then c :: d :: JSON.escape_string s
                   else JSON.unicode_escape c ++ JSON.escape_string (d :: s)
              else if JSON.is_low_surrogate c
                   then JSON.unicode_escape c ++ JSON.escape_string (d :: s)
                   else JSON.escape_char c ++ JSON.escape_string (d :: s)).
      destruct (JSON.is_high_surrogate c) eqn:Eh.
      + destruct (JSON.is_low_surrogate d) eqn:El.
        * cbn [app].
          rewrite (proj2 (surrogate_raw c _ (or_introl Eh))),
                  (proj2 (surrogate_raw d _ (or_intror El))), IH0. reflexivity.
        * destruct (surrogate_raw c [] (or_introl Eh)) as [Hc _].
          rewrite <- app_assoc, parse_chars_unicode_escape, IH1 by exact Hc. reflexivity.
      + destruct (JSON.is_low_surrogate c) eqn:El.
        * destruct (surrogate_raw c [] (or_intror El)) as [Hc _].
          rewrite <- app_assoc, parse_chars_unicode_escape, IH1 by exact Hc. reflexivity.
        * rewrite <- app_assoc, parse_chars_escape_char, IH1. reflexivity. }
  intros rest. apply Hboth.
Qed.

Lemma quote_append s rest :
  JSON.quote s ++ rest = JSON.dquote :: JSON.escape_string s ++ JSON.dquote :: rest.
Proof. unfold JSON.quote. cbn [app]. rewrite <- app_assoc. reflexivity. Qed.

Lemma parse_stringify_invoice (d : InvoiceData.t) :
  JSON.parse (JSON.stringify (InvoiceData.to_json d)) = Some (InvoiceData.to_json d).
Proof.
  unfold InvoiceData.to_json.
  cbn [JSON.stringify map fst snd JSON.join_comma].
  repeat (rewrite quote_append || rewrite <- app_assoc || rewrite <- app_comm_cons).
  unfold JSON.parse.
  match goal with |- context [JSON.parse_value ?n ?t] =>
    assert (exists f, n = S (S (S (S (S (S f)))))) as [f ->]
  end.
  { cbn [length].
    match goal with |- exists f, (2 * S (S ?n) + 2)%nat = _ => exists (2 * n)%nat; lia end. }
  repeat (simpl; rewrite ?parse_chars_escape).
  reflexivity.
Qed.

Lemma stringify_invoice_truthy (d : InvoiceData.t) :
  string_truthy (JSON.stringify (InvoiceData.to_json d)) = true.
Proof. reflexivity. Qed.

Lemma submitted_step `{Circuits} w e :
  exists extra, World.submitted (step w e) = World.submitted w ++ extra.
Proof.
  destruct e; unfold step;
    repeat match goal with
           | |- context [if ?b then _ else _] => destruct b
           | |- context [let '(_, _) := ?x in _] => destruct x
           | |- context [match ?x with _ => _ end] => destruct x
           end;
    simpl; try (exists []; rewrite app_nil_r; reflexivity); eexists; reflexivity.
Qed.

Lemma submitted_run `{Circuits} w events call :
  In call (World.submitted w) -> In call (World.submitted (run w events)).
Proof.
  induction events as [|e events IH] using rev_ind; [auto|].
  intros Hin. rewrite run_snoc.
  destruct (submitted_step (run w events) e) as [extra ->].
  apply in_or_app. left. auto.
Qed.

Lemma invoke_submits `{Circuits} w events amount invoiceData :
  In (InvokeIssueInvoice amount invoiceData) events ->
  In (CallIssueInvoice amount (JSON.stringify (InvoiceData.to_json invoiceData)))
     (World.submitted (run w events)).
Proof.
  induction events as [|e events IH] using rev_ind; [intros []|].
  intros Hin. rewrite run_snoc. apply in_app_or in Hin as [Hin|[Ee|[]]].
  - destruct (submitted_step (run w events) e) as [extra ->].
    apply in_or_app. left. auto.
  - subst e. simpl. apply in_or_app. right. left. reflexivity.
Qed.

Lemma parse_invoiceJson_unparsable logger l :
  unparsable l ->
  parse_invoiceJson logger l
  = (None, if string_truthy (Maybe.value (Ledger.invoiceJson l))
           then log_if logger (LogError "Failed to parse invoice JSON") else []).
Proof.
  unfold unparsable, parse_invoiceJson. intros [-> | ->]; [reflexivity|].
  destruct (string_truthy _); reflexivity.
Qed.

Lemma project_unparsable `{Circuits} api l ps :
  unparsable l ->
  exists d,
    project api l (Some ps)
    = (Js.Ok d, if string_truthy (Maybe.value (Ledger.invoiceJson l))
                then log_if (InvoiceAPI.logger api) (LogError "Failed to parse invoice JSON")
                else []) /\
    InvoiceDerivedState.invoiceData d = None.
Proof.
  intros Hbad. unfold project. rewrite (parse_invoiceJson_unparsable _ _ Hbad).
  eexists. split; reflexivity.
Qed.

Lemma invoiceData_absent_iff logger l :
  fst (parse_invoiceJson logger l) = None <-> unparsable l.
Proof.
  unfold parse_invoiceJson, unparsable.
  destruct (Maybe.value (Ledger.invoiceJson l)) as [|c text] eqn:E; simpl.
  - split; auto.
  - destruct (JSON.parse (c :: text)) as [data|]; simpl.
    + split; [discriminate|intros [|]; discriminate].
    + split; auto.
Qed.

Lemma invoiceData_present logger l data :
  Maybe.value (Ledger.invoiceJson l) <> [] ->
  JSON.parse (Maybe.value (Ledger.invoiceJson l)) = Some data ->
  fst (parse_invoiceJson logger l) = Some data.
Proof.
  unfold parse_invoiceJson. intros Hne ->.
  destruct (Maybe.value (Ledger.invoiceJson l)); [contradiction|reflexivity].
Qed.

(** C7, as amended.  First part: in every snapshot, [invoiceData] is
    [undefined] when the invoice text of the ledger state it was computed
    from is empty or is rejected by [JSON.parse], and only then: whatever
    [JSON.parse] accepts, of whatever shape, is passed on as it is (the cast
    to [InvoiceData] checks nothing).  Second part: delivering a ledger state
    whose text is empty or rejected neither closes the stream nor sends the
    subscriber an error; what it sends, if anything, is a snapshot without
    [invoiceData]; and when a non-empty text was rejected while computing a
    snapshot, the logger (if there is one) got the error entry. *)
Theorem unparsable_invoiceJson_is_absent `{Circuits} :
  (forall address logger store events d,
     In d (emissions (run (start address logger store) events)) ->
     exists ledgerState privateState api,
       In (LedgerNext ledgerState) events /\
       store = Some privateState /\
       fst (project api ledgerState (Some privateState)) = Js.Ok d /\
       (InvoiceDerivedState.invoiceData d = None <-> unparsable ledgerState) /\
       (forall data,
          Maybe.value (Ledger.invoiceJson ledgerState) <> [] ->
          JSON.parse (Maybe.value (Ledger.invoiceJson ledgerState)) = Some data ->
          InvoiceDerivedState.invoiceData d = Some data))
  /\
  (forall address logger privateState events ledgerState,
     unparsable ledgerState ->
     let w := run (start address logger (Some privateState)) events in
     let w' := step w (LedgerNext ledgerState) in
     Subscription.closed (World.subscription w') = Subscription.closed (World.subscription w) /\
     (forall v, In (Error v) (World.received w') -> In (Error v) (World.received w)) /\
     (forall d, In (Next d) (World.received w') ->
        In (Next d) (World.received w) \/ InvoiceDerivedState.invoiceData d = None) /\
     (logger = true ->
      string_truthy (Maybe.value (Ledger.invoiceJson ledgerState)) = true ->
      World.received w' <> World.received w ->
      In (LogError "Failed to parse invoice JSON") (World.log w'))).
Proof.
  split.
  - intros address logger store events d Hd.
    destruct (emissions_are_projections _ _ _ _ _ Hd) as (l & ps & api & Hin & Hs & _ & Eproj).
    exists l, ps, api. split; [exact Hin|]. split; [exact Hs|]. split; [exact Eproj|].
    unfold project in Eproj. rewrite (surjective_pairing (parse_invoiceJson _ l)) in Eproj.
    simpl in Eproj. injection Eproj as <-. simpl.
    split; [apply invoiceData_absent_iff|apply invoiceData_present].
  - intros address logger ps events l Hbad w w'.
    destruct (adapter_inv_run address logger (Some ps) events) as (_ & Hlog & _ & Hpv & _).
    fold w in Hlog, Hpv. subst w'. unfold step.
    destruct (_ || _); [repeat split; auto; intros; contradiction|].
    unfold combine. simpl.
    destruct (Subscription.privateValue (World.subscription w)) as [p|] eqn:Ep.
    + rewrite (Hpv p eq_refl).
      destruct (project_unparsable (World.api w) l ps Hbad) as (d' & -> & Hnone).
      simpl. repeat split.
      * intros v Hv. apply in_app_or in Hv as [Hv|[[=]|[]]]. exact Hv.
      * intros d Hd. apply in_app_or in Hd as [Hd|[[= <-]|[]]]; auto.
      * intros -> -> _. rewrite Hlog. simpl.
        apply in_or_app. right. right. left. reflexivity.
    + simpl. rewrite app_nil_r. repeat split; auto. intros _ _ Hne. contradiction.
Qed.

Lemma unparsable_invoiceJson_is_absent_witness :
  (exists ledgerState privateState api,
     In (LedgerNext ledgerState) [PrivateStateSettled; LedgerNext (sample_ledger truncated_json)] /\
     Some sample_secret = Some privateState /\
     fst (@project sample_circuits api ledgerState (Some privateState)) = Js.Ok (sample_snapshot None) /\
     (InvoiceDerivedState.invoiceData (sample_snapshot None) = None <-> unparsable ledgerState) /\
     (forall data,
        Maybe.value (Ledger.invoiceJson ledgerState) <> [] ->
        JSON.parse (Maybe.value (Ledger.invoiceJson ledgerState)) = Some data ->
        InvoiceDerivedState.invoiceData (sample_snapshot None) = Some data))
  /\
  (let w := @run sample_circuits (start "addr" true (Some sample_secret)) [PrivateStateSettled] in
   let w' := @step sample_circuits w (LedgerNext (sample_ledger truncated_json)) in
   Subscription.closed (World.subscription w') = Subscription.closed (World.subscription w) /\
   (forall v, In (Error v) (World.received w') -> In (Error v) (World.received w)) /\
   (forall d, In (Next d) (World.received w') ->
      In (Next d) (World.received w) \/ InvoiceDerivedState.invoiceData d = None) /\
   (true = true ->
    string_truthy (Maybe.value (Ledger.invoiceJson (sample_ledger truncated_json))) = true ->
    World.received w' <> World.received w ->
    In (LogError "Failed to parse invoice JSON") (World.log w'))).
Proof.
  split.
  - apply (proj1 (@unparsable_invoiceJson_is_absent sample_circuits) "addr" true (Some sample_secret)
             [PrivateStateSettled; LedgerNext (sample_ledger truncated_json)] (sample_snapshot None)).
    vm_compute. left. reflexivity.
  - apply (proj2 (@unparsable_invoiceJson_is_absent sample_circuits) "addr" true sample_secret
             [PrivateStateSettled] (sample_ledger truncated_json)).
    right. vm_compute. reflexivity.
Defined.

(** C7, as the claim states it, fails.  A ledger text that is well-formed
    JSON but not an invoice does not fail to parse: the snapshot carries the
    parsed value as its [invoiceData], and nothing but the trace entry is
    logged. *)
Lemma other_shaped_invoiceJson_is_delivered :
  let w := @run sample_circuits (start "addr" true (Some sample_secret))
             [PrivateStateSettled; LedgerNext (sample_ledger other_shape_json)] in
  JSON.parse other_shape_json = Some (JSON.JObject [(js "paid", JSON.JBool true)]) /\
  World.received w
  = [Next (sample_snapshot (Some (JSON.JObject [(js "paid", JSON.JBool true)])))] /\
  World.log w = [LogTrace "ledgerStateChanged"].
Proof. repeat split. Qed.

Lemma to_json_inj d1 d2 : InvoiceData.to_json d1 = InvoiceData.to_json d2 -> d1 = d2.
Proof. destruct d1, d2. unfold InvoiceData.to_json. simpl. intros [= -> -> -> ->]. reflexivity. Qed.

(** C9.  When [issueInvoice(amount, invoiceData)] has been called, the
    circuit was called with the text [JSON.stringify] makes of the object
    with the four properties [title], [description], [issuedAt] and
    [currency] of the record passed in, in this order; and a snapshot
    computed from a ledger state whose invoice text is that text has as its
    [invoiceData] the object with exactly these four properties, each holding
    the string passed in. *)
Theorem issue_then_observe_roundtrip `{Circuits} address logger store events amount invoiceData d :
  let sent :=
    JSON.JObject
      [ (js "title", JSON.JString (InvoiceData.title invoiceData));
        (js "description", JSON.JString (InvoiceData.description invoiceData));
        (js "issuedAt", JSON.JString (InvoiceData.issuedAt invoiceData));
        (js "currency", JSON.JString (InvoiceData.currency invoiceData)) ] in
  In (InvokeIssueInvoice amount invoiceData) events ->
  In d (emissions (run (start address logger store) events)) ->
  In (CallIssueInvoice amount (JSON.stringify sent))
     (World.submitted (run (start address logger store) events)) /\
  exists ledgerState privateState api,
    In (LedgerNext ledgerState) events /\
    fst (project api ledgerState (Some privateState)) = Js.Ok d /\
    (Maybe.value (Ledger.invoiceJson ledgerState) = JSON.stringify sent ->
     InvoiceDerivedState.invoiceData d = Some sent).
Proof.
  intros sent Hcall Hd. subst sent. split; [exact (invoke_submits _ _ _ _ Hcall)|].
  destruct (emissions_are_projections _ _ _ _ _ Hd) as (l & ps & api & Hin & Hs & _ & Eproj).
  exists l, ps, api. repeat split; auto.
  intros Etext.
  change (Maybe.value (Ledger.invoiceJson l) = JSON.stringify (InvoiceData.to_json invoiceData))
    in Etext.
  unfold project, parse_invoiceJson in Eproj. rewrite Etext in Eproj.
  rewrite (stringify_invoice_truthy invoiceData), (parse_stringify_invoice invoiceData) in Eproj.
  simpl in Eproj. injection Eproj as <-. reflexivity.
Qed.

Lemma issue_then_observe_roundtrip_witness :
  let sent :=
    JSON.JObject
      [ (js "title", JSON.JString "T");
        (js "description", JSON.JString "D");
        (js "issuedAt", JSON.JString "2025-01-01");
        (js "currency", JSON.JString "NIGHT") ] in
  let events :=
    [ InvokeIssueInvoice 100 sample_invoice;
      PrivateStateSettled;
      LedgerNext (sample_ledger (JSON.stringify sent)) ] in
  let d := sample_snapshot (Some sent) in
  In (CallIssueInvoice 100 (JSON.stringify sent))
     (World.submitted (@run sample_circuits (start "addr" true (Some sample_secret)) events)) /\
  exists ledgerState privateState api,
    In (LedgerNext ledgerState) events /\
    fst (@project sample_circuits api ledgerState (Some privateState)) = Js.Ok d /\
    (Maybe.value (Ledger.invoiceJson ledgerState) = JSON.stringify sent ->
     InvoiceDerivedState.invoiceData d = Some sent).
Proof.
  apply (@issue_then_observe_roundtrip sample_circuits "addr" true (Some sample_secret)
           [ InvokeIssueInvoice 100 sample_invoice;
             PrivateStateSettled;
             LedgerNext (sample_ledger (JSON.stringify (InvoiceData.to_json sample_invoice))) ]
           100 sample_invoice
           (sample_snapshot (Some (InvoiceData.to_json sample_invoice)))).
  - left. reflexivity.
  - vm_compute. left. reflexivity.
Defined.

(** ** When [state$] emits, and from which private state *)

Lemma combine_without_private `{Circuits} api s :
  Subscription.privateValue s = None -> combine api s = (s, [], []).
Proof. unfold combine. intros ->. destruct (Subscription.ledgerValue s); reflexivity. Qed.

Lemma combine_without_ledger `{Circuits} api s :
  Subscription.ledgerValue s = None -> combine api s = (s, [], []).
Proof. unfold combine. intros ->. reflexivity. Qed.

Lemma emissions_same_received w w' :
  World.received w' = World.received w -> emissions w' = emissions w.
Proof. unfold emissions. intros ->. reflexivity. Qed.

Lemma source_completed_silent s s' out :
  source_completed s = (s', out) ->
  omap (fun n => match n with Next d => Some d | _ => None end) out = [].
Proof.
  unfold source_completed. destruct (_ || _); intros [= <- <-]; reflexivity.
Qed.

Lemma step_before_private `{Circuits} w e :
  Subscription.privateValue (World.subscription w) = None ->
  e <> PrivateStateSettled ->
  Subscription.privateValue (World.subscription (step w e)) = None /\
  emissions (step w e) = emissions w.
Proof.
  intros Hnone Hne. destruct e as [l|v| | |p|amount data| | |i txData now]; unfold step;
    try contradiction; auto.
  - destruct (_ || _); [auto|].
    rewrite combine_without_private by exact Hnone. simpl.
    split; [exact Hnone|]. rewrite emissions_deliver. apply app_nil_r.
  - destruct (_ || _); [auto|]. simpl.
    split; [exact Hnone|]. rewrite emissions_deliver. apply app_nil_r.
  - destruct (_ || _); [auto|].
    destruct (source_completed _) as [s' out] eqn:Ec.
    pose proof (source_completed_silent _ _ _ Ec) as Hout.
    apply source_completed_spec in Ec as (_ & Epv & _). simpl in Epv.
    split; [simpl; congruence|]. rewrite emissions_deliver, Hout. apply app_nil_r.
  - destruct (World.pending w !! i); [|auto].
    destruct (resume _ _ _ _) as [[api' logged] result]. auto.
Qed.

Lemma step_before_ledger `{Circuits} w e :
  Subscription.ledgerValue (World.subscription w) = None ->
  (forall l, e <> LedgerNext l) ->
  Subscription.ledgerValue (World.subscription (step w e)) = None /\
  emissions (step w e) = emissions w.
Proof.
  intros Hnone Hne. destruct e as [l|v| | |p|amount data| | |i txData now]; unfold step; auto.
  - destruct (Hne l eq_refl).
  - destruct (_ || _); [auto|]. simpl.
    split; [exact Hnone|]. rewrite emissions_deliver. apply app_nil_r.
  - destruct (_ || _); [auto|].
    destruct (source_completed _) as [s' out] eqn:Ec.
    pose proof (source_completed_silent _ _ _ Ec) as Hout.
    apply source_completed_spec in Ec as (El & _ & _). simpl in El.
    split; [simpl; congruence|]. rewrite emissions_deliver, Hout. apply app_nil_r.
  - destruct (_ || _); [auto|].
    destruct (InvoiceAPI.privateState (World.api w)) as [p|v].
    + rewrite combine_without_ledger by exact Hnone.
      destruct (Subscription.closed _).
      * simpl. split; [exact Hnone|]. rewrite emissions_deliver. apply app_nil_r.
      * destruct (source_completed _) as [s' out] eqn:Ec.
        pose proof (source_completed_silent _ _ _ Ec) as Hout.
        apply source_completed_spec in Ec as (El & _ & _). simpl in El.
        split; [simpl; congruence|]. rewrite emissions_deliver. simpl. rewrite Hout. apply app_nil_r.
    + simpl. split; [exact Hnone|]. rewrite emissions_deliver. apply app_nil_r.
  - destruct (World.pending w !! i); [|auto].
    destruct (resume _ _ _ _) as [[api' logged] result]. auto.
Qed.

Lemma nothing_before_private `{Circuits} address logger store events :
  ~ In PrivateStateSettled events ->
  Subscription.privateValue (World.subscription (run (start address logger store) events)) = None /\
  emissions (run (start address logger store) events) = [].
Proof.
  induction events as [|e events IH] using rev_ind; [split; reflexivity|].
  intros Hnot. rewrite run_snoc.
  destruct IH as [Hpv Hem]; [intros Hin; apply Hnot, in_or_app; left; exact Hin|].
  destruct (step_before_private (run (start address logger store) events) e Hpv) as [H1 H2].
  - intros ->. apply Hnot, in_or_app. right. left. reflexivity.
  - split; [exact H1|]. rewrite H2. exact Hem.
Qed.

Lemma nothing_before_ledger `{Circuits} address logger store events :
  (forall l, ~ In (LedgerNext l) events) ->
  Subscription.ledgerValue (World.subscription (run (start address logger store) events)) = None /\
  emissions (run (start address logger store) events) = [].
Proof.
  induction events as [|e events IH] using rev_ind; [split; reflexivity|].
  intros Hnot. rewrite run_snoc.
  destruct IH as [Hlv Hem]; [intros l Hin; apply (Hnot l), in_or_app; left; exact Hin|].
  destruct (step_before_ledger (run (start address logger store) events) e Hlv) as [H1 H2].
  - intros l ->. apply (Hnot l), in_or_app. right. left. reflexivity.
  - split; [exact H1|]. rewrite H2. exact Hem.
Qed.

Lemma forget_store_step `{Circuits} w e :
  forget_store (step w e) = if is_StorePut e then forget_store w else step (forget_store w) e.
Proof.
  destruct e; unfold step; simpl; step_cases; reflexivity.
Qed.

Lemma forget_store_run `{Circuits} w events :
  forget_store (run w events) = run (forget_store w) (without_store_puts events).
Proof.
  induction events as [|e events IH] using rev_ind; [reflexivity|].
  unfold without_store_puts in *.
  rewrite List.filter_app, run_snoc, forget_store_step. simpl.
  destruct (is_StorePut e); simpl.
  - rewrite app_nil_r. exact IH.
  - rewrite run_snoc, IH. reflexivity.
Qed.

Lemma without_store_puts_idem events :
  without_store_puts (without_store_puts events) = without_store_puts events.
Proof.
  unfold without_store_puts. induction events as [|e events IH]; [reflexivity|].
  simpl. destruct (is_StorePut e) eqn:E; simpl; [exact IH|].
  rewrite E. simpl. rewrite IH. reflexivity.
Qed.

Lemma received_without_store_puts `{Circuits} w events :
  World.received (run w events) = World.received (run w (without_store_puts events)).
Proof.
  change (World.received (forget_store (run w events))
          = World.received (forget_store (run w (without_store_puts events)))).
  rewrite !forget_store_run, without_store_puts_idem. reflexivity.
Qed.

(** C10.  [state$] emits nothing until the private-state promise has
    settled and the ledger stream has delivered a state.  Each snapshot is
    the projection of a delivered ledger state and of the private state
    that was in the store when the adapter was built.  Writes to the store
    after that leave what the subscriber receives unchanged. *)
Theorem state_waits_for_both_and_keeps_private_state `{Circuits} :
  (forall address logger store events,
     ~ In PrivateStateSettled events \/ (forall l, ~ In (LedgerNext l) events) ->
     emissions (run (start address logger store) events) = [])
  /\
  (forall address logger store events d,
     In d (emissions (run (start address logger store) events)) ->
     exists ledgerState privateState api,
       In (LedgerNext ledgerState) events /\
       store = Some privateState /\
       fst (project api ledgerState (Some privateState)) = Js.Ok d)
  /\
  (forall address logger store events,
     World.received (run (start address logger store) events)
     = World.received (run (start address logger store) (without_store_puts events))).
Proof.
  split; [|split].
  - intros address logger store events [Hp|Hl].
    + apply nothing_before_private. exact Hp.
    + apply nothing_before_ledger. exact Hl.
  - intros address logger store events d Hd.
    destruct (emissions_are_projections _ _ _ _ _ Hd) as (l & ps & api & Hin & Hs & _ & Eproj).
    exists l, ps, api. auto.
  - intros. apply received_without_store_puts.
Qed.

Lemma state_waits_for_both_and_keeps_private_state_witness :
  emissions (@run sample_circuits (start "addr" true (Some sample_secret))
               [LedgerNext (sample_ledger ""); StorePut other_secret]) = []
  /\
  (exists ledgerState privateState api,
     In (LedgerNext ledgerState)
        [LedgerNext (sample_ledger ""); StorePut other_secret; PrivateStateSettled] /\
     Some sample_secret = Some privateState /\
     fst (@project sample_circuits api ledgerState (Some privateState)) = Js.Ok (sample_snapshot None)).
Proof.
  split.
  - apply (proj1 (@state_waits_for_both_and_keeps_private_state sample_circuits)).
    left. simpl. intros [[=]|[[=]|[]]].
  - apply (proj1 (proj2 (@state_waits_for_both_and_keeps_private_state sample_circuits))
             "addr" true (Some sample_secret)
             [LedgerNext (sample_ledger ""); StorePut other_secret; PrivateStateSettled]
             (sample_snapshot None)).
    vm_compute. left. reflexivity.
Defined.

(** ** The transaction history *)

Lemma resume_history api call txData now :
  InvoiceAPI.transactionHistory (fst (fst (resume api call txData now)))
  = InvoiceAPI.transactionHistory api ++
      match txData with
      | Js.Ok tx => [entry_of call tx now]
      | Js.Throw _ => []
      end.
Proof.
  destruct call, txData; simpl; try reflexivity; symmetry; apply app_nil_r.
Qed.

Lemma resume_result api call txData now :
  snd (resume api call txData now)
  = match txData with
    | Js.Ok tx => Js.Ok (FinalizedTx.txHash tx)
    | Js.Throw error => Js.Throw error
    end.
Proof. destruct call, txData; reflexivity. Qed.

Lemma history_step `{Circuits} w e : history (step w e) = history w ++ appended w e.
Proof.
  unfold history.
  destruct e as [l|v| | |p|amount data| | |i txData now]; unfold step, appended;
    try (step_cases; simpl; symmetry; apply app_nil_r).
  destruct (World.pending w !! i) as [call|].
  - pose proof (resume_history (World.api w) call txData now) as Hh.
    destruct (resume _ _ _ _) as [[api' logged] result]. simpl in *. rewrite Hh.
    destruct txData; reflexivity.
  - destruct txData; symmetry; apply app_nil_r.
Qed.

Lemma settle_step `{Circuits} w i call txData now :
  World.pending w !! i = Some call ->
  World.returned (step w (CallSettled i txData now))
  = World.returned w ++ [snd (resume (World.api w) call txData now)].
Proof.
  intros E. unfold step. rewrite E.
  destruct (resume _ _ _ _) as [[api' logged] result]. reflexivity.
Qed.

(** The three methods, called one after the other on a fresh adapter with
    every transaction finalized. *)
Lemma issue_pay_reset_in_sequence callTx address logger store amount invoiceData tx1 tx2 tx3 t1 t2 t3 :
  callTx (CallIssueInvoice amount (JSON.stringify (InvoiceData.to_json invoiceData))) = Js.Ok tx1 ->
  callTx CallPayInvoice = Js.Ok tx2 ->
  callTx CallResetInvoice = Js.Ok tx3 ->
  let api0 := new_InvoiceAPI address logger store in
  let api1 := fst (fst (issueInvoice callTx t1 api0 amount invoiceData)) in
  let api2 := fst (fst (payInvoice callTx t2 api1)) in
  let api3 := fst (fst (resetInvoice callTx t3 api2)) in
  map TransactionHistoryEntry.type (InvoiceAPI.transactionHistory api3) = [issue; payment; reset] /\
  map TransactionHistoryEntry.txHash (InvoiceAPI.transactionHistory api3)
  = [FinalizedTx.txHash tx1; FinalizedTx.txHash tx2; FinalizedTx.txHash tx3] /\
  map TransactionHistoryEntry.blockHeight (InvoiceAPI.transactionHistory api3)
  = [FinalizedTx.blockHeight tx1; FinalizedTx.blockHeight tx2; FinalizedTx.blockHeight tx3].
Proof.
  intros E1 E2 E3 api0 api1 api2 api3. subst api3 api2 api1 api0.
  unfold issueInvoice, issueInvoice_call, payInvoice, payInvoice_call,
    resetInvoice, resetInvoice_call.
  rewrite E1, E2, E3. simpl. auto.
Qed.

(** A method whose circuit call fails returns the adapter as it was and
    rethrows the error. *)
Lemma failed_call_changes_nothing callTx now api amount invoiceData error :
  (forall call, callTx call = Js.Throw error) ->
  fst (fst (issueInvoice callTx now api amount invoiceData)) = api /\
  snd (issueInvoice callTx now api amount invoiceData) = Js.Throw error /\
  fst (fst (payInvoice callTx now api)) = api /\
  snd (payInvoice callTx now api) = Js.Throw error /\
  fst (fst (resetInvoice callTx now api)) = api /\
  snd (resetInvoice callTx now api) = Js.Throw error.
Proof.
  intros E.
  unfold issueInvoice, issueInvoice_call, payInvoice, payInvoice_call,
    resetInvoice, resetInvoice_call.
  rewrite !E. simpl. auto 10.
Qed.

(** C5.  The history only ever grows at its end, and only when the
    contract call of a pending operation is finalized: the entry then added
    has the operation's type and the finalized [txHash] and [blockHeight].
    A call that fails adds nothing, and its error is handed to the caller as
    it is.  Issuing, paying and resetting in turn leaves the three entries
    in that order. *)
Theorem history_is_append_only `{Circuits} :
  (forall w e, history (step w e) = history w ++ appended w e)
  /\
  (forall w i call tx now,
     World.pending w !! i = Some call ->
     let w' := step w (CallSettled i (Js.Ok tx) now) in
     history w' = history w ++ [entry_of call tx now] /\
     World.returned w' = World.returned w ++ [Js.Ok (FinalizedTx.txHash tx)])
  /\
  (forall w i call error now,
     World.pending w !! i = Some call ->
     let w' := step w (CallSettled i (Js.Throw error) now) in
     history w' = history w /\
     World.returned w' = World.returned w ++ [Js.Throw error])
  /\
  (forall address logger store amount invoiceData tx1 tx2 tx3 t1 t2 t3,
     history (run (start address logger store)
                [ InvokeIssueInvoice amount invoiceData; CallSettled 0 (Js.Ok tx1) t1;
                  InvokePayInvoice; CallSettled 0 (Js.Ok tx2) t2;
                  InvokeResetInvoice; CallSettled 0 (Js.Ok tx3) t3 ])
     = [ entry_of (PendingIssue amount invoiceData) tx1 t1;
         entry_of PendingPay tx2 t2;
         entry_of PendingReset tx3 t3 ]).
Proof.
  split; [exact history_step|]. split; [|split].
  - intros w i call tx now E w'. subst w'. split.
    + rewrite history_step. simpl. rewrite E. reflexivity.
    + rewrite (settle_step _ _ _ _ _ E), resume_result. reflexivity.
  - intros w i call error now E w'. subst w'. split.
    + rewrite history_step. simpl. apply app_nil_r.
    + rewrite (settle_step _ _ _ _ _ E), resume_result. reflexivity.
  - intros. reflexivity.
Qed.

Lemma history_is_append_only_witness :
  let w := @run sample_circuits (start "addr" true (Some sample_secret))
             [InvokeIssueInvoice 100 sample_invoice; InvokePayInvoice] in
  (let w' := @step sample_circuits w (CallSettled 1 (Js.Ok (sample_tx "h2" 8)) 2000) in
   history w' = history w ++ [entry_of PendingPay (sample_tx "h2" 8) 2000] /\
   World.returned w' = World.returned w ++ [Js.Ok "h2"])
  /\
  (let w' := @step sample_circuits w (CallSettled 0 (Js.Throw (Js.VOther true "rejected")) 1000) in
   history w' = history w /\
   World.returned w' = World.returned w ++ [Js.Throw (Js.VOther true "rejected")]).
Proof.
  intros w. split.
  - apply (proj1 (proj2 (@history_is_append_only sample_circuits)) w 1%nat PendingPay).
    reflexivity.
  - apply (proj1 (proj2 (proj2 (@history_is_append_only sample_circuits))) w 0%nat
             (PendingIssue 100 sample_invoice)).
    reflexivity.
Defined.

(** ** The deployment registry *)

Local Close Scope Z_scope.

Lemma manager_run_snoc m events e :
  manager_run m (events ++ [e]) = manager_step (manager_run m events) e.
Proof. unfold manager_run. rewrite fold_left_app. reflexivity. Qed.

Lemma task_ok_frame m m' t task :
  Manager.subjects m' !! t = Manager.subjects m !! t ->
  (forall r, Manager.promises m !! 0 = Some (Settled r) ->
             Manager.promises m' !! 0 = Some (Settled r)) ->
  task_ok m t task -> task_ok m' t task.
Proof.
  intros Hs Hp (Hd & Hprov & subject & Hsub & Hstop & Hphase).
  split; [exact Hd|]. split; [exact Hprov|].
  exists subject. rewrite Hs. split; [exact Hsub|]. split; [exact Hstop|].
  destruct (Task.phase task) as [|providers|].
  - exact Hphase.
  - destruct Hphase as (? & ? & ?). auto.
  - destruct Hphase as (v & Hv & Eval & Enot & [r Hr] & Hfail).
    exists v. repeat split; auto.
    + exists r. auto.
    + intros error Herr. apply Hfail. rewrite (Hp r Hr) in Herr. congruence.
Qed.

Lemma manager_inv_initial : manager_inv Manager.initial.
Proof.
  unfold manager_inv. simpl. split; [reflexivity|]. split; [reflexivity|].
  split; [left; auto|].
  intros t task Ht. rewrite lookup_nil in Ht. discriminate.
Qed.

Lemma getProviders_inv m :
  manager_inv m ->
  exists m1,
    getProviders m = (m1, 0) /\
    Manager.subjects m1 = Manager.subjects m /\
    Manager.invoiceDeploymentsSubject m1 = Manager.invoiceDeploymentsSubject m /\
    Manager.tasks m1 = Manager.tasks m /\
    Manager.initializedProviders m1 = Some 0 /\
    length (Manager.promises m1) = 1 /\
    (forall r, Manager.promises m !! 0 = Some (Settled r) ->
               Manager.promises m1 !! 0 = Some (Settled r)) /\
    (Manager.promises m <> [] -> m1 = m).
Proof.
  intros (_ & _ & [(Hnone & Hnil & _)|(Hsome & Hlen)] & _); unfold getProviders.
  - rewrite Hnone, Hnil. simpl. eexists. split; [reflexivity|]. simpl.
    repeat (split; [reflexivity|]). split; [|contradiction].
    intros r Hr. discriminate.
  - rewrite Hsome. exists m. repeat (split; [auto|]). auto.
Qed.

Lemma manager_inv_resolve m contractAddress :
  manager_inv m -> manager_inv (fst (resolve contractAddress m)).
Proof.
  intros Hinv. unfold resolve.
  destruct (List.find _ _) as [d|]; [exact Hinv|].
  destruct (getProviders_inv m Hinv) as (m1 & -> & Hs & Hds & Ht & Hip & Hlen & Hmono & _).
  destruct Hinv as (Hlt & Hdep & _ & Htasks).
  unfold manager_inv, deployments in *. simpl.
  rewrite Hs, Ht, Hds, !length_app, Hlt. simpl.
  split; [reflexivity|]. split.
  { unfold BehaviorSubject.next.
    destruct (BehaviorSubject.isStopped _); simpl; rewrite Hdep, seq_app; reflexivity. }
  split; [right; auto|].
  intros t task Hlook. apply lookup_snoc_Some in Hlook as [[Hlt' Hlook]|[-> <-]].
  - apply (task_ok_frame m); [simpl; apply lookup_app_l; lia|exact Hmono|auto].
  - split; [simpl; congruence|]. split; [reflexivity|].
    exists (BehaviorSubject.create InProgress). simpl. rewrite Hlt.
    rewrite list_lookup_middle by reflexivity. auto.
Qed.

Lemma task_next_inv m t task v p :
  manager_inv m ->
  Manager.tasks m !! t = Some task ->
  (forall subject,
     Manager.subjects m !! t = Some subject ->
     task_ok m t task ->
     task_ok (task_next m t task v p) t (Task.set_phase task p)) ->
  manager_inv (task_next m t task v p).
Proof.
  intros (Hlt & Hdep & Hprom & Htasks) Hlook Hnew.
  pose proof (Htasks t task Hlook) as Hok.
  destruct Hok as (Hd & Hprov & subject & Hsub & Hrest).
  unfold manager_inv, deployments, task_next. simpl.
  split. { rewrite length_insert. destruct v; [rewrite length_alter|]; exact Hlt. }
  split. { destruct v; [rewrite length_alter|]; exact Hdep. }
  split.
  { destruct Hprom as [(? & ? & Hnil)|?]; [|right; assumption].
    rewrite Hnil in Hlook. rewrite lookup_nil in Hlook. discriminate. }
  intros t' task' Hlook'.
  apply list_lookup_insert_Some in Hlook' as [(<- & <- & _)|(Hne & Hlook')].
  - apply (Hnew subject Hsub). apply Htasks. exact Hlook.
  - apply (task_ok_frame m); [|auto|apply Htasks; exact Hlook'].
    simpl. destruct v; [|reflexivity]. rewrite Hd. apply list_lookup_alter_ne. exact Hne.
Qed.

Lemma next_running subject (v : InvoiceDeployment) :
  BehaviorSubject.isStopped subject = false ->
  BehaviorSubject.notified subject = [Next InProgress] ->
  BehaviorSubject.next subject v
  = {| BehaviorSubject.value := v;
       BehaviorSubject.isStopped := false;
       BehaviorSubject.notified := [Next InProgress; Next v] |}.
Proof. unfold BehaviorSubject.next. intros -> ->. reflexivity. Qed.

Lemma manager_inv_resume_with_providers m t :
  manager_inv m -> manager_inv (resume_with_providers m t).
Proof.
  intros Hinv. unfold resume_with_providers.
  destruct (Manager.tasks m !! t) as [task|] eqn:Hlook; [|exact Hinv].
  destruct (Task.phase task) eqn:Hphase; try exact Hinv.
  destruct (Manager.promises m !! Task.providers task) as [[|[providers|error]]|] eqn:Hprom;
    try exact Hinv.
  - apply task_next_inv; [exact Hinv|exact Hlook|].
    intros subject Hsub (Hd & Hprov & subject' & Hsub' & Hstop & Hrest).
    rewrite Hphase in Hrest. destruct Hrest as (Hval & Hnot).
    split; [exact Hd|]. split; [exact Hprov|].
    exists subject'. simpl. rewrite Hprov in Hprom. auto.
  - apply task_next_inv; [exact Hinv|exact Hlook|].
    intros subject Hsub (Hd & Hprov & subject' & Hsub' & Hstop & Hrest).
    rewrite Hphase in Hrest. destruct Hrest as (Hval & Hnot).
    split; [exact Hd|]. split; [exact Hprov|].
    eexists. simpl. rewrite Hd, list_lookup_alter_eq, Hsub'. simpl.
    rewrite (next_running _ _ Hstop Hnot). split; [reflexivity|]. split; [reflexivity|].
    simpl. exists (Failed (normalize_error error)).
    split; [discriminate|]. split; [reflexivity|]. split; [reflexivity|].
    rewrite Hprov in Hprom. split; [eauto|].
    intros error' Herr. rewrite Hprom in Herr. congruence.
Qed.

Lemma manager_inv_resume_with_api m t outcome :
  manager_inv m -> manager_inv (resume_with_api m t outcome).
Proof.
  intros Hinv. unfold resume_with_api.
  destruct (Manager.tasks m !! t) as [task|] eqn:Hlook; [|exact Hinv].
  destruct (Task.phase task) as [|providers|] eqn:Hphase; try exact Hinv.
  assert (forall v, v <> InProgress ->
            manager_inv (task_next m t task (Some v) Finished)) as Hfin.
  { intros v Hv. apply task_next_inv; [exact Hinv|exact Hlook|].
    intros subject Hsub (Hd & Hprov & subject' & Hsub' & Hstop & Hrest).
    rewrite Hphase in Hrest. destruct Hrest as (Hval & Hnot & Hprom).
    split; [exact Hd|]. split; [exact Hprov|].
    eexists. simpl. rewrite Hd, list_lookup_alter_eq, Hsub'. simpl.
    rewrite (next_running _ _ Hstop Hnot). split; [reflexivity|]. split; [reflexivity|].
    simpl. exists v. split; [exact Hv|]. split; [reflexivity|]. split; [reflexivity|].
    split; [eauto|]. intros error Herr. rewrite Hprom in Herr. discriminate. }
  destruct outcome; apply Hfin; discriminate.
Qed.

Lemma manager_inv_settle_providers m p outcome :
  manager_inv m -> manager_inv (settle_providers m p outcome).
Proof.
  intros Hinv. unfold settle_providers.
  destruct (Manager.promises m !! p) as [[|r]|] eqn:Hp; try exact Hinv.
  destruct Hinv as (Hlt & Hdep & Hprom & Htasks).
  assert (p = 0 /\ Manager.promises m = [Pending]) as [-> Hone].
  { destruct Hprom as [(_ & Hnil & _)|(_ & Hlen)].
    - rewrite Hnil, lookup_nil in Hp. discriminate.
    - destruct (Manager.promises m) as [|x [|y l]]; try discriminate.
      destruct p; [|rewrite lookup_cons, lookup_nil in Hp; discriminate].
      simpl in Hp. injection Hp as ->. auto. }
  unfold manager_inv, deployments. simpl.
  split; [exact Hlt|]. split; [exact Hdep|]. split.
  { right. rewrite length_insert. destruct Hprom as [(_ & Hnil & _)|(? & ?)]; [congruence|auto]. }
  intros t task Hlook. apply (task_ok_frame m); [reflexivity| |auto].
  intros r Hr. rewrite Hone in Hr. discriminate.
Qed.

Lemma manager_inv_step m e : manager_inv m -> manager_inv (manager_step m e).
Proof.
  destruct e; simpl.
  - apply manager_inv_resolve.
  - apply manager_inv_settle_providers.
  - apply manager_inv_resume_with_providers.
  - apply manager_inv_resume_with_api.
Qed.

Lemma manager_inv_run events : manager_inv (manager_run Manager.initial events).
Proof.
  induction events as [|e events IH] using rev_ind; [apply manager_inv_initial|].
  rewrite manager_run_snoc. apply manager_inv_step. exact IH.
Qed.

Lemma manager_inv_run_from m events : manager_inv m -> manager_inv (manager_run m events).
Proof.
  intros Hinv. induction events as [|e events IH] using rev_ind; [exact Hinv|].
  rewrite manager_run_snoc. apply manager_inv_step. exact IH.
Qed.

(** ** One bootstrap *)

Lemma find_all_false {A} (f : A -> bool) (l : list A) :
  (forall x, f x = false) -> List.find f l = None.
Proof. intros Hf. induction l as [|x l IH]; simpl; [reflexivity|]. rewrite Hf. exact IH. Qed.

(** After any number of [resolve] calls and nothing else, every deployment
    is in progress and every task awaits the one pending promise. *)
Lemma only_resolves addresses :
  let m := manager_run Manager.initial (map Resolve addresses) in
  length (Manager.tasks m) = length addresses /\
  Manager.promises m = match addresses with [] => [] | _ => [Pending] end /\
  (forall d subject, Manager.subjects m !! d = Some subject ->
                     BehaviorSubject.value subject = InProgress) /\
  (forall t task, Manager.tasks m !! t = Some task -> Task.phase task = AwaitingProviders).
Proof.
  induction addresses as [|a addresses IH] using rev_ind.
  - simpl. repeat split; intros ? ? E; rewrite lookup_nil in E; discriminate.
  - rewrite map_app. simpl map. cbv zeta. rewrite manager_run_snoc.
    set (m := manager_run Manager.initial (map Resolve addresses)) in *.
    cbv zeta in IH. destruct IH as (Hlen & Hprom & Hsubj & Htask).
    pose proof (manager_inv_run (map Resolve addresses)) as Hinv. fold m in Hinv.
    simpl. unfold resolve.
    rewrite find_all_false.
    2:{ intros d. unfold deployed_at. destruct (Manager.subjects m !! d) as [s|] eqn:E; [|reflexivity].
        rewrite (Hsubj d s E). reflexivity. }
    destruct (getProviders_inv m Hinv) as (m1 & E1 & Hs & Hds & Ht & Hip & Hl1 & Hmono & Hsame).
    rewrite E1. simpl. rewrite Ht, Hs, !length_app, Hlen. simpl.
    split; [reflexivity|]. split.
    { destruct addresses as [|a' addresses']; simpl.
      - unfold getProviders in E1.
        destruct Hinv as (_ & _ & [(Hnone & Hnil & _)|(_ & Hl)] & _).
        + rewrite Hnone, Hnil in E1. injection E1 as <-. reflexivity.
        + rewrite Hprom in Hl. discriminate.
      - rewrite Hsame; [exact Hprom|]. rewrite Hprom. discriminate. }
    split.
    + intros d subject E. apply lookup_snoc_Some in E as [[_ E]|[_ <-]]; [eauto|reflexivity].
    + intros t task E. apply lookup_snoc_Some in E as [[_ E]|[_ <-]]; [eauto|reflexivity].
Qed.

Lemma promises_one m :
  manager_inv m -> forall p x, Manager.promises m !! p = Some x -> p = 0.
Proof.
  intros (_ & _ & [(_ & Hnil & _)|(_ & Hlen)] & _) p x Hp.
  - rewrite Hnil, lookup_nil in Hp. discriminate.
  - apply lookup_lt_Some in Hp. lia.
Qed.

Lemma settled_step m e r :
  manager_inv m ->
  Manager.promises m !! 0 = Some (Settled r) ->
  Manager.promises (manager_step m e) = Manager.promises m.
Proof.
  intros Hinv Hr. destruct e as [a|p outcome|t|t outcome]; simpl.
  - unfold resolve. destruct (List.find _ _); [reflexivity|].
    destruct (getProviders_inv m Hinv) as (m1 & -> & _ & _ & _ & _ & _ & _ & Hsame).
    simpl. rewrite Hsame; [reflexivity|]. intros Hnil. rewrite Hnil in Hr. discriminate.
  - unfold settle_providers. destruct (Manager.promises m !! p) as [[|r']|] eqn:Hp; try reflexivity.
    rewrite (promises_one m Hinv p _ Hp) in Hp. congruence.
  - unfold resume_with_providers.
    destruct (Manager.tasks m !! t) as [task|]; [|reflexivity].
    destruct (Task.phase task); try reflexivity.
    destruct (Manager.promises m !! Task.providers task) as [[|[?|?]]|]; reflexivity.
  - unfold resume_with_api.
    destruct (Manager.tasks m !! t) as [task|]; [|reflexivity].
    destruct (Task.phase task); try reflexivity.
    destruct outcome; reflexivity.
Qed.

Lemma settled_run m events r :
  manager_inv m ->
  Manager.promises m !! 0 = Some (Settled r) ->
  Manager.promises (manager_run m events) = Manager.promises m.
Proof.
  intros Hinv Hr. induction events as [|e events IH] using rev_ind; [reflexivity|].
  rewrite manager_run_snoc.
  rewrite (settled_step _ e r); [exact IH|apply manager_inv_run_from; exact Hinv|].
  rewrite IH. exact Hr.
Qed.

Lemma getProviders_cached m :
  manager_inv m -> Manager.promises m <> [] -> getProviders m = (m, 0).
Proof.
  intros Hinv Hne. destruct (getProviders_inv m Hinv) as (m1 & E & _ & _ & _ & _ & _ & _ & Hsame).
  rewrite E, (Hsame Hne). reflexivity.
Qed.

(** C3.  First part: however many [resolve] calls arrive before the
    providers promise settles, [initializeProviders] has run once, and every
    one of the callers awaits the same, still pending, promise.  Second
    part, for every reachable state: [initializeProviders] has run at most
    once; every task holds the one promise; a task past its first [await]
    got the bundle that promise fulfilled with; and once the promise has
    fulfilled, [getProviders] returns it from the cache, in that state and in
    every later one. *)
Theorem providers_bootstrap_runs_once :
  (forall addresses,
     let m := manager_run Manager.initial (map Resolve addresses) in
     length (Manager.tasks m) = length addresses /\
     bootstraps m = match addresses with [] => 0 | _ => 1 end /\
     (forall t task,
        Manager.tasks m !! t = Some task ->
        Task.providers task = 0 /\ Task.phase task = AwaitingProviders /\
        Manager.promises m !! 0 = Some Pending))
  /\
  (forall events,
     let m := manager_run Manager.initial events in
     bootstraps m <= 1 /\
     (forall t task,
        Manager.tasks m !! t = Some task ->
        Task.providers task = 0 /\ bootstraps m = 1) /\
     (forall t task providers,
        Manager.tasks m !! t = Some task ->
        Task.phase task = AwaitingApi providers ->
        Manager.promises m !! 0 = Some (Settled (Js.Ok providers))) /\
     (forall providers later,
        Manager.promises m !! 0 = Some (Settled (Js.Ok providers)) ->
        let m' := manager_run m later in
        getProviders m' = (m', 0) /\
        Manager.promises m' = [Settled (Js.Ok providers)])).
Proof.
  split.
  - intros addresses m.
    destruct (only_resolves addresses) as (Hlen & Hprom & _ & Htask). fold m in Hlen, Hprom, Htask.
    split; [exact Hlen|]. split.
    { unfold bootstraps. rewrite Hprom. destruct addresses; reflexivity. }
    intros t task Hlook.
    destruct (manager_inv_run (map Resolve addresses)) as (_ & _ & _ & Hok). fold m in Hok.
    destruct (Hok t task Hlook) as (_ & Hprov & _).
    split; [exact Hprov|]. split; [eauto|].
    rewrite Hprom. destruct addresses; [|reflexivity].
    subst m. simpl in Hlook. rewrite lookup_nil in Hlook. discriminate.
  - intros events m.
    pose proof (manager_inv_run events) as Hinv. fold m in Hinv.
    destruct Hinv as (Hlt & Hdep & Hprom & Hok).
    split. { unfold bootstraps. destruct Hprom as [(_ & -> & _)|(_ & ->)]; simpl; lia. }
    split.
    { intros t task Hlook. destruct (Hok t task Hlook) as (_ & Hprov & _).
      split; [exact Hprov|]. unfold bootstraps.
      destruct Hprom as [(_ & _ & Hnil)|(_ & Hl)]; [|exact Hl].
      rewrite Hnil, lookup_nil in Hlook. discriminate. }
    split.
    { intros t task providers Hlook Hphase.
      destruct (Hok t task Hlook) as (_ & _ & subject & _ & _ & Hrest).
      rewrite Hphase in Hrest. apply Hrest. }
    intros providers later Hp m'.
    pose proof (manager_inv_run events) as Hinv. fold m in Hinv.
    pose proof (settled_run m later _ Hinv Hp) as Hsame. fold m' in Hsame.
    assert (Manager.promises m = [Settled (Js.Ok providers)]) as Hone.
    { destruct Hprom as [(_ & Hnil & _)|(_ & Hl)].
      - rewrite Hnil in Hp. discriminate.
      - destruct (Manager.promises m) as [|x [|y l]]; try discriminate.
        simpl in Hp. congruence. }
    split.
    + apply getProviders_cached.
      * apply manager_inv_run_from. exact Hinv.
      * rewrite Hsame, Hone. discriminate.
    + rewrite Hsame. exact Hone.
Qed.

Lemma providers_bootstrap_runs_once_witness :
  (let m := manager_run Manager.initial (map Resolve [None; Some "a"; None]) in
   length (Manager.tasks m) = 3 /\
   bootstraps m = 1 /\
   (forall t task,
      Manager.tasks m !! t = Some task ->
      Task.providers task = 0 /\ Task.phase task = AwaitingProviders /\
      Manager.promises m !! 0 = Some Pending))
  /\
  (let m := manager_run Manager.initial
              [Resolve None; ProvidersSettled 0 (Js.Ok sample_providers)] in
   let m' := manager_run m [Resolve (Some "a")] in
   getProviders m' = (m', 0) /\
   Manager.promises m' = [Settled (Js.Ok sample_providers)]).
Proof.
  split.
  - exact (proj1 providers_bootstrap_runs_once [None; Some "a"; None]).
  - destruct (proj2 providers_bootstrap_runs_once
                [Resolve None; ProvidersSettled 0 (Js.Ok sample_providers)])
      as (_ & _ & _ & Hcached).
    apply (Hcached sample_providers [Resolve (Some "a")]). reflexivity.
Defined.

(** ** The life of a deployment *)

Lemma value_next {A} (subject : BehaviorSubject.t A) (v : A) :
  BehaviorSubject.value (BehaviorSubject.next subject v) = v.
Proof. unfold BehaviorSubject.next. destruct (BehaviorSubject.isStopped subject); reflexivity. Qed.

Lemma status_task_next_other m t task v p d :
  d <> Task.deployment task ->
  status (task_next m t task v p) d = status m d.
Proof.
  intros Hne. unfold status, task_next. simpl. destruct v; [|reflexivity].
  rewrite list_lookup_alter_ne by congruence. reflexivity.
Qed.

Lemma status_task_next_same m t task v p subject :
  Manager.subjects m !! Task.deployment task = Some subject ->
  status (task_next m t task (Some v) p) (Task.deployment task) = Some v.
Proof.
  intros Hsub. unfold status, task_next. simpl.
  rewrite list_lookup_alter_eq, Hsub. simpl. rewrite value_next. reflexivity.
Qed.

Lemma status_in_progress m t task :
  task_ok m t task ->
  Task.phase task <> Finished ->
  status m t = Some InProgress.
Proof.
  intros (_ & _ & subject & Hsub & _ & Hrest) Hphase. unfold status. rewrite Hsub. simpl.
  destruct (Task.phase task); [destruct Hrest as [-> _]|destruct Hrest as [-> _]|congruence];
    reflexivity.
Qed.

(** A deployment that has left [in-progress] keeps its value. *)
Lemma status_final_step m e d v :
  manager_inv m ->
  status m d = Some v -> v <> InProgress ->
  status (manager_step m e) d = Some v.
Proof.
  intros Hinv Hst Hv.
  assert (forall t task, Manager.tasks m !! t = Some task ->
                         Task.phase task <> Finished -> d <> Task.deployment task) as Hother.
  { intros t task Hlook Hphase ->.
    destruct Hinv as (_ & _ & _ & Hok). pose proof (Hok t task Hlook) as Htask.
    destruct Htask as (Hd & Hrest). rewrite Hd in Hst.
    rewrite (status_in_progress m t task (Hok t task Hlook) Hphase) in Hst. congruence. }
  destruct e as [a|p outcome|t|t outcome]; simpl.
  - unfold resolve. destruct (List.find _ _); [exact Hst|].
    destruct (getProviders_inv m Hinv) as (m1 & -> & Hs & _).
    unfold status in *. simpl. rewrite Hs.
    destruct (Manager.subjects m !! d) as [s|] eqn:E; [|discriminate].
    rewrite (lookup_app_l_Some _ _ _ _ E). exact Hst.
  - unfold settle_providers. destruct (Manager.promises m !! p) as [[|r]|]; exact Hst.
  - unfold resume_with_providers.
    destruct (Manager.tasks m !! t) as [task|] eqn:Hlook; [|exact Hst].
    destruct (Task.phase task) eqn:Hphase; try exact Hst.
    destruct (Manager.promises m !! Task.providers task) as [[|[?|?]]|]; try exact Hst;
      rewrite status_task_next_other; auto; apply (Hother t task Hlook); congruence.
  - unfold resume_with_api.
    destruct (Manager.tasks m !! t) as [task|] eqn:Hlook; [|exact Hst].
    destruct (Task.phase task) eqn:Hphase; try exact Hst.
    destruct outcome; rewrite status_task_next_other; auto;
      apply (Hother t task Hlook); congruence.
Qed.

Lemma status_final_run m events d v :
  manager_inv m ->
  status m d = Some v -> v <> InProgress ->
  status (manager_run m events) d = Some v.
Proof.
  intros Hinv Hst Hv. induction events as [|e events IH] using rev_ind; [exact Hst|].
  rewrite manager_run_snoc. apply status_final_step; auto.
  apply manager_inv_run_from. exact Hinv.
Qed.


Lemma resume_with_providers_status m t task error :
  manager_inv m ->
  Manager.tasks m !! t = Some task ->
  Task.phase task = AwaitingProviders ->
  Manager.promises m !! 0 = Some (Settled (Js.Throw error)) ->
  status (resume_with_providers m t) t = Some (Failed (normalize_error error)).
Proof.
  intros (_ & _ & _ & Hok) Hlook Hphase Hprom.
  destruct (Hok t task Hlook) as (Hd & Hprov & subject & Hsub & _).
  unfold resume_with_providers. rewrite Hlook, Hphase, Hprov, Hprom. rewrite <- Hd in Hsub.
  rewrite <- Hd at 2. apply (status_task_next_same _ _ _ _ _ subject Hsub).
Qed.



(** ** A rejected providers promise *)

(** C8, as the code has it.  Once the providers promise has rejected, it
    stays the cached promise for good: in every later state
    [initializeProviders] has still run exactly once, [getProviders] returns
    the same rejected promise, and every task has failed with the rejection
    or fails with it as soon as it is resumed. *)
Theorem rejected_providers_promise_is_final events later error :
  let m := manager_run Manager.initial events in
  Manager.promises m !! 0 = Some (Settled (Js.Throw error)) ->
  let m' := manager_run m later in
  bootstraps m' = 1 /\
  getProviders m' = (m', 0) /\
  Manager.promises m' = [Settled (Js.Throw error)] /\
  (forall t task,
     Manager.tasks m' !! t = Some task ->
     (Task.phase task = AwaitingProviders /\
      status (manager_step m' (TaskResumed t)) t = Some (Failed (normalize_error error)))
     \/
     (Task.phase task = Finished /\
      status m' t = Some (Failed (normalize_error error)))).
Proof.
  intros m Hp m'.
  pose proof (manager_inv_run events) as Hinv. fold m in Hinv.
  pose proof (manager_inv_run_from m later Hinv) as Hinv'. fold m' in Hinv'.
  pose proof (settled_run m later _ Hinv Hp) as Hsame. fold m' in Hsame.
  assert (Manager.promises m = [Settled (Js.Throw error)]) as Hone.
  { destruct Hinv as (_ & _ & [(_ & Hnil & _)|(_ & Hl)] & _).
    - rewrite Hnil in Hp. discriminate.
    - destruct (Manager.promises m) as [|x [|y l]]; try discriminate.
      simpl in Hp. congruence. }
  rewrite Hone in Hsame.
  split; [unfold bootstraps; rewrite Hsame; reflexivity|].
  split; [apply getProviders_cached; [exact Hinv'|rewrite Hsame; discriminate]|].
  split; [exact Hsame|].
  intros t task Hlook.
  assert (Manager.promises m' !! 0 = Some (Settled (Js.Throw error))) as Hp'.
  { rewrite Hsame. reflexivity. }
  pose proof Hinv' as (_ & _ & _ & Hok).
  destruct (Hok t task Hlook) as (_ & _ & subject & Hsub & _ & Hrest).
  destruct (Task.phase task) eqn:Hphase.
  - left. split; [reflexivity|].
    apply (resume_with_providers_status m' t task error Hinv' Hlook Hphase Hp').
  - destruct Hrest as (_ & _ & Hok'). rewrite Hp' in Hok'. discriminate.
  - right. split; [reflexivity|].
    destruct Hrest as (v & _ & Hval & _ & _ & Hfail).
    unfold status. rewrite Hsub. simpl. rewrite Hval, (Hfail error Hp'). reflexivity.
Qed.

(** C8, as the claim states it, fails: after the bootstrap has rejected, a
    second [resolve] starts no new bootstrap; it is handed the same rejected
    promise and its deployment fails with the same error. *)
Lemma failed_bootstrap_is_not_retried :
  let m := manager_run Manager.initial
             [ Resolve None; ProvidersSettled 0 (Js.Throw not_authorized); TaskResumed 0;
               Resolve None; TaskResumed 1 ] in
  bootstraps m = 1 /\
  getProviders m = (m, 0) /\
  Manager.promises m = [Settled (Js.Throw not_authorized)] /\
  status m 0 = Some (Failed (Js.mkError "Application is not authorized")) /\
  status m 1 = Some (Failed (Js.mkError "Application is not authorized")).
Proof. repeat split. Qed.

Lemma rejected_providers_promise_is_final_witness :
  let m := manager_run Manager.initial [Resolve None; ProvidersSettled 0 (Js.Throw not_authorized)] in
  let m' := manager_run m [TaskResumed 0; Resolve None] in
  bootstraps m' = 1 /\
  getProviders m' = (m', 0) /\
  Manager.promises m' = [Settled (Js.Throw not_authorized)] /\
  (forall t task,
     Manager.tasks m' !! t = Some task ->
     (Task.phase task = AwaitingProviders /\
      status (manager_step m' (TaskResumed t)) t = Some (Failed (normalize_error not_authorized)))
     \/
     (Task.phase task = Finished /\
      status m' t = Some (Failed (normalize_error not_authorized)))).
Proof.
  apply (rejected_providers_promise_is_final
           [Resolve None; ProvidersSettled 0 (Js.Throw not_authorized)]
           [TaskResumed 0; Resolve None] not_authorized).
  reflexivity.
Defined.

(** ** Resolving an address that is already deployed *)

Lemma find_seq (f : nat -> bool) n a d :
  a <= d < a + n -> f d = true ->
  exists d', List.find f (seq a n) = Some d' /\
             a <= d' <= d /\ f d' = true /\
             (forall k, a <= k < d' -> f k = false).
Proof.
  revert a. induction n as [|n IH]; intros a Hd Hf; [lia|].
  simpl. destruct (f a) eqn:Ea.
  - exists a. repeat split; auto; lia.
  - destruct (IH (S a)) as (d' & Hfind & Hle & Hfd' & Hmin).
    + destruct (Nat.eq_dec a d) as [->|]; [congruence|lia].
    + exact Hf.
    + exists d'. repeat split; auto; try lia.
      intros k Hk. destruct (Nat.eq_dec k a) as [->|]; [exact Ea|apply Hmin; lia].
Qed.

Lemma deployed_at_status m address d :
  deployed_at m (Some address) d = true <->
  exists api, status m d = Some (Deployed api) /\ InvoiceAPI.deployedContractAddress api = address.
Proof.
  unfold deployed_at, status.
  destruct (Manager.subjects m !! d) as [subject|]; simpl.
  - destruct (BehaviorSubject.value subject) as [|api|error].
    + split; [discriminate|intros (api & [=] & _)].
    + rewrite bool_decide_eq_true. split.
      * intros [= <-]. eauto.
      * intros (api' & [= <-] & <-). reflexivity.
    + split; [discriminate|intros (api & [=] & _)].
  - split; [discriminate|intros (api & [=] & _)].
Qed.

(** C2, as the code has it.  Once some deployment for an address is
    deployed, every later [resolve] of that address changes nothing and
    returns an entry of the registry that is deployed at that address: the
    first such in registry order.  It is the same one as before unless an
    older entry for the address has been deployed in the meantime. *)
Theorem resolve_returns_deployed_entry events later address d api :
  let m := manager_run Manager.initial events in
  status m d = Some (Deployed api) ->
  InvoiceAPI.deployedContractAddress api = address ->
  let m' := manager_run m later in
  exists d' api',
    resolve (Some address) m' = (m', d') /\
    In d' (deployments m') /\
    status m' d' = Some (Deployed api') /\
    InvoiceAPI.deployedContractAddress api' = address /\
    d' <= d /\
    ((forall k, k < d -> deployed_at m' (Some address) k = false) -> d' = d).
Proof.
  intros m Hst Haddr m'.
  pose proof (manager_inv_run events) as Hinv. fold m in Hinv.
  pose proof (manager_inv_run_from m later Hinv) as Hinv'. fold m' in Hinv'.
  assert (status m' d = Some (Deployed api)) as Hst'.
  { apply status_final_run; [exact Hinv|exact Hst|discriminate]. }
  assert (deployed_at m' (Some address) d = true) as Hd.
  { apply deployed_at_status. eauto. }
  assert (d < length (Manager.subjects m')) as Hlt.
  { unfold status in Hst'. destruct (Manager.subjects m' !! d) eqn:E; [|discriminate].
    apply lookup_lt_Some in E. exact E. }
  destruct Hinv' as (_ & Hdep & _ & _).
  destruct (find_seq (deployed_at m' (Some address)) (length (Manager.subjects m')) 0 d)
    as (d' & Hfind & Hle & Hd' & Hmin); [lia|exact Hd|].
  apply deployed_at_status in Hd' as Hapi. destruct Hapi as (api' & Hst'' & Haddr').
  exists d', api'.
  split. { unfold resolve. unfold deployments in Hdep. rewrite Hdep, Hfind. reflexivity. }
  split. { rewrite Hdep. apply in_seq. lia. }
  split; [exact Hst''|]. split; [exact Haddr'|]. split; [lia|].
  intros Hnone. destruct (Nat.eq_dec d' d) as [|Hne]; [assumption|].
  rewrite Hnone in Hd' by lia. discriminate.
Qed.

Lemma resolve_returns_deployed_entry_witness :
  let m := manager_run Manager.initial (two_joins ++ [ApiSettled 1 (Js.Ok sample_api)]) in
  let m' := manager_run m [Resolve None] in
  exists d' api',
    resolve (Some "a") m' = (m', d') /\
    In d' (deployments m') /\
    status m' d' = Some (Deployed api') /\
    InvoiceAPI.deployedContractAddress api' = "a" /\
    d' <= 1 /\
    ((forall k, k < 1 -> deployed_at m' (Some "a") k = false) -> d' = 1).
Proof.
  apply (resolve_returns_deployed_entry
           (two_joins ++ [ApiSettled 1 (Js.Ok sample_api)]) [Resolve None] "a" 1 sample_api);
    reflexivity.
Defined.

(** C2, as the claim states it, fails.  Two [resolve] calls for one address
    made before the first has finished give two entries, and both end up
    deployed at that address.  If the younger one is deployed first,
    [resolve] returns it; once the older one is deployed too, [resolve]
    returns the older one. *)
Lemma two_deployments_for_one_address :
  let m1 := manager_run Manager.initial (two_joins ++ [ApiSettled 1 (Js.Ok sample_api)]) in
  let m2 := manager_step m1 (ApiSettled 0 (Js.Ok sample_api)) in
  deployments m2 = [0; 1] /\
  deployed_addresses m2 = ["a"; "a"] /\
  snd (resolve (Some "a") m1) = 1 /\
  snd (resolve (Some "a") m2) = 0.
Proof. repeat split. Qed.

(** ** Connecting to the wallet *)

Lemma discover_incompatible `{Semver} n connectorAPI more :
  semver_satisfies (DAppConnectorAPI.apiVersion connectorAPI) COMPATIBLE_CONNECTOR_API_VERSION = false ->
  discover (repeat None n ++ Some connectorAPI :: more)
  = (repeat (Log (LogInfo "Check for wallet connector API")) (S n)
       ++ [Log (LogError "Incompatible version of wallet connector API")],
     Failure (Js.VError (Js.mkError (incompatible_message (DAppConnectorAPI.apiVersion connectorAPI))))).
Proof.
  intros Hbad. induction n as [|n IH]; simpl.
  - rewrite Hbad. reflexivity.
  - rewrite IH. reflexivity.
Qed.

Lemma calls_app method eff1 eff2 :
  calls method (eff1 ++ eff2) = calls method eff1 + calls method eff2.
Proof. unfold calls. rewrite List.filter_app, length_app. reflexivity. Qed.

Lemma calls_cons_log method entry eff : calls method (Log entry :: eff) = calls method eff.
Proof. destruct method; reflexivity. Qed.

Lemma calls_repeat_log method entry n : calls method (repeat (Log entry) n) = 0.
Proof. induction n as [|n IH]; [reflexivity|]. destruct method; exact IH. Qed.

(** C6 on the code.  A connector whose version does not satisfy the
    required range is detected, and [enable()] is not called; but the error
    raised for it passes through the [catchError] placed after [enable()],
    which replaces every truthy error.  [connectToWallet] therefore rejects
    with the same error as when [enable()] itself refuses. *)
Theorem incompatible_version_reported_as_not_authorized `{Semver} n connectorAPI more later :
  semver_satisfies (DAppConnectorAPI.apiVersion connectorAPI) COMPATIBLE_CONNECTOR_API_VERSION = false ->
  let outcome := connectToWallet ((repeat None n ++ Some connectorAPI :: more) :: later) in
  snd outcome = Settled (Js.Throw not_authorized) /\
  calls enable_ (fst outcome) = 0 /\
  In (Log (LogError "Incompatible version of wallet connector API")) (fst outcome) /\
  (forall compatible refusal,
     semver_satisfies (DAppConnectorAPI.apiVersion compatible) COMPATIBLE_CONNECTOR_API_VERSION = true ->
     DAppConnectorAPI.isEnabled compatible = Resolves true ->
     DAppConnectorAPI.enable compatible = Rejects refusal ->
     Js.is_truthy refusal = true ->
     snd (connectToWallet [[Some compatible]]) = snd outcome).
Proof.
  intros Hbad outcome. subst outcome.
  unfold connectToWallet. simpl attempts. unfold attempt.
  rewrite (discover_incompatible n connectorAPI more Hbad). simpl.
  split; [reflexivity|]. split.
  { rewrite calls_cons_log, !calls_app, calls_repeat_log. reflexivity. }
  split.
  { right. apply in_or_app. left. apply in_or_app. right. left. reflexivity. }
  intros compatible refusal Hok Hen Hrej Htruthy.
  unfold attempt. simpl. rewrite Hok. simpl. rewrite Hen. simpl. rewrite Hrej. simpl.
  rewrite Htruthy. reflexivity.
Qed.

Lemma incompatible_version_reported_as_not_authorized_witness :
  let outcome := @connectToWallet major_x_semver [[None; Some (sample_connector "2.0.0")]] in
  snd outcome = Settled (Js.Throw not_authorized) /\
  calls enable_ (fst outcome) = 0 /\
  In (Log (LogError "Incompatible version of wallet connector API")) (fst outcome) /\
  (forall compatible refusal,
     @semver_satisfies major_x_semver (DAppConnectorAPI.apiVersion compatible)
       COMPATIBLE_CONNECTOR_API_VERSION = true ->
     DAppConnectorAPI.isEnabled compatible = Resolves true ->
     DAppConnectorAPI.enable compatible = Rejects refusal ->
     Js.is_truthy refusal = true ->
     snd (@connectToWallet major_x_semver [[Some compatible]]) = snd outcome).
Proof.
  apply (@incompatible_version_reported_as_not_authorized major_x_semver 1
           (sample_connector "2.0.0") [] []).
  reflexivity.
Defined.

(** ** Worked examples *)

(** A text cut off inside a string is rejected. *)
Example parse_truncated : JSON.parse truncated_json = None.
Proof. reflexivity. Qed.

(** A [\uXXXX] escape stands for its code unit, whatever it is; and the
    text [stringify] makes of a string with such a code unit holds it as it
    is. *)
Example parse_unicode_escape :
  JSON.parse (code "{" :: JSON.dquote :: js "title" ++ JSON.dquote :: code ":" :: JSON.dquote
                :: js "\u3042" ++ JSON.dquote :: js "}")
  = Some (JSON.JObject [(js "title", JSON.JString [12354%N])])
  /\ JSON.stringify (JSON.JString [12354%N]) = [JSON.dquote; 12354%N; JSON.dquote].
Proof. split; reflexivity. Qed.

(** The members of a parsed object come in the order JavaScript
    enumerates them, and a repeated key takes the later value. *)
Example parse_key_order :
  JSON.parse (code "{" :: JSON.dquote :: js "b" ++ JSON.dquote :: js ":null,"
                ++ JSON.dquote :: js "2" ++ JSON.dquote :: js ":true,"
                ++ JSON.dquote :: js "1" ++ JSON.dquote :: js ":false,"
                ++ JSON.dquote :: js "b" ++ JSON.dquote :: js ":true}")
  = Some (JSON.JObject [(js "1", JSON.JBool false); (js "2", JSON.JBool true);
                        (js "b", JSON.JBool true)]).
Proof. reflexivity. Qed.

(** Well-formed JSON of another shape is accepted: the adapter's cast to
    [InvoiceData] does not look at it. *)
Example parse_other_shape :
  JSON.parse "[1]" = Some (JSON.JArray [JSON.JNumber "1"]).
Proof. reflexivity. Qed.

(** Two operations in flight: the history follows the order in which they
    are finalized, not the order in which they were called. *)
Example history_follows_completion_order :
  map TransactionHistoryEntry.type
      (history (@run sample_circuits (start "addr" true (Some sample_secret))
                  [ InvokeIssueInvoice 100%Z sample_invoice; InvokePayInvoice;
                    CallSettled 1 (Js.Ok (sample_tx "h2" 8%Z)) 2000%Z;
                    CallSettled 0 (Js.Ok (sample_tx "h1" 9%Z)) 3000%Z ]))
  = [payment; issue].
Proof. reflexivity. Qed.

(** A compatible connector that answers: the bundle is assembled, with
    [enable()] called once. *)
Example bootstrap_succeeds :
  let outcome := @initializeProviders major_x_semver [[None; Some (sample_connector "1.4.2")]]
                   "http://localhost" in
  snd outcome = Settled (Js.Ok sample_providers) /\ calls enable_ (fst outcome) = 1.
Proof. split; reflexivity. Qed.

(** No connector before the first deadline: the not-found error is raised,
    and replaced like every other. *)
Example connector_not_found :
  let outcome := @connectToWallet major_x_semver [[None; None; None]] in
  snd outcome = Settled (Js.Throw not_authorized) /\
  In (Log (LogError "Could not find wallet connector API")) (fst outcome) /\
  calls isEnabled_ (fst outcome) = 0.
Proof. repeat split. simpl. auto 10. Qed.

(** * Further properties of the code *)

(** ** The registry's published arrays *)

Lemma task_next_published m t task v p :
  Manager.invoiceDeploymentsSubject (task_next m t task v p) = Manager.invoiceDeploymentsSubject m /\
  length (Manager.subjects (task_next m t task v p)) = length (Manager.subjects m).
Proof.
  unfold task_next. simpl. split; [reflexivity|].
  destruct v; [apply length_alter|reflexivity].
Qed.

Lemma published_step m e :
  manager_inv m -> published_ok m -> published_ok (manager_step m e).
Proof.
  intros Hinv [Hstop Hnot]. unfold published_ok.
  destruct e as [a|p outcome|t|t outcome]; simpl.
  - unfold resolve. destruct (List.find _ _); [split; assumption|].
    destruct (getProviders_inv m Hinv) as (m1 & -> & Hs & Hds & _).
    destruct Hinv as (_ & Hdep & _). unfold deployments in Hdep.
    simpl. rewrite Hs, Hds. unfold BehaviorSubject.next. rewrite Hstop. simpl.
    split; [reflexivity|].
    rewrite Hnot, Hdep, length_app. simpl.
    f_equal. rewrite Nat.add_1_r, seq_S, map_app. f_equal.
    cbn [map Nat.add]. rewrite seq_S. reflexivity.
  - unfold settle_providers. destruct (Manager.promises m !! p) as [[|r]|]; split; assumption.
  - unfold resume_with_providers.
    destruct (Manager.tasks m !! t) as [task|]; [|split; assumption].
    destruct (Task.phase task); try (split; assumption).
    destruct (Manager.promises m !! Task.providers task) as [[|[?|?]]|];
      try (split; assumption);
      match goal with |- context [task_next ?m ?t ?k ?v ?p] =>
        destruct (task_next_published m t k v p) as [-> ->] end; split; assumption.
  - unfold resume_with_api.
    destruct (Manager.tasks m !! t) as [task|]; [|split; assumption].
    destruct (Task.phase task); try (split; assumption).
    destruct outcome;
      match goal with |- context [task_next ?m ?t ?k ?v ?p] =>
        destruct (task_next_published m t k v p) as [-> ->] end; split; assumption.
Qed.

Lemma published_run events : published_ok (manager_run Manager.initial events).
Proof.
  induction events as [|e events IH] using rev_ind; [split; reflexivity|].
  rewrite manager_run_snoc. apply published_step; [apply manager_inv_run|exact IH].
Qed.

(** X1.  The arrays [invoiceDeployments$] has published, from the first:
    the empty array, then one array per deployment created, each the
    previous one with the new deployment added at its end.  Nothing is ever
    removed or moved, the stream is never errored or completed, and the
    last array published is the registry's current one. *)
Theorem published_arrays_grow_by_one events :
  let m := manager_run Manager.initial events in
  let published := BehaviorSubject.notified (Manager.invoiceDeploymentsSubject m) in
  BehaviorSubject.isStopped (Manager.invoiceDeploymentsSubject m) = false /\
  published = map (fun n => Next (seq 0 n)) (seq 0 (S (length (Manager.subjects m)))) /\
  (forall i earlier later,
     published !! i = Some (Next earlier) ->
     published !! S i = Some (Next later) ->
     later = earlier ++ [length earlier]) /\
  last published = Some (Next (deployments m)).
Proof.
  intros m published.
  destruct (published_run events) as [Hstop Hnot]. fold m in Hstop, Hnot. fold published in Hnot.
  split; [exact Hstop|]. split; [exact Hnot|]. split.
  - intros i earlier later Hi Hsi. rewrite Hnot in Hi, Hsi.
    rewrite list_lookup_fmap in Hi, Hsi.
    destruct (seq 0 (S (length (Manager.subjects m))) !! i) as [a|] eqn:Ea; [|discriminate].
    destruct (seq 0 (S (length (Manager.subjects m))) !! S i) as [b|] eqn:Eb; [|discriminate].
    apply lookup_seq in Ea as [-> _]. apply lookup_seq in Eb as [-> _].
    simpl in Hi, Hsi. injection Hi as <-. injection Hsi as <-.
    rewrite length_seq. simpl. apply (seq_S i 0).
  - rewrite Hnot. rewrite seq_S, map_app. cbn [map]. rewrite last_snoc. simpl.
    destruct (manager_inv_run events) as (_ & Hdep & _). fold m in Hdep. rewrite Hdep. reflexivity.
Qed.

(** ** Requests that are never merged, and deployments that do not touch
    one another *)

Lemma deployed_at_undefined m d : deployed_at m None d = false.
Proof.
  unfold deployed_at. destruct (Manager.subjects m !! d) as [subject|]; [|reflexivity].
  destruct (BehaviorSubject.value subject); reflexivity.
Qed.

(** X2.  [resolve()] without an address never returns an existing
    deployment: in every state it creates a new subject in progress, adds it
    at the end of the registry, leaves the others as they are, and starts
    a deploy task for it that awaits the one providers promise. *)
Theorem resolve_without_address_always_deploys events :
  let m := manager_run Manager.initial events in
  let m' := fst (resolve None m) in
  let d := snd (resolve None m) in
  d = length (Manager.subjects m) /\
  deployments m' = deployments m ++ [d] /\
  Manager.subjects m' = Manager.subjects m ++ [BehaviorSubject.create InProgress] /\
  Manager.tasks m' =
    Manager.tasks m ++
      [ {| Task.deployment := d; Task.kind := DeployTask;
           Task.providers := 0; Task.phase := AwaitingProviders |} ].
Proof.
  intros m m' d. subst m' d. unfold resolve.
  rewrite (find_all_false _ _ (deployed_at_undefined m)).
  pose proof (manager_inv_run events) as Hinv. fold m in Hinv.
  destruct (getProviders_inv m Hinv) as (m1 & -> & Hs & Hds & Ht & _).
  simpl. rewrite Hs, Hds, Ht. unfold deployments. simpl. rewrite value_next. auto.
Qed.

Lemma task_next_other_subject m t task v p d :
  d <> Task.deployment task ->
  Manager.subjects (task_next m t task v p) !! d = Manager.subjects m !! d.
Proof.
  intros Hne. unfold task_next. simpl. destruct v; [|reflexivity].
  apply list_lookup_alter_ne. congruence.
Qed.

(** X3.  Deployments are independent.  The only events that change what a
    deployment's subject holds and has sent are the two continuations of
    its own task; a [resolve], the settling of the providers promise, and
    the continuations of other tasks leave it exactly as it was. *)
Theorem deployments_are_independent events e d subject :
  let m := manager_run Manager.initial events in
  Manager.subjects m !! d = Some subject ->
  e <> TaskResumed d ->
  (forall outcome, e <> ApiSettled d outcome) ->
  Manager.subjects (manager_step m e) !! d = Some subject.
Proof.
  intros m Hsub Hres Hapi.
  pose proof (manager_inv_run events) as Hinv. fold m in Hinv.
  assert (forall t task, Manager.tasks m !! t = Some task -> Task.deployment task = t) as Hdep.
  { intros t task Hlook. destruct Hinv as (_ & _ & _ & Hok). destruct (Hok t task Hlook) as [Hd _].
    exact Hd. }
  destruct e as [a|p outcome|t|t outcome]; simpl.
  - unfold resolve. destruct (List.find _ _); [exact Hsub|].
    destruct (getProviders_inv m Hinv) as (m1 & -> & Hs & _). simpl. rewrite Hs.
    apply lookup_app_l_Some. exact Hsub.
  - unfold settle_providers. destruct (Manager.promises m !! p) as [[|r]|]; exact Hsub.
  - assert (t <> d) as Hne by congruence.
    unfold resume_with_providers.
    destruct (Manager.tasks m !! t) as [task|] eqn:Hlook; [|exact Hsub].
    destruct (Task.phase task); try exact Hsub.
    destruct (Manager.promises m !! Task.providers task) as [[|[?|?]]|]; try exact Hsub;
      rewrite task_next_other_subject; auto; rewrite (Hdep t task Hlook); congruence.
  - assert (t <> d) as Hne by (intros ->; apply (Hapi outcome); reflexivity).
    unfold resume_with_api.
    destruct (Manager.tasks m !! t) as [task|] eqn:Hlook; [|exact Hsub].
    destruct (Task.phase task); try exact Hsub.
    destruct outcome; rewrite task_next_other_subject; auto;
      rewrite (Hdep t task Hlook); congruence.
Qed.

Lemma deployments_are_independent_witness :
  let m := manager_run Manager.initial two_joins in
  Manager.subjects (manager_step m (ApiSettled 1 (Js.Throw not_authorized))) !! 0
  = Some (BehaviorSubject.create InProgress).
Proof.
  apply (deployments_are_independent two_joins (ApiSettled 1 (Js.Throw not_authorized)) 0).
  - reflexivity.
  - discriminate.
  - intros outcome. discriminate.
Defined.

(** ** More on [connectToWallet] *)

Lemma calls_nil method : calls method [] = 0.
Proof. reflexivity. Qed.

Lemma discover_spec `{Semver} ticks :
  discover ticks
  = (repeat (Log (LogInfo "Check for wallet connector API")) (waited ticks)
       ++ match first_connector ticks with
          | None => []
          | Some c =>
              if compatible c
              then [Log (LogInfo "Compatible wallet connector API found. Connecting.")]
              else [Log (LogError "Incompatible version of wallet connector API")]
          end,
     match first_connector ticks with
     | None => Silent
     | Some c =>
         if compatible c then Value c
         else Failure (Js.VError (Js.mkError (incompatible_message (DAppConnectorAPI.apiVersion c))))
     end).
Proof.
  induction ticks as [|[c|] ticks IH].
  - reflexivity.
  - unfold compatible. simpl. destruct (semver_satisfies _ _); reflexivity.
  - simpl. rewrite IH. reflexivity.
Qed.

Lemma attempt_value `{Semver} ticks w c :
  snd (attempt ticks) = Value (w, c) ->
  first_connector ticks = Some c /\
  compatible c = true /\
  (exists b, DAppConnectorAPI.isEnabled c = Resolves b) /\
  DAppConnectorAPI.enable c = Resolves w.
Proof.
  unfold attempt. rewrite discover_spec.
  destruct (first_connector ticks) as [c0|]; [|discriminate].
  destruct (compatible c0) eqn:Ecompat; [|discriminate]. simpl.
  destruct (DAppConnectorAPI.isEnabled c0) as [b|v|] eqn:Een; simpl; try discriminate.
  destruct (DAppConnectorAPI.enable c0) as [w0|v|] eqn:Eenable; simpl; try discriminate.
  intros [= <- <-]. eauto.
Qed.

Lemma attempts_value `{Semver} subscriptions w c :
  snd (attempts subscriptions) = Value (w, c) ->
  exists ticks,
    In ticks subscriptions /\
    first_connector ticks = Some c /\
    compatible c = true /\
    (exists b, DAppConnectorAPI.isEnabled c = Resolves b) /\
    DAppConnectorAPI.enable c = Resolves w.
Proof.
  induction subscriptions as [|ticks later IH]; [discriminate|].
  simpl. destruct (attempt ticks) as [eff [[w0 c0]|v|]] eqn:E.
  - simpl. intros [= <- <-]. exists ticks. split; [left; reflexivity|].
    apply attempt_value. rewrite E. reflexivity.
  - destruct (Js.is_truthy v); [discriminate|].
    destruct (attempts later) as [eff' r]. simpl in *. intros Hr.
    destruct (IH Hr) as (ticks' & Hin & Hrest). exists ticks'. split; [right; exact Hin|exact Hrest].
  - discriminate.
Qed.

Lemma attempts_failure `{Semver} subscriptions v :
  snd (attempts subscriptions) = Failure v -> v = not_authorized.
Proof.
  induction subscriptions as [|ticks later IH]; [discriminate|].
  simpl. destruct (attempt ticks) as [eff [[w0 c0]|v0|]]; try discriminate.
  destruct (Js.is_truthy v0).
  - simpl. intros [= <-]. reflexivity.
  - destruct (attempts later) as [eff' r]. exact IH.
Qed.

Lemma connectToWallet_snd `{Semver} subscriptions :
  snd (connectToWallet subscriptions)
  = match snd (attempts subscriptions) with
    | Value (w, c) =>
        match DAppConnectorAPI.serviceUriConfig c with
        | Resolves uris => Settled (Js.Ok (w, uris))
        | Rejects v => Settled (Js.Throw v)
        | NeverSettles => Pending
        end
    | Failure v => Settled (Js.Throw v)
    | Silent => Pending
    end.
Proof.
  unfold connectToWallet. destruct (attempts subscriptions) as [eff [[w c]|v|]]; simpl;
    try reflexivity.
  destruct (DAppConnectorAPI.serviceUriConfig c); reflexivity.
Qed.

(** X4.  [connectToWallet] fulfils only through a connector that was the
    first to show in one of its subscriptions, whose version satisfies the
    required range, whose [isEnabled()] answered in time, whose [enable()]
    gave the wallet returned and whose [serviceUriConfig()] gave the
    endpoints returned. *)
Theorem connected_wallet_comes_from_compatible_connector `{Semver} subscriptions wallet uris :
  snd (connectToWallet subscriptions) = Settled (Js.Ok (wallet, uris)) ->
  exists ticks connectorAPI isEnabled,
    In ticks subscriptions /\
    first_connector ticks = Some connectorAPI /\
    compatible connectorAPI = true /\
    DAppConnectorAPI.isEnabled connectorAPI = Resolves isEnabled /\
    DAppConnectorAPI.enable connectorAPI = Resolves wallet /\
    DAppConnectorAPI.serviceUriConfig connectorAPI = Resolves uris.
Proof.
  rewrite connectToWallet_snd.
  destruct (snd (attempts subscriptions)) as [[w c]|v|] eqn:E; try discriminate.
  destruct (DAppConnectorAPI.serviceUriConfig c) as [u|v|] eqn:Euris; try discriminate.
  intros [= <- <-].
  destruct (attempts_value _ _ _ E) as (ticks & Hin & Hfirst & Hcompat & [b Hen] & Henable).
  exists ticks, c, b. auto 10.
Qed.

Lemma connected_wallet_comes_from_compatible_connector_witness :
  exists ticks connectorAPI isEnabled,
    In ticks [[None; Some (sample_connector "1.4.2")]] /\
    first_connector ticks = Some connectorAPI /\
    @compatible major_x_semver connectorAPI = true /\
    DAppConnectorAPI.isEnabled connectorAPI = Resolves isEnabled /\
    DAppConnectorAPI.enable connectorAPI = Resolves sample_wallet /\
    DAppConnectorAPI.serviceUriConfig connectorAPI = Resolves sample_uris.
Proof.
  apply (@connected_wallet_comes_from_compatible_connector major_x_semver
           [[None; Some (sample_connector "1.4.2")]] sample_wallet sample_uris).
  reflexivity.
Defined.

(** X5.  When no connector shows during the first subscription,
    [connectToWallet] logs one check per tick, then the not-found error and
    the not-authorized error, rejects with [Error('Application is not
    authorized')], calls no method of any connector and does not subscribe
    again. *)
Theorem no_connector_no_call `{Semver} ticks later :
  first_connector ticks = None ->
  connectToWallet (ticks :: later)
  = (repeat (Log (LogInfo "Check for wallet connector API")) (length ticks)
       ++ [Log (LogError "Could not find wallet connector API");
           Log (LogError "Unable to enable connector API")],
     Settled (Js.Throw not_authorized)) /\
  forall method, calls method (fst (connectToWallet (ticks :: later))) = 0.
Proof.
  intros Hnone.
  assert (Hwaited : waited ticks = length ticks).
  { induction ticks as [|[c|] ticks IH]; simpl in *; [reflexivity|discriminate|].
    rewrite IH; auto. }
  assert (E : connectToWallet (ticks :: later)
              = (repeat (Log (LogInfo "Check for wallet connector API")) (length ticks)
                   ++ [Log (LogError "Could not find wallet connector API");
                       Log (LogError "Unable to enable connector API")],
                 Settled (Js.Throw not_authorized))).
  { unfold connectToWallet. simpl attempts. unfold attempt.
    rewrite discover_spec, Hnone, Hwaited, app_nil_r. simpl.
    rewrite <- app_assoc. reflexivity. }
  split; [exact E|].
  intros method. rewrite E. simpl. rewrite calls_app, calls_repeat_log.
  destruct method; reflexivity.
Qed.

Lemma no_connector_no_call_witness :
  @connectToWallet major_x_semver [[None; None]; [Some (sample_connector "1.4.2")]]
  = (repeat (Log (LogInfo "Check for wallet connector API")) 2
       ++ [Log (LogError "Could not find wallet connector API");
           Log (LogError "Unable to enable connector API")],
     Settled (Js.Throw not_authorized)) /\
  forall method,
    calls method (fst (@connectToWallet major_x_semver
                         [[None; None]; [Some (sample_connector "1.4.2")]])) = 0.
Proof.
  apply (@no_connector_no_call major_x_semver [None; None] [[Some (sample_connector "1.4.2")]]).
  reflexivity.
Defined.

Lemma attempt_compatible `{Semver} ticks c :
  first_connector ticks = Some c ->
  compatible c = true ->
  attempt ticks
  = (repeat (Log (LogInfo "Check for wallet connector API")) (waited ticks)
       ++ Log (LogInfo "Compatible wallet connector API found. Connecting.")
       :: Call isEnabled_
       :: match DAppConnectorAPI.isEnabled c with
          | Resolves _ => [Log (LogInfo "Wallet connector API enabled status"); Call enable_]
          | Rejects _ => []
          | NeverSettles => [Log (LogError "Wallet connector API has failed to respond")]
          end,
     match DAppConnectorAPI.isEnabled c with
     | Resolves _ =>
         match DAppConnectorAPI.enable c with
         | Resolves w => Value (w, c)
         | Rejects v => Failure v
         | NeverSettles => Silent
         end
     | Rejects v => Failure v
     | NeverSettles =>
         Failure (Js.VError (Js.mkError "Midnight Lace wallet has failed to respond. Extension enabled?"))
     end).
Proof.
  intros Hfirst Hcompat. unfold attempt. rewrite discover_spec, Hfirst, Hcompat. simpl.
  destruct (DAppConnectorAPI.isEnabled c) as [b|v|]; simpl;
    [destruct (DAppConnectorAPI.enable c) as [w|v|]; simpl|..];
    rewrite <- ?app_assoc; simpl; rewrite ?app_nil_r; reflexivity.
Qed.

(** X6.  When the connector found satisfies the version range but its
    [isEnabled()] has not answered at the second deadline, [connectToWallet]
    logs that the connector failed to respond and rejects with
    [Error('Application is not authorized')]; [isEnabled()] was called once,
    [enable()] and [serviceUriConfig()] never, and there is no further
    subscription. *)
Theorem unanswered_isEnabled_never_enables `{Semver} ticks later connectorAPI :
  first_connector ticks = Some connectorAPI ->
  compatible connectorAPI = true ->
  DAppConnectorAPI.isEnabled connectorAPI = NeverSettles ->
  let outcome := connectToWallet (ticks :: later) in
  snd outcome = Settled (Js.Throw not_authorized) /\
  In (Log (LogError "Wallet connector API has failed to respond")) (fst outcome) /\
  calls isEnabled_ (fst outcome) = 1 /\
  calls enable_ (fst outcome) = 0 /\
  calls serviceUriConfig_ (fst outcome) = 0.
Proof.
  intros Hfirst Hcompat Hnever. unfold connectToWallet. simpl attempts.
  rewrite (attempt_compatible ticks connectorAPI Hfirst Hcompat), Hnever. simpl.
  split; [reflexivity|]. split.
  - rewrite !in_app_iff. simpl. auto 10.
  - rewrite !calls_app, !calls_repeat_log. repeat split; reflexivity.
Qed.

Lemma unanswered_isEnabled_never_enables_witness :
  let connectorAPI :=
    {| DAppConnectorAPI.apiVersion := "1.0.0";
       DAppConnectorAPI.isEnabled := NeverSettles;
       DAppConnectorAPI.enable := Resolves sample_wallet;
       DAppConnectorAPI.serviceUriConfig := Resolves sample_uris |} in
  let outcome := @connectToWallet major_x_semver [[None; Some connectorAPI]; []] in
  snd outcome = Settled (Js.Throw not_authorized) /\
  In (Log (LogError "Wallet connector API has failed to respond")) (fst outcome) /\
  calls isEnabled_ (fst outcome) = 1 /\
  calls enable_ (fst outcome) = 0 /\
  calls serviceUriConfig_ (fst outcome) = 0.
Proof.
  intros connectorAPI.
  apply (@unanswered_isEnabled_never_enables major_x_semver [None; Some connectorAPI] [[]] connectorAPI);
    reflexivity.
Defined.

(** X7.  Once [enable()] has handed out a wallet, [connectToWallet] ends as
    [serviceUriConfig()] does: fulfilled with that wallet and the endpoints,
    rejected with the very value [serviceUriConfig()] rejected with (it is
    past the [catchError], so it is not replaced, whatever it is), or pending
    for good.  Each of the three methods was called exactly once. *)
Theorem serviceUriConfig_outcome_is_final `{Semver} ticks later connectorAPI isEnabled wallet :
  first_connector ticks = Some connectorAPI ->
  compatible connectorAPI = true ->
  DAppConnectorAPI.isEnabled connectorAPI = Resolves isEnabled ->
  DAppConnectorAPI.enable connectorAPI = Resolves wallet ->
  let outcome := connectToWallet (ticks :: later) in
  snd outcome
  = match DAppConnectorAPI.serviceUriConfig connectorAPI with
    | Resolves uris => Settled (Js.Ok (wallet, uris))
    | Rejects v => Settled (Js.Throw v)
    | NeverSettles => Pending
    end /\
  forall method, calls method (fst outcome) = 1.
Proof.
  intros Hfirst Hcompat Hen Henable. unfold connectToWallet. simpl attempts.
  rewrite (attempt_compatible ticks connectorAPI Hfirst Hcompat), Hen, Henable. simpl.
  destruct (DAppConnectorAPI.serviceUriConfig connectorAPI) as [uris|v|]; simpl;
    (split; [reflexivity|]); intros method;
    rewrite !calls_app, !calls_repeat_log; destruct method; reflexivity.
Qed.

Lemma serviceUriConfig_outcome_is_final_witness :
  let connectorAPI :=
    {| DAppConnectorAPI.apiVersion := "1.0.0";
       DAppConnectorAPI.isEnabled := Resolves false;
       DAppConnectorAPI.enable := Resolves sample_wallet;
       DAppConnectorAPI.serviceUriConfig := Rejects (Js.VOther false "undefined") |} in
  let outcome := @connectToWallet major_x_semver [[Some connectorAPI]] in
  snd outcome = Settled (Js.Throw (Js.VOther false "undefined")) /\
  forall method, calls method (fst outcome) = 1.
Proof.
  intros connectorAPI.
  apply (@serviceUriConfig_outcome_is_final major_x_semver [Some connectorAPI] [] connectorAPI
           false sample_wallet); reflexivity.
Defined.

(** X8.  No deadline guards [enable()]: while it stays unanswered (the
    user leaves the wallet's prompt open) [connectToWallet] stays pending,
    logs no error and does not call [serviceUriConfig()]. *)
Theorem unanswered_enable_stays_pending `{Semver} ticks later connectorAPI isEnabled :
  first_connector ticks = Some connectorAPI ->
  compatible connectorAPI = true ->
  DAppConnectorAPI.isEnabled connectorAPI = Resolves isEnabled ->
  DAppConnectorAPI.enable connectorAPI = NeverSettles ->
  let outcome := connectToWallet (ticks :: later) in
  snd outcome = Pending /\
  calls enable_ (fst outcome) = 1 /\
  calls serviceUriConfig_ (fst outcome) = 0 /\
  forall text, ~ In (Log (LogError text)) (fst outcome).
Proof.
  intros Hfirst Hcompat Hen Henable. unfold connectToWallet. simpl attempts.
  rewrite (attempt_compatible ticks connectorAPI Hfirst Hcompat), Hen, Henable. simpl.
  split; [reflexivity|].
  rewrite !calls_app, !calls_repeat_log. split; [reflexivity|]. split; [reflexivity|].
  intros text. rewrite in_app_iff. intros [Hin|Hin].
  - apply repeat_spec in Hin. discriminate.
  - simpl in Hin. repeat (destruct Hin as [Hin|Hin]; [discriminate|]). exact Hin.
Qed.

Lemma unanswered_enable_stays_pending_witness :
  let connectorAPI :=
    {| DAppConnectorAPI.apiVersion := "1.0.0";
       DAppConnectorAPI.isEnabled := Resolves false;
       DAppConnectorAPI.enable := NeverSettles;
       DAppConnectorAPI.serviceUriConfig := Resolves sample_uris |} in
  let outcome := @connectToWallet major_x_semver [[Some connectorAPI]] in
  snd outcome = Pending /\
  calls enable_ (fst outcome) = 1 /\
  calls serviceUriConfig_ (fst outcome) = 0 /\
  forall text, ~ In (Log (LogError text)) (fst outcome).
Proof.
  intros connectorAPI.
  apply (@unanswered_enable_stays_pending major_x_semver [Some connectorAPI] [] connectorAPI false);
    reflexivity.
Defined.

(** X9.  The only rejections a caller of [connectToWallet] can see are
    [Error('Application is not authorized')] and whatever
    [serviceUriConfig()] itself rejected with after a successful
    [enable()].  The not-found, incompatible-version and failed-to-respond
    errors the function builds never reach the caller. *)
Theorem connectToWallet_visible_rejections `{Semver} subscriptions v :
  snd (connectToWallet subscriptions) = Settled (Js.Throw v) ->
  v = not_authorized \/
  exists ticks connectorAPI wallet,
    In ticks subscriptions /\
    first_connector ticks = Some connectorAPI /\
    compatible connectorAPI = true /\
    DAppConnectorAPI.enable connectorAPI = Resolves wallet /\
    DAppConnectorAPI.serviceUriConfig connectorAPI = Rejects v.
Proof.
  rewrite connectToWallet_snd.
  destruct (snd (attempts subscriptions)) as [[w c]|v0|] eqn:E; try discriminate.
  - destruct (DAppConnectorAPI.serviceUriConfig c) as [u|v0|] eqn:Euris; try discriminate.
    intros [= <-]. right.
    destruct (attempts_value _ _ _ E) as (ticks & Hin & Hfirst & Hcompat & _ & Henable).
    exists ticks, c, w. auto 10.
  - intros [= <-]. left. exact (attempts_failure _ _ E).
Qed.

Lemma connectToWallet_visible_rejections_witness :
  Js.VError (Js.mkError "Application is not authorized") = not_authorized \/
  exists ticks connectorAPI wallet,
    In ticks [[Some (sample_connector "2.0.0")]] /\
    first_connector ticks = Some connectorAPI /\
    @compatible major_x_semver connectorAPI = true /\
    DAppConnectorAPI.enable connectorAPI = Resolves wallet /\
    DAppConnectorAPI.serviceUriConfig connectorAPI
    = Rejects (Js.VError (Js.mkError "Application is not authorized")).
Proof.
  apply (@connectToWallet_visible_rejections major_x_semver [[Some (sample_connector "2.0.0")]]).
  reflexivity.
Defined.

Lemma firstValueFrom_concatMap_app {A B} (f : A -> Stream B) eff eff' r :
  firstValueFrom (concatMap f (eff ++ eff', r))
  = (eff ++ fst (firstValueFrom (concatMap f (eff', r))),
     snd (firstValueFrom (concatMap f (eff', r)))).
Proof.
  destruct r as [a| |]; simpl; try reflexivity.
  destruct (f a) as [eff0 [b| |]]; simpl; rewrite app_assoc; reflexivity.
Qed.

(** X10.  When [isEnabled()] or [enable()] rejects with a falsy value,
    the [catchError] handler returns the stream it sits on, which subscribes
    to it again: the effects of the failed subscription are followed by
    those of a run over the remaining subscriptions, the connector is polled
    and called again, and the result is that of the later run. *)
Theorem falsy_rejection_subscribes_again `{Semver} ticks later connectorAPI v :
  first_connector ticks = Some connectorAPI ->
  compatible connectorAPI = true ->
  DAppConnectorAPI.isEnabled connectorAPI = Rejects v \/
  (exists isEnabled, DAppConnectorAPI.isEnabled connectorAPI = Resolves isEnabled) /\
  DAppConnectorAPI.enable connectorAPI = Rejects v ->
  Js.is_truthy v = false ->
  connectToWallet (ticks :: later)
  = (fst (attempt ticks) ++ fst (connectToWallet later), snd (connectToWallet later)) /\
  calls isEnabled_ (fst (attempt ticks)) = 1.
Proof.
  intros Hfirst Hcompat Hrejects Hfalsy.
  assert (E : exists eff, attempt ticks = (eff, Failure v) /\ calls isEnabled_ eff = 1).
  { rewrite (attempt_compatible ticks connectorAPI Hfirst Hcompat).
    destruct Hrejects as [Hen|[[b Hen] Henable]].
    - rewrite Hen. eexists. split; [reflexivity|].
      rewrite calls_app, calls_repeat_log. reflexivity.
    - rewrite Hen, Henable. eexists. split; [reflexivity|].
      rewrite calls_app, calls_repeat_log. reflexivity. }
  destruct E as (eff & E & Hcalls). rewrite E. simpl fst. split; [|exact Hcalls].
  unfold connectToWallet. simpl attempts. rewrite E, Hfalsy.
  destruct (attempts later) as [eff' r]. apply firstValueFrom_concatMap_app.
Qed.

Lemma falsy_rejection_subscribes_again_witness :
  let refusing :=
    {| DAppConnectorAPI.apiVersion := "1.0.0";
       DAppConnectorAPI.isEnabled := Resolves true;
       DAppConnectorAPI.enable := Rejects (Js.VOther false "undefined");
       DAppConnectorAPI.serviceUriConfig := Resolves sample_uris |} in
  let later := [[None; Some (sample_connector "1.4.2")]] in
  @connectToWallet major_x_semver ([Some refusing] :: later)
  = (fst (@attempt major_x_semver [Some refusing]) ++ fst (@connectToWallet major_x_semver later),
     snd (@connectToWallet major_x_semver later)) /\
  calls isEnabled_ (fst (@attempt major_x_semver [Some refusing])) = 1.
Proof.
  intros refusing later.
  apply (@falsy_rejection_subscribes_again major_x_semver [Some refusing] later refusing
           (Js.VOther false "undefined")); try reflexivity.
  right. split; [exists true|]; reflexivity.
Defined.

Lemma attempt_calls `{Semver} ticks :
  calls serviceUriConfig_ (fst (attempt ticks)) = 0 /\
  calls enable_ (fst (attempt ticks)) <= calls isEnabled_ (fst (attempt ticks)) /\
  calls isEnabled_ (fst (attempt ticks)) <= 1.
Proof.
  destruct (first_connector ticks) as [c|] eqn:Efirst.
  - destruct (compatible c) eqn:Ecompat.
    + rewrite (attempt_compatible ticks c Efirst Ecompat). simpl fst.
      rewrite !calls_app, !calls_repeat_log.
      destruct (DAppConnectorAPI.isEnabled c); unfold calls; simpl; lia.
    + unfold attempt. rewrite discover_spec, Efirst, Ecompat. simpl.
      rewrite !calls_app, !calls_repeat_log. unfold calls. simpl. lia.
  - unfold attempt. rewrite discover_spec, Efirst. simpl.
    rewrite !calls_app, !calls_repeat_log. unfold calls. simpl. lia.
Qed.

Lemma attempts_calls `{Semver} subscriptions :
  calls serviceUriConfig_ (fst (attempts subscriptions)) = 0 /\
  calls enable_ (fst (attempts subscriptions)) <= calls isEnabled_ (fst (attempts subscriptions)) /\
  calls isEnabled_ (fst (attempts subscriptions)) <= length subscriptions.
Proof.
  induction subscriptions as [|ticks later IH]; [simpl; unfold calls; simpl; lia|].
  pose proof (attempt_calls ticks) as Hone. simpl.
  destruct (attempt ticks) as [eff [[w c]|v|]]; simpl in *; try lia.
  destruct (Js.is_truthy v); simpl.
  - rewrite !calls_app, !calls_cons_log, !calls_nil. lia.
  - destruct (attempts later) as [eff' r]. simpl in *. rewrite !calls_app. lia.
Qed.

(** X11.  Whatever the connector and the wallet do, and however often
    the stream is subscribed to again, [connectToWallet] calls
    [serviceUriConfig()] at most once, [enable()] at most as often as
    [isEnabled()], and [isEnabled()] at most once per subscription. *)
Theorem connector_calls_are_bounded `{Semver} subscriptions :
  let eff := fst (connectToWallet subscriptions) in
  calls serviceUriConfig_ eff <= 1 /\
  calls enable_ eff <= calls isEnabled_ eff /\
  calls isEnabled_ eff <= length subscriptions.
Proof.
  pose proof (attempts_calls subscriptions) as Hcalls.
  unfold connectToWallet. destruct (attempts subscriptions) as [eff [[w c]|v|]]; simpl in *;
    try lia.
  destruct (DAppConnectorAPI.serviceUriConfig c); simpl;
    rewrite ?app_nil_r, !calls_app; unfold calls in *; simpl in *; lia.
Qed.

(** X12.  [initializeProviders] fulfils only with the bundle made of the
    endpoints and the wallet a compatible connector gave and of that
    wallet's [state()]: the indexer addresses are the wallet's, the keys are
    the wallet state's, the ZK configuration is fetched from the page's
    origin, and the proof server is always the local
    [http://127.0.0.1:6300], whatever [proverServerUri] the wallet
    announced. *)
Theorem providers_bundle_contents `{Semver} subscriptions origin providers :
  snd (initializeProviders subscriptions origin) = Settled (Js.Ok providers) ->
  exists ticks connectorAPI wallet uris walletState,
    In ticks subscriptions /\
    first_connector ticks = Some connectorAPI /\
    compatible connectorAPI = true /\
    DAppConnectorAPI.enable connectorAPI = Resolves wallet /\
    DAppConnectorAPI.serviceUriConfig connectorAPI = Resolves uris /\
    DAppConnectorWalletAPI.state wallet = Resolves walletState /\
    providers
    = {| InvoiceProviders.privateStateStoreName := "invoice-private-state";
         InvoiceProviders.zkConfigPath := origin;
         InvoiceProviders.proofServerUri := "http://127.0.0.1:6300";
         InvoiceProviders.indexerUri := ServiceUriConfig.indexerUri uris;
         InvoiceProviders.indexerWsUri := ServiceUriConfig.indexerWsUri uris;
         InvoiceProviders.coinPublicKey := WalletState.coinPublicKey walletState;
         InvoiceProviders.encryptionPublicKey := WalletState.encryptionPublicKey walletState |}.
Proof.
  unfold initializeProviders.
  pose proof (connectToWallet_snd subscriptions) as Hsnd.
  destruct (connectToWallet subscriptions) as [eff [|[[wallet uris]|v]]]; simpl in *;
    try discriminate.
  destruct (DAppConnectorWalletAPI.state wallet) as [walletState|v|] eqn:Estate; simpl;
    try discriminate.
  intros [= <-].
  destruct (snd (attempts subscriptions)) as [[w c]|v|] eqn:E; try discriminate.
  destruct (DAppConnectorAPI.serviceUriConfig c) as [u|v|] eqn:Euris; try discriminate.
  injection Hsnd as -> ->.
  destruct (attempts_value _ _ _ E) as (ticks & Hin & Hfirst & Hcompat & _ & Henable).
  exists ticks, c, w, u, walletState. auto 10.
Qed.

Lemma providers_bundle_contents_witness :
  exists ticks connectorAPI wallet uris walletState,
    In ticks [[None; Some (sample_connector "1.4.2")]] /\
    first_connector ticks = Some connectorAPI /\
    @compatible major_x_semver connectorAPI = true /\
    DAppConnectorAPI.enable connectorAPI = Resolves wallet /\
    DAppConnectorAPI.serviceUriConfig connectorAPI = Resolves uris /\
    DAppConnectorWalletAPI.state wallet = Resolves walletState /\
    sample_providers
    = {| InvoiceProviders.privateStateStoreName := "invoice-private-state";
         InvoiceProviders.zkConfigPath := "http://localhost";
         InvoiceProviders.proofServerUri := "http://127.0.0.1:6300";
         InvoiceProviders.indexerUri := ServiceUriConfig.indexerUri uris;
         InvoiceProviders.indexerWsUri := ServiceUriConfig.indexerWsUri uris;
         InvoiceProviders.coinPublicKey := WalletState.coinPublicKey walletState;
         InvoiceProviders.encryptionPublicKey := WalletState.encryptionPublicKey walletState |}.
Proof.
  apply (@providers_bundle_contents major_x_semver [[None; Some (sample_connector "1.4.2")]]
           "http://localhost" sample_providers).
  reflexivity.
Defined.

(** ** The notifications of [state$] *)

Lemma error_source_more `{Circuits} fetched events more v :
  error_source fetched events v -> error_source fetched (events ++ more) v.
Proof.
  intros [Hv|[[Hf Hp]|(api & l & p & Hf & Hp & Hl & Hthrow)]].
  - left. apply in_or_app. auto.
  - right. left. split; [exact Hf|apply in_or_app; auto].
  - right. right. exists api, l, p. repeat split; auto; apply in_or_app; auto.
Qed.

Lemma delivered_ok_frame `{Circuits} fetched events more w w' :
  delivered_ok fetched events w ->
  World.subscription w' = World.subscription w ->
  World.received w' = World.received w ->
  delivered_ok fetched (events ++ more) w'.
Proof.
  intros (ds & tail & Hrec & Htail) Hs Hr. exists ds, tail. rewrite Hr, Hs. split; [exact Hrec|].
  destruct tail as [|[d|v|] [|? ?]]; try exact Htail.
  - destruct Htail as [Hc Hv]. split; [exact Hc|apply error_source_more; exact Hv].
  - destruct Htail as (Hc & Hl & Hp). repeat split; auto; apply in_or_app; auto.
Qed.

Lemma stream_ok_frame `{Circuits} fetched events more w w' :
  stream_ok fetched events w ->
  InvoiceAPI.privateState (World.api w') = InvoiceAPI.privateState (World.api w) ->
  World.subscription w' = World.subscription w ->
  World.received w' = World.received w ->
  stream_ok fetched (events ++ more) w'.
Proof.
  intros (Hfetch & Hl & Hp & Hla & Hpa & Hd) Hapi Hs Hr. unfold stream_ok. rewrite Hapi, Hs.
  split; [exact Hfetch|]. split; [|split; [|split; [|split]]].
  - intros l E. apply in_or_app. left. auto.
  - intros p E. destruct (Hp p E). split; [assumption|]. apply in_or_app. auto.
  - intros E. destruct (Hla E); [left; assumption|right; apply in_or_app; auto].
  - intros E. destruct (Hpa E); [left; assumption|right; apply in_or_app; auto].
  - eapply delivered_ok_frame; eassumption.
Qed.

Lemma step_quiet `{Circuits} w e :
  Subscription.closed (World.subscription w) = true \/
  match e with
  | LedgerNext _ | LedgerError _ | LedgerComplete | PrivateStateSettled => False
  | _ => True
  end ->
  InvoiceAPI.privateState (World.api (step w e)) = InvoiceAPI.privateState (World.api w) /\
  World.subscription (step w e) = World.subscription w /\
  World.received (step w e) = World.received w.
Proof.
  intros Hquiet.
  destruct e as [l|v| | |p|amount invoiceData| | |i txData now]; simpl;
    try (destruct Hquiet as [Hc|[]]; rewrite Hc; simpl; auto);
    try (repeat split; reflexivity).
  destruct (World.pending w !! i) as [call|]; [|auto].
  destruct (resume (World.api w) call txData now) as [[api' logged] result] eqn:E.
  apply resume_keeps_fetch in E. simpl. tauto.
Qed.

Lemma stream_ok_step `{Circuits} fetched events w e :
  stream_ok fetched events w -> stream_ok fetched (events ++ [e]) (step w e).
Proof.
  intros Hok.
  destruct (Subscription.closed (World.subscription w)) eqn:Hclosed.
  { destruct (step_quiet w e) as (Ha & Hs & Hr); [left; exact Hclosed|].
    eapply stream_ok_frame; eassumption. }
  assert (Hquiet : match e with
                   | LedgerNext _ | LedgerError _ | LedgerComplete | PrivateStateSettled => False
                   | _ => True
                   end ->
                   stream_ok fetched (events ++ [e]) (step w e)).
  { intros He. destruct (step_quiet w e) as (Ha & Hs & Hr); [right; exact He|].
    eapply stream_ok_frame; eassumption. }
  pose proof Hok as (Hfetch & Hl & Hp & Hla & Hpa & ds & tail & Hrec & Htail).
  assert (tail = []) as ->.
  { destruct tail as [|[d|v|] [|? ?]]; try reflexivity; try contradiction;
      destruct Htail as [Hc _]; congruence. }
  rewrite app_nil_r in Hrec. clear Htail.
  destruct e as [l|v| | |p0|amount invoiceData| | |i txData now]; try (apply Hquiet; exact I);
    clear Hquiet.
  - (* a ledger state *)
    unfold step. rewrite Hclosed. cbn -[project combine].
    destruct (Subscription.ledgerActive (World.subscription w)) eqn:Hactive; cbn -[project combine];
      [|eapply stream_ok_frame; eauto].
    unfold combine. cbn -[project].
    destruct (Subscription.privateValue (World.subscription w)) as [p|] eqn:Epriv.
    + destruct (Hp p eq_refl) as [Hfetched Hsettled].
      destruct (project (World.api w) l p) as [[d|v] logged] eqn:Eproj.
      * unfold stream_ok, delivered_ok. cbn -[project].
        rewrite ?Hclosed, ?Hactive, ?Epriv, ?Hrec.
        split; [exact Hfetch|]. split; [|split; [|split; [|split]]].
        -- intros l' [= <-]. apply in_or_app. right. left. reflexivity.
        -- intros p' [= <-]. split; [exact Hfetched|]. apply in_or_app. auto.
        -- discriminate.
        -- intros E. destruct (Hpa E); [congruence|right; apply in_or_app; auto].
        -- exists (ds ++ [d]), []. rewrite map_app, app_nil_r. split; reflexivity.
      * unfold stream_ok, delivered_ok. cbn -[project]. rewrite ?Epriv, ?Hrec.
        split; [exact Hfetch|]. split; [|split; [|split; [|split]]].
        -- intros l' [= <-]. apply in_or_app. right. left. reflexivity.
        -- intros p' [= <-]. split; [exact Hfetched|]. apply in_or_app. auto.
        -- auto.
        -- auto.
        -- exists ds, [Error v]. split; [reflexivity|]. split; [reflexivity|].
           right. right. exists (World.api w), l, p.
           split; [exact Hfetched|]. split; [apply in_or_app; auto|].
           split; [apply in_or_app; right; left; reflexivity|].
           rewrite Eproj. reflexivity.
    + unfold stream_ok, delivered_ok. cbn -[project].
      rewrite ?Hclosed, ?Hactive, ?Epriv, ?Hrec.
      split; [exact Hfetch|]. split; [|split; [|split; [|split]]].
      * intros l' [= <-]. apply in_or_app. right. left. reflexivity.
      * discriminate.
      * discriminate.
      * intros E. destruct (Hpa E); [congruence|right; apply in_or_app; auto].
      * exists ds, []. rewrite !app_nil_r. split; reflexivity.
  - (* the ledger stream fails *)
    unfold step. rewrite Hclosed. simpl.
    destruct (Subscription.ledgerActive (World.subscription w)) eqn:Hactive; simpl;
      [|eapply stream_ok_frame; eauto].
    unfold stream_ok, delivered_ok. simpl. rewrite ?Hrec.
    split; [exact Hfetch|]. split; [|split; [|split; [|split]]]; auto.
    + intros l E. apply in_or_app. auto.
    + intros p E. destruct (Hp p E). split; [assumption|apply in_or_app; auto].
    + exists ds, [Error v]. split; [reflexivity|]. split; [reflexivity|].
      left. apply in_or_app. right. left. reflexivity.
  - (* the ledger stream completes *)
    unfold step. rewrite Hclosed. simpl.
    destruct (Subscription.ledgerActive (World.subscription w)) eqn:Hactive; simpl;
      [|eapply stream_ok_frame; eauto].
    unfold source_completed. simpl.
    destruct (Subscription.privateActive (World.subscription w)) eqn:Hpactive; simpl.
    + unfold stream_ok, delivered_ok. simpl. rewrite ?Hclosed, ?Hpactive, ?Hrec.
      split; [exact Hfetch|]. split; [|split; [|split; [|split]]].
      * intros l E. apply in_or_app. auto.
      * intros p E. destruct (Hp p E). split; [assumption|apply in_or_app; auto].
      * intros _. right. apply in_or_app. right. left. reflexivity.
      * discriminate.
      * exists ds, []. rewrite !app_nil_r. split; reflexivity.
    + destruct (Hpa eq_refl) as [Hc|Hsettled]; [congruence|].
      unfold stream_ok, delivered_ok. simpl. rewrite ?Hrec.
      split; [exact Hfetch|]. split; [|split; [|split; [|split]]]; auto.
      * intros l E. apply in_or_app. auto.
      * intros p E. destruct (Hp p E). split; [assumption|apply in_or_app; auto].
      * exists ds, [Complete]. split; [reflexivity|]. split; [reflexivity|].
        split; apply in_or_app; [right; left; reflexivity|auto].
  - (* the private-state promise settles *)
    unfold step. rewrite Hclosed. cbn -[project combine].
    destruct (Subscription.privateActive (World.subscription w)) eqn:Hpactive; cbn -[project combine];
      [|eapply stream_ok_frame; eauto].
    rewrite Hfetch. destruct fetched as [p|v].
    + unfold combine. cbn -[project].
      destruct (Subscription.ledgerValue (World.subscription w)) as [l|] eqn:Eledger.
      * destruct (project (World.api w) l p) as [[d|v] logged] eqn:Eproj; cbn -[project].
        -- rewrite Hclosed. unfold source_completed. cbn -[project].
           destruct (Subscription.ledgerActive (World.subscription w)) eqn:Hactive; cbn -[project].
           ++ unfold stream_ok, delivered_ok. cbn -[project].
              rewrite ?Hclosed, ?Hactive, ?Eledger, ?Hrec.
              split; [exact Hfetch|]. split; [|split; [|split; [|split]]].
              ** intros l' [= <-]. apply in_or_app. auto.
              ** intros p' [= <-]. split; [reflexivity|]. apply in_or_app. right. left. reflexivity.
              ** discriminate.
              ** intros _. right. apply in_or_app. right. left. reflexivity.
              ** exists (ds ++ [d]), []. rewrite map_app, !app_nil_r. split; reflexivity.
           ++ destruct (Hla eq_refl) as [Hc|Hcomplete]; [congruence|].
              unfold stream_ok, delivered_ok. cbn -[project]. rewrite ?Eledger, ?Hrec.
              split; [exact Hfetch|]. split; [|split; [|split; [|split]]]; auto.
              ** intros l' [= <-]. apply in_or_app. auto.
              ** intros p' [= <-]. split; [reflexivity|]. apply in_or_app. right. left. reflexivity.
              ** exists (ds ++ [d]), [Complete]. rewrite map_app, <- app_assoc.
                 split; [reflexivity|]. split; [reflexivity|].
                 split; apply in_or_app; [auto|right; left; reflexivity].
        -- unfold stream_ok, delivered_ok. cbn -[project]. rewrite ?Eledger, ?Hrec.
           split; [exact Hfetch|]. split; [|split; [|split; [|split]]]; auto.
           ++ intros l' [= <-]. apply in_or_app. auto.
           ++ intros p' [= <-]. split; [reflexivity|]. apply in_or_app. right. left. reflexivity.
           ++ exists ds, [Error v]. split; [reflexivity|]. split; [reflexivity|].
              right. right. exists (World.api w), l, p.
              split; [reflexivity|]. split; [apply in_or_app; right; left; reflexivity|].
              split; [apply in_or_app; auto|]. rewrite Eproj. reflexivity.
      * cbn -[project]. rewrite Hclosed. unfold source_completed. cbn -[project].
        destruct (Subscription.ledgerActive (World.subscription w)) eqn:Hactive; cbn -[project].
        -- unfold stream_ok, delivered_ok. cbn -[project].
           rewrite ?Hclosed, ?Hactive, ?Eledger, ?Hrec.
           split; [exact Hfetch|]. split; [|split; [|split; [|split]]].
           ++ discriminate.
           ++ intros p' [= <-]. split; [reflexivity|]. apply in_or_app. right. left. reflexivity.
           ++ discriminate.
           ++ intros _. right. apply in_or_app. right. left. reflexivity.
           ++ exists ds, []. rewrite !app_nil_r. split; reflexivity.
        -- destruct (Hla eq_refl) as [Hc|Hcomplete]; [congruence|].
           unfold stream_ok, delivered_ok. cbn -[project]. rewrite ?Eledger, ?Hrec.
           split; [exact Hfetch|]. split; [|split; [|split; [|split]]]; auto.
           ++ discriminate.
           ++ intros p' [= <-]. split; [reflexivity|]. apply in_or_app. right. left. reflexivity.
           ++ exists ds, [Complete]. split; [reflexivity|]. split; [reflexivity|].
              split; apply in_or_app; [auto|right; left; reflexivity].
    + (* the promise rejects *)
      unfold stream_ok, delivered_ok. simpl. rewrite ?Hrec.
      split; [exact Hfetch|]. split; [|split; [|split; [|split]]]; auto.
      * intros l E. apply in_or_app. auto.
      * intros p E. destruct (Hp p E). split; [assumption|apply in_or_app; auto].
      * exists ds, [Error v]. split; [reflexivity|]. split; [reflexivity|].
        right. left. split; [reflexivity|]. apply in_or_app. right. left. reflexivity.
Qed.

Lemma stream_ok_run `{Circuits} address logger store fetched events :
  stream_ok fetched events (run (start_fetching address logger store fetched) events).
Proof.
  induction events as [|e events IH] using rev_ind.
  - unfold stream_ok, delivered_ok. simpl.
    split; [reflexivity|]. split; [|split; [|split; [|split]]]; try discriminate.
    exists [], []. split; reflexivity.
  - rewrite run_snoc. apply stream_ok_step. exact IH.
Qed.

Lemma stream_ok_run_start `{Circuits} address logger store events :
  stream_ok (Js.Ok store) events (run (start address logger store) events).
Proof. exact (stream_ok_run address logger store (Js.Ok store) events). Qed.

(** In this model the projection throws only when the private state is
    [null]: the two circuit helpers are parameters that return. *)
Lemma project_throws `{Circuits} api l p v :
  fst (project api l p) = Js.Throw v -> p = None /\ v = TypeError_secretKey.
Proof.
  unfold project. destruct p as [ps|].
  - destruct (parse_invoiceJson (InvoiceAPI.logger api) l). discriminate.
  - intros [= <-]. auto.
Qed.

(** X13.  Whatever happens to an adapter, and whatever the [get] of its
    constructor settles with (a private state, [null], or a rejection), a
    subscriber of [state$] is sent snapshots and then at most one terminal
    notification, after which the subscription is closed and nothing more
    arrives.  An error is the very value the ledger stream failed with, or
    the very value the [get] promise rejected with, or what the projection
    threw on a ledger state that had arrived and the value the promise had
    fulfilled with; completion comes only after the ledger stream has
    completed and the promise has settled. *)
Theorem state_stream_protocol `{Circuits} address logger store fetched events :
  let w := run (start_fetching address logger store fetched) events in
  exists ds tail,
    World.received w = map Next ds ++ tail /\
    match tail with
    | [] => Subscription.closed (World.subscription w) = false
    | [Error v] =>
        Subscription.closed (World.subscription w) = true /\
        (In (LedgerError v) events \/
         (fetched = Js.Throw v /\ In PrivateStateSettled events) \/
         (exists api ledgerState privateState,
            fetched = Js.Ok privateState /\
            In PrivateStateSettled events /\
            In (LedgerNext ledgerState) events /\
            fst (project api ledgerState privateState) = Js.Throw v))
    | [Complete] =>
        Subscription.closed (World.subscription w) = true /\
        In LedgerComplete events /\ In PrivateStateSettled events
    | _ => False
    end.
Proof.
  intros w. pose proof (stream_ok_run address logger store fetched events) as Hok.
  destruct Hok as (_ & _ & _ & _ & _ & Hdelivered). exact Hdelivered.
Qed.

(** A [get] that rejects: the subscriber is sent that very value, once,
    whatever the ledger does before and after. *)
Example rejected_get_errors_the_stream :
  let v := Js.VError (Js.mkError "The database connection is closing") in
  let w := @run sample_circuits (start_fetching "addr" true None (Js.Throw v))
             [LedgerNext (sample_ledger "{}"); PrivateStateSettled;
              LedgerNext (sample_ledger "{}")] in
  World.received w = [Error v] /\ Subscription.closed (World.subscription w) = true.
Proof. split; reflexivity. Qed.

Lemma in_snoc_other {A} (x e : A) l : In x (l ++ [e]) -> x <> e -> In x l.
Proof. intros Hin Hne. apply in_app_or in Hin. destruct Hin as [Hin|[->|[]]]; congruence. Qed.

Lemma awaiting_step `{Circuits} store events w e :
  stream_ok (Js.Ok store) events w ->
  awaiting_ok store events w ->
  is_ledger_end e = false ->
  awaiting_ok store (events ++ [e]) (step w e).
Proof.
  intros (Hfetch & _ & Hp & _) Haw He Hopen.
  destruct (Subscription.closed (World.subscription w)) eqn:Hclosed.
  { destruct (step_quiet w e) as (_ & Hs & _); [left; exact Hclosed|].
    rewrite Hs in Hopen. congruence. }
  destruct (Haw Hclosed) as (Hactive & Hsettled & Hpactive & Hledger & Hnone).
  assert (Hquiet : match e with
                   | LedgerNext _ | LedgerError _ | LedgerComplete | PrivateStateSettled => False
                   | _ => True
                   end ->
                   e <> PrivateStateSettled -> (forall l, e <> LedgerNext l) ->
                   let s := World.subscription (step w e) in
                   Subscription.ledgerActive s = true /\
                   (In PrivateStateSettled (events ++ [e]) -> Subscription.privateValue s = Some store) /\
                   (Subscription.privateValue s = None -> Subscription.privateActive s = true) /\
                   ((exists l, In (LedgerNext l) (events ++ [e])) -> Subscription.ledgerValue s <> None) /\
                   (store = None ->
                    Subscription.ledgerValue s = None \/ Subscription.privateValue s = None)).
  { intros Hq Hne1 Hne2. destruct (step_quiet w e) as (_ & Hs & _); [right; exact Hq|].
    simpl. rewrite Hs. split; [exact Hactive|]. split; [|split; [exact Hpactive|split; [|exact Hnone]]].
    - intros Hin. apply Hsettled. eapply in_snoc_other; eauto.
    - intros [l Hin]. apply Hledger. exists l. eapply in_snoc_other; eauto. }
  destruct e as [l|v| | |p|amount invoiceData| | |i txData now]; try discriminate;
    try (apply Hquiet; [exact I|discriminate|discriminate]); clear Hquiet.
  - (* a ledger state *)
    revert Hopen. unfold step. rewrite Hclosed, Hactive. simpl. unfold combine. simpl.
    destruct (Subscription.privateValue (World.subscription w)) as [p|] eqn:Epriv.
    + destruct (Hp p eq_refl) as [[= <-] _]. destruct store as [ps|]; simpl; [|discriminate].
      destruct (parse_invoiceJson (InvoiceAPI.logger (World.api w)) l) as [invoiceData logged].
      simpl. intros _. rewrite Hactive, Epriv.
      split; [reflexivity|]. split; [reflexivity|]. split; [discriminate|].
      split; discriminate.
    + simpl. intros _. rewrite Hactive, Epriv.
      split; [reflexivity|]. split; [|split; [auto|split; [discriminate|auto]]].
      intros Hin. apply Hsettled. eapply in_snoc_other; [exact Hin|discriminate].
  - (* the private state arrives *)
    revert Hopen. unfold step. rewrite Hclosed. simpl.
    destruct (Subscription.privateActive (World.subscription w)) eqn:Epactive; simpl.
    + rewrite Hfetch. unfold combine. simpl.
      destruct (Subscription.ledgerValue (World.subscription w)) as [l|] eqn:Eledger.
      * destruct store as [ps|]; simpl; [|discriminate].
        destruct (parse_invoiceJson (InvoiceAPI.logger (World.api w)) l) as [invoiceData logged].
        simpl. rewrite Hclosed. unfold source_completed. simpl. rewrite Hactive. simpl.
        intros _. rewrite Hactive, Eledger.
        split; [reflexivity|]. split; [reflexivity|]. split; [discriminate|].
        split; discriminate.
      * simpl. rewrite Hclosed. unfold source_completed. simpl. rewrite Hactive. simpl.
        intros _. rewrite Hactive, Eledger.
        split; [reflexivity|]. split; [reflexivity|]. split; [discriminate|].
        split; [|auto]. intros [l Hin]. apply (Hledger (ex_intro _ l (in_snoc_other _ _ _ Hin ltac:(discriminate)))).
    + intros _. rewrite Hactive, Epactive.
      destruct (Subscription.privateValue (World.subscription w)) as [p|] eqn:Epriv;
        [|specialize (Hpactive eq_refl); discriminate].
      destruct (Hp p eq_refl) as [[= <-] _].
      split; [reflexivity|]. split; [reflexivity|]. split; [discriminate|].
      split; [|exact Hnone].
      intros [l Hin]. apply Hledger. exists l. eapply in_snoc_other; [exact Hin|discriminate].
Qed.

Lemma awaiting_run `{Circuits} address logger store events :
  Forall (fun e => is_ledger_end e = false) events ->
  awaiting_ok store events (run (start address logger store) events).
Proof.
  induction events as [|e events IH] using rev_ind; intros Hall.
  - intros _. simpl. split; [reflexivity|]. split; [intros []|].
    split; [reflexivity|]. split; [intros [l []]|auto].
  - apply Forall_app in Hall. destruct Hall as [Hall He]. inversion He as [|? ? Hend _]; subst.
    rewrite run_snoc.
    apply awaiting_step; [apply stream_ok_run_start|apply IH; exact Hall|exact Hend].
Qed.

Lemma omap_map_Next (ds : list InvoiceDerivedState.t) :
  omap (fun n => match n with Next d => Some d | _ => None end) (map Next ds) = ds.
Proof. induction ds as [|d ds IH]; [reflexivity|]. simpl. f_equal. exact IH. Qed.

Lemma no_emissions_without_private_state `{Circuits} address logger events :
  emissions (run (start address logger None) events) = [].
Proof.
  destruct (emissions (run (start address logger None) events)) as [|d ds] eqn:E; [reflexivity|].
  destruct (emissions_are_projections address logger None events d) as (l & ps & _ & _ & Hs & _).
  { rewrite E. left. reflexivity. }
  discriminate.
Qed.

(** X14.  An adapter built over a store that holds no private state
    never sends a snapshot: all its subscriber can receive is one terminal
    notification. *)
Theorem no_snapshot_without_private_state `{Circuits} address logger events :
  let w := run (start address logger None) events in
  emissions w = [] /\
  (World.received w = [] \/
   (exists v, World.received w = [Error v]) \/
   World.received w = [Complete]).
Proof.
  intros w. subst w. split; [apply no_emissions_without_private_state|].
  pose proof (no_emissions_without_private_state address logger events) as Hnone.
  destruct (stream_ok_run_start address logger None events) as (_ & _ & _ & _ & _ & ds & tail & Hrec & Htail).
  unfold emissions in Hnone. rewrite Hrec, omap_app, omap_map_Next in Hnone.
  apply app_eq_nil in Hnone. destruct Hnone as [-> _]. simpl in Hrec. rewrite Hrec.
  destruct tail as [|[d|v|] [|? ?]]; try contradiction; eauto.
Qed.

(** X15.  With no private state in the store, as soon as the
    private-state promise has settled and a ledger state has arrived (in
    either order, the ledger stream not having ended), the subscriber has
    been sent exactly one notification, the [TypeError] of reading
    [secretKey] of [null], and the subscription is closed. *)
Theorem missing_private_state_is_a_TypeError `{Circuits} address logger events ledgerState :
  In PrivateStateSettled events ->
  In (LedgerNext ledgerState) events ->
  Forall (fun e => is_ledger_end e = false) events ->
  let w := run (start address logger None) events in
  World.received w = [Error TypeError_secretKey] /\
  Subscription.closed (World.subscription w) = true.
Proof.
  intros Hsettled Hledger Hall w. subst w.
  pose proof (awaiting_run address logger None events Hall) as Haw.
  assert (Hclosed : Subscription.closed
                      (World.subscription (run (start address logger None) events)) = true).
  { destruct (Subscription.closed
                (World.subscription (run (start address logger None) events))) eqn:Hc;
      [reflexivity|].
    destruct (Haw Hc) as (_ & Hp & _ & Hl & Hnone).
    specialize (Hp Hsettled). specialize (Hl (ex_intro _ ledgerState Hledger)).
    destruct (Hnone eq_refl) as [E|E]; [contradiction|]. congruence. }
  split; [|exact Hclosed].
  pose proof (no_emissions_without_private_state address logger events) as Hnone.
  destruct (stream_ok_run_start address logger None events) as (_ & _ & _ & _ & _ & ds & tail & Hrec & Htail).
  unfold emissions in Hnone. rewrite Hrec, omap_app, omap_map_Next in Hnone.
  apply app_eq_nil in Hnone. destruct Hnone as [-> _]. simpl in Hrec. rewrite Hrec.
  rewrite List.Forall_forall in Hall.
  destruct tail as [|[d|v|] [|? ?]]; try contradiction.
  - congruence.
  - destruct Htail as [_ [Hin|[[Hf _]|(api & l & p & _ & _ & _ & Hthrow)]]].
    + apply Hall in Hin. discriminate.
    + discriminate.
    + apply project_throws in Hthrow. destruct Hthrow as [_ ->]. reflexivity.
  - destruct Htail as (_ & Hin & _). apply Hall in Hin. discriminate.
Qed.

Lemma missing_private_state_is_a_TypeError_witness :
  let w := @run sample_circuits (start "addr" true None)
             [PrivateStateSettled; InvokePayInvoice; LedgerNext (sample_ledger "{}")] in
  World.received w = [Error TypeError_secretKey] /\
  Subscription.closed (World.subscription w) = true.
Proof.
  apply (@missing_private_state_is_a_TypeError sample_circuits "addr" true
           [PrivateStateSettled; InvokePayInvoice; LedgerNext (sample_ledger "{}")]
           (sample_ledger "{}")).
  - left. reflexivity.
  - right. right. left. reflexivity.
  - repeat constructor.
Defined.

(** ** The history a subscriber sees *)

Lemma project_history `{Circuits} api l p d logged :
  project api l p = (Js.Ok d, logged) ->
  InvoiceDerivedState.transactionHistory d = InvoiceAPI.transactionHistory api.
Proof.
  unfold project. destruct p as [ps|]; [|discriminate].
  destruct (parse_invoiceJson (InvoiceAPI.logger api) l) as [invoiceData logged'].
  intros [= <- _]. reflexivity.
Qed.

Lemma combine_history `{Circuits} api s s' out logged d :
  combine api s = (s', out, logged) ->
  In d (omap (fun n => match n with Next d => Some d | _ => None end) out) ->
  InvoiceDerivedState.transactionHistory d = InvoiceAPI.transactionHistory api.
Proof.
  intros E Hin. destruct (combine_spec _ _ _ _ _ E) as (_ & _ & Hout).
  apply list_elem_of_In, list_elem_of_omap in Hin. destruct Hin as ([d'|v|] & Hin & Hd); try discriminate.
  injection Hd as ->. apply list_elem_of_In in Hin.
  destruct (Hout d Hin) as (l & p & _ & _ & Eproj). exact (project_history _ _ _ _ _ Eproj).
Qed.

Lemma emissions_step `{Circuits} w e :
  exists new,
    emissions (step w e) = emissions w ++ new /\
    forall d, In d new -> InvoiceDerivedState.transactionHistory d = history w.
Proof.
  assert (Hsame : World.received (step w e) = World.received w ->
                  exists new,
                    emissions (step w e) = emissions w ++ new /\
                    forall d, In d new -> InvoiceDerivedState.transactionHistory d = history w).
  { intros Hr. exists []. rewrite app_nil_r. split; [apply emissions_same_received; exact Hr|].
    intros d []. }
  destruct e as [l|v| | |p|amount invoiceData| | |i txData now].
  - unfold step in *.
    destruct (Subscription.closed (World.subscription w) || negb (Subscription.ledgerActive (World.subscription w)));
      [apply Hsame; reflexivity|]. clear Hsame.
    destruct (combine (World.api w) (set_ledgerValue (World.subscription w) l))
      as [[s' out] logged] eqn:E.
    eexists. rewrite emissions_deliver. split; [reflexivity|].
    intros d Hin. exact (combine_history _ _ _ _ _ _ E Hin).
  - unfold step in *.
    destruct (Subscription.closed (World.subscription w) || negb (Subscription.ledgerActive (World.subscription w)));
      [apply Hsame; reflexivity|]. clear Hsame.
    exists []. simpl. rewrite emissions_deliver, app_nil_r. simpl. rewrite app_nil_r.
    split; [reflexivity|intros d []].
  - unfold step in *.
    destruct (Subscription.closed (World.subscription w) || negb (Subscription.ledgerActive (World.subscription w)));
      [apply Hsame; reflexivity|]. clear Hsame.
    destruct (source_completed (end_ledger (World.subscription w))) as [s' out] eqn:E.
    exists []. rewrite emissions_deliver, (source_completed_silent _ _ _ E).
    split; [reflexivity|intros d []].
  - unfold step in *.
    destruct (Subscription.closed (World.subscription w) || negb (Subscription.privateActive (World.subscription w)));
      [apply Hsame; reflexivity|]. clear Hsame.
    destruct (InvoiceAPI.privateState (World.api w)) as [p|v].
    + destruct (combine (World.api w) (set_privateValue (World.subscription w) p))
        as [[s1 out1] logged] eqn:E.
      destruct (Subscription.closed s1).
      * eexists. rewrite emissions_deliver. split; [reflexivity|].
        intros d Hin. exact (combine_history _ _ _ _ _ _ E Hin).
      * destruct (source_completed (end_private s1)) as [s2 out2] eqn:E2.
        eexists. rewrite emissions_deliver, omap_app, (source_completed_silent _ _ _ E2), app_nil_r.
        split; [reflexivity|].
        intros d Hin. exact (combine_history _ _ _ _ _ _ E Hin).
    + exists []. simpl. rewrite emissions_deliver, app_nil_r. simpl. rewrite app_nil_r.
      split; [reflexivity|intros d []].
  - apply Hsame. reflexivity.
  - apply Hsame. reflexivity.
  - apply Hsame. reflexivity.
  - apply Hsame. reflexivity.
  - apply Hsame. simpl. destruct (World.pending w !! i) as [call|]; [|reflexivity].
    destruct (resume (World.api w) call txData now) as [[api' logged] result]. reflexivity.
Qed.

Lemma histories_grow_step `{Circuits} w e : histories_grow w -> histories_grow (step w e).
Proof.
  intros [Hpairs Hall].
  destruct (emissions_step w e) as (new & Enew & Hnew).
  pose proof (history_step w e) as Ehist.
  assert (Hgrows : history w `prefix_of` history (step w e)).
  { rewrite Ehist. apply prefix_app_r. reflexivity. }
  split.
  - intros i j d1 d2 Hle. rewrite Enew. intros H1 H2.
    apply lookup_app_Some in H1. apply lookup_app_Some in H2.
    destruct H1 as [H1|[Hi H1]], H2 as [H2|[Hj H2]].
    + exact (Hpairs i j d1 d2 Hle H1 H2).
    + apply list_elem_of_lookup_2, list_elem_of_In in H1, H2.
      rewrite (Hnew d2 H2). apply Hall. exact H1.
    + apply lookup_lt_Some in H2. lia.
    + apply list_elem_of_lookup_2, list_elem_of_In in H1, H2.
      rewrite (Hnew d1 H1), (Hnew d2 H2). reflexivity.
  - intros d. rewrite Enew, in_app_iff. intros [Hin|Hin].
    + etransitivity; [apply Hall; exact Hin|exact Hgrows].
    + rewrite (Hnew d Hin). exact Hgrows.
Qed.

(** X16.  The snapshots a subscriber of [state$] receives carry copies of
    the transaction history that only grow: the history in each snapshot is
    an initial part of the history in every later snapshot and of the
    adapter's own history; and a snapshot sent in response to an event
    carries the whole history as it was just before that event. *)
Theorem snapshots_carry_growing_history `{Circuits} address logger store events :
  let w := run (start address logger store) events in
  (forall i j d1 d2,
      (i <= j)%nat ->
      emissions w !! i = Some d1 ->
      emissions w !! j = Some d2 ->
      InvoiceDerivedState.transactionHistory d1 `prefix_of` InvoiceDerivedState.transactionHistory d2) /\
  (forall d, In d (emissions w) -> InvoiceDerivedState.transactionHistory d `prefix_of` history w) /\
  (forall e, exists new,
      emissions (step w e) = emissions w ++ new /\
      forall d, In d new -> InvoiceDerivedState.transactionHistory d = history w).
Proof.
  intros w. subst w.
  assert (Hgrow : histories_grow (run (start address logger store) events)).
  { induction events as [|e events IH] using rev_ind.
    - split; [intros i j d1 d2 _ Hi; discriminate|intros d []].
    - rewrite run_snoc. apply histories_grow_step. exact IH. }
  destruct Hgrow as [Hpairs Hall]. split; [exact Hpairs|]. split; [exact Hall|].
  intros e. apply emissions_step.
Qed.

(** ** Which ledger states become snapshots *)

Lemma project_some `{Circuits} api l ps :
  exists d logged, project api l (Some ps) = (Js.Ok d, logged).
Proof.
  unfold project. destruct (parse_invoiceJson (InvoiceAPI.logger api) l) as [invoiceData logged].
  eauto.
Qed.

Lemma run_app `{Circuits} w events1 events2 :
  run w (events1 ++ events2) = run (run w events1) events2.
Proof. apply fold_left_app. Qed.

Lemma run_cons `{Circuits} w e events : run w (e :: events) = run (step w e) events.
Proof. reflexivity. Qed.

Lemma run_ledger_before `{Circuits} address logger store before :
  let w := run (start address logger store) (map LedgerNext before) in
  World.api w = new_InvoiceAPI address logger store /\
  World.subscription w
  = {| Subscription.ledgerValue := last before;
       Subscription.ledgerActive := true;
       Subscription.privateValue := None;
       Subscription.privateActive := true;
       Subscription.closed := false |} /\
  World.received w = [].
Proof.
  induction before as [|l before IH] using rev_ind; [repeat split|].
  simpl in *. destruct IH as (Eapi & Esub & Erec).
  rewrite map_app. simpl. rewrite run_snoc. unfold step. rewrite Esub. simpl.
  unfold set_ledgerValue. simpl. rewrite last_snoc, Erec. repeat split. exact Eapi.
Qed.

Lemma run_ledger_after `{Circuits} api0 ps after :
  forall w latest,
    World.api w = api0 ->
    World.subscription w
    = {| Subscription.ledgerValue := latest;
         Subscription.ledgerActive := true;
         Subscription.privateValue := Some (Some ps);
         Subscription.privateActive := false;
         Subscription.closed := false |} ->
    map Js.Ok (emissions (run w (map LedgerNext after)))
    = map Js.Ok (emissions w) ++ map (fun l => fst (project api0 l (Some ps))) after.
Proof.
  induction after as [|l after IH]; intros w latest Eapi Esub.
  - simpl. rewrite app_nil_r. reflexivity.
  - destruct (project_some api0 l ps) as (d & logged & Eproj).
    assert (Estep : exists logged',
               step w (LedgerNext l)
               = deliver w {| Subscription.ledgerValue := Some l;
                              Subscription.ledgerActive := true;
                              Subscription.privateValue := Some (Some ps);
                              Subscription.privateActive := false;
                              Subscription.closed := false |} [Next d] logged').
    { unfold step. rewrite Esub, Eapi. cbn -[project]. unfold combine. cbn -[project].
      rewrite Eproj. eexists. reflexivity. }
    destruct Estep as [logged' Estep]. cbn [map].
    rewrite run_cons, Estep. erewrite IH; [|exact Eapi|reflexivity].
    rewrite emissions_deliver, Eproj. simpl.
    rewrite map_app, <- app_assoc. reflexivity.
Qed.

(** X17.  Of the ledger states that arrive before the private-state
    promise settles only the latest becomes a snapshot, sent when the promise
    settles; every ledger state that arrives afterwards becomes one snapshot,
    in order of arrival.  Each snapshot is the projection of its ledger state
    and the stored private state. *)
Theorem latest_ledger_state_wins `{Circuits} address logger ps before after :
  let api := new_InvoiceAPI address logger (Some ps) in
  let w := run (start address logger (Some ps))
               (map LedgerNext before ++ PrivateStateSettled :: map LedgerNext after) in
  map Js.Ok (emissions w)
  = map (fun l => fst (project api l (Some ps))) (option_list (last before) ++ after).
Proof.
  intros api w. subst w. rewrite run_app, run_cons.
  destruct (run_ledger_before address logger (Some ps) before) as (Eapi & Esub & Erec).
  set (w0 := run (start address logger (Some ps)) (map LedgerNext before)) in *.
  assert (Estep : exists logged,
             step w0 PrivateStateSettled
             = deliver w0 {| Subscription.ledgerValue := last before;
                             Subscription.ledgerActive := true;
                             Subscription.privateValue := Some (Some ps);
                             Subscription.privateActive := false;
                             Subscription.closed := false |}
                       (match last before with
                        | Some l =>
                            match fst (project api l (Some ps)) with
                            | Js.Ok d => [Next d]
                            | Js.Throw v => [Error v]
                            end
                        | None => []
                        end) logged).
  { unfold step. rewrite Esub, Eapi. cbn -[project]. unfold combine. cbn -[project].
    destruct (last before) as [l|]; cbn -[project].
    - destruct (project_some api l ps) as (d & logged & Eproj). fold api. rewrite Eproj.
      cbn -[project]. eexists. reflexivity.
    - eexists. reflexivity. }
  destruct Estep as [logged Estep]. rewrite Estep.
  erewrite run_ledger_after; [|exact Eapi|reflexivity].
  rewrite emissions_deliver, map_app. f_equal.
  unfold emissions. rewrite Erec. cbn -[project].
  destruct (last before) as [l|]; [|reflexivity]. cbn -[project].
  destruct (project_some api l ps) as (d & logged0 & Eproj). rewrite Eproj. reflexivity.
Qed.

(** ** The board component *)

Lemma string_truthy_false (s : JsString) : string_truthy s = false <-> s = [].
Proof. destruct s; simpl; split; congruence. Qed.

(** X18.  [onIssueInvoice] calls the adapter exactly when an adapter is
    set, [title.trim()] is not empty, the title as typed (not trimmed) has a
    [length] of at least three UTF-16 code units, the amount field is not
    empty, [Number(amount) <= 0] is false and [BigInt(amount)] does not
    throw; the invoice passed then carries the trimmed title and
    description, the day's date and the currency, with [BigInt(amount)] as
    the amount. *)
Theorem issue_form_guard `{Numeric} today b amount invoiceData :
  snd (onIssueInvoice_call today b) = Some (amount, invoiceData) <->
  Board.deployedInvoiceAPI b <> None /\
  trim (Board.title b) <> [] /\
  (3 <= length (Board.title b))%nat /\
  Board.amount b <> [] /\
  Number_le_0 (Board.amount b) = false /\
  BigInt_ (Board.amount b) = Js.Ok amount /\
  invoiceData
  = {| InvoiceData.title := trim (Board.title b);
       InvoiceData.description := trim (Board.description b);
       InvoiceData.issuedAt := today;
       InvoiceData.currency := Board.currency b |}.
Proof.
  unfold onIssueInvoice_call, validateForm.
  destruct (Board.deployedInvoiceAPI b) as [api|]; [|split; [discriminate|intros [Hne _]; congruence]].
  destruct (string_truthy (trim (Board.title b))) eqn:Etitle; simpl.
  - destruct (length (Board.title b) <? 3)%nat eqn:Elen.
    + apply Nat.ltb_lt in Elen.
      destruct (string_truthy (Board.amount b)); simpl;
        [destruct (Number_le_0 (Board.amount b)); simpl|];
        (split; [discriminate|intros (_ & _ & Hlen & _); lia]).
    + apply Nat.ltb_ge in Elen.
      destruct (string_truthy (Board.amount b)) eqn:Eamount; simpl.
      * destruct (Number_le_0 (Board.amount b)) eqn:Epos; simpl.
        -- split; [discriminate|intros (_ & _ & _ & _ & Hfalse & _); discriminate].
        -- destruct (BigInt_ (Board.amount b)) as [n|error] eqn:Ebig; simpl.
           ++ split.
              ** intros [= <- <-]. repeat split; auto; try discriminate.
                 --- intros E. rewrite E in Etitle. discriminate.
                 --- intros E. rewrite E in Eamount. discriminate.
              ** intros (_ & _ & _ & _ & _ & [= <-] & ->). reflexivity.
           ++ split; [discriminate|intros (_ & _ & _ & _ & _ & Hbig & _); discriminate].
      * apply string_truthy_false in Eamount.
        split; [discriminate|intros (_ & _ & _ & Hamount & _); contradiction].
  - apply string_truthy_false in Etitle.
    destruct (string_truthy (Board.amount b)); simpl;
      [destruct (Number_le_0 (Board.amount b)); simpl|];
      (split; [discriminate|intros (_ & Htitle & _); contradiction]).
Qed.

Lemma onIssueInvoice_call_board `{Numeric} today b b1 called :
  onIssueInvoice_call today b = (b1, Some called) ->
  Board.isWorking b1 = true /\
  Board.errorMessage b1 = None /\
  Board.lastTxHash b1 = Board.lastTxHash b /\
  Board.showIssueForm b1 = Board.showIssueForm b /\
  Board.title b1 = Board.title b /\
  Board.description b1 = Board.description b /\
  Board.amount b1 = Board.amount b.
Proof.
  unfold onIssueInvoice_call, validateForm.
  destruct (Board.deployedInvoiceAPI b); [|discriminate].
  destruct (string_truthy (trim (Board.title b))); simpl;
    [destruct (length (Board.title b) <? 3)%nat|];
    (destruct (string_truthy (Board.amount b)); simpl;
     [destruct (Number_le_0 (Board.amount b)); simpl|]); try discriminate.
  destruct (BigInt_ (Board.amount b)); [|discriminate].
  intros [= <- _]. repeat split.
Qed.

(** The title of two characters outside ASCII, U+3042 U+3044, has length
    two and is refused; surrounded by ideographic spaces, U+3000, it passes
    the length test at length four and is sent trimmed to two; no adapter is
    called in the first case. *)
Example short_title_is_refused :
  let typed (title : JsString) :=
    {| Board.invoiceDeployment := None; Board.deployedInvoiceAPI := Some sample_api;
       Board.errorMessage := None; Board.isWorking := false; Board.showIssueForm := true;
       Board.lastTxHash := None;
       Board.title := title; Board.description := []; Board.amount := "250";
       Board.currency := "NIGHT"; Board.titleError := ""; Board.amountError := "" |} in
  Board.titleError (fst (@onIssueInvoice_call decimal_numeric "2025-06-01" (typed [12354; 12356]%N)))
  = "Title must be at least 3 characters"%string /\
  snd (@onIssueInvoice_call decimal_numeric "2025-06-01" (typed [12354; 12356]%N)) = None /\
  snd (@onIssueInvoice_call decimal_numeric "2025-06-01"
         (typed [12288; 12354; 12356; 12288]%N))
  = Some (250%Z,
          {| InvoiceData.title := [12354; 12356]%N; InvoiceData.description := [];
             InvoiceData.issuedAt := "2025-06-01"; InvoiceData.currency := "NIGHT" |}).
Proof. repeat split. Qed.

(** X19.  When [onIssueInvoice] reaches the adapter, it ends with the
    spinner off.  If the contract call is finalized, the board shows the
    transaction hash, hides and empties the form, and the adapter's history
    has gained the issue entry made of the finalized data, the amount and the
    invoice sent.  If the call fails, the board shows the error's text, the
    form stays as typed, and the adapter is unchanged. *)
Theorem onIssueInvoice_outcome `{Numeric} callTx now today b api amount invoiceData :
  snd (onIssueInvoice_call today b) = Some (amount, invoiceData) ->
  let b' := fst (onIssueInvoice callTx now today b api) in
  let api' := snd (onIssueInvoice callTx now today b api) in
  Board.isWorking b' = false /\
  match callTx (CallIssueInvoice amount (JSON.stringify (InvoiceData.to_json invoiceData))) with
  | Js.Ok finalizedTx =>
      Board.lastTxHash b' = Some (FinalizedTx.txHash finalizedTx) /\
      Board.errorMessage b' = None /\
      Board.showIssueForm b' = false /\
      Board.title b' = EmptyString /\
      Board.description b' = EmptyString /\
      Board.amount b' = EmptyString /\
      InvoiceAPI.transactionHistory api'
      = InvoiceAPI.transactionHistory api
          ++ [{| TransactionHistoryEntry.type := issue;
                 TransactionHistoryEntry.txHash := FinalizedTx.txHash finalizedTx;
                 TransactionHistoryEntry.blockHeight := FinalizedTx.blockHeight finalizedTx;
                 TransactionHistoryEntry.timestamp := now;
                 TransactionHistoryEntry.amount := Some amount;
                 TransactionHistoryEntry.invoiceData := Some invoiceData |}]
  | Js.Throw error =>
      Board.errorMessage b' = Some (error_text error) /\
      Board.lastTxHash b' = Board.lastTxHash b /\
      Board.showIssueForm b' = Board.showIssueForm b /\
      Board.title b' = Board.title b /\
      Board.description b' = Board.description b /\
      Board.amount b' = Board.amount b /\
      api' = api
  end.
Proof.
  intros Hcall b' api'. subst b' api'. unfold onIssueInvoice.
  destruct (onIssueInvoice_call today b) as [b1 called] eqn:E. simpl in Hcall. subst called.
  destruct (onIssueInvoice_call_board _ _ _ _ E) as (Hw & He & Hh & Hf & Ht & Hd & Ha).
  unfold issueInvoice, issueInvoice_call, issueInvoice_resume.
  destruct (callTx (CallIssueInvoice amount (JSON.stringify (InvoiceData.to_json invoiceData))))
    as [finalizedTx|error]; simpl.
  - repeat split; auto.
  - repeat split; auto.
Qed.

Lemma onIssueInvoice_outcome_witness :
  let callTx := fun _ : CircuitCall => Js.Ok (sample_tx "0xabc" 7) in
  let b' := fst (@onIssueInvoice decimal_numeric callTx 1000 "2025-06-01" sample_board sample_api) in
  let api' := snd (@onIssueInvoice decimal_numeric callTx 1000 "2025-06-01" sample_board sample_api) in
  Board.isWorking b' = false /\
  Board.lastTxHash b' = Some "0xabc" /\
  Board.errorMessage b' = None /\
  Board.showIssueForm b' = false /\
  Board.title b' = EmptyString /\
  Board.description b' = EmptyString /\
  Board.amount b' = EmptyString /\
  InvoiceAPI.transactionHistory api'
  = [{| TransactionHistoryEntry.type := issue;
        TransactionHistoryEntry.txHash := "0xabc";
        TransactionHistoryEntry.blockHeight := 7;
        TransactionHistoryEntry.timestamp := 1000;
        TransactionHistoryEntry.amount := Some 250%Z;
        TransactionHistoryEntry.invoiceData :=
          Some {| InvoiceData.title := "Web design";
                  InvoiceData.description := "Landing page";
                  InvoiceData.issuedAt := "2025-06-01";
                  InvoiceData.currency := "NIGHT" |} |}].
Proof.
  intros callTx.
  apply (@onIssueInvoice_outcome decimal_numeric callTx 1000%Z "2025-06-01" sample_board sample_api
           250%Z
           {| InvoiceData.title := "Web design";
              InvoiceData.description := "Landing page";
              InvoiceData.issuedAt := "2025-06-01";
              InvoiceData.currency := "NIGHT" |}).
  reflexivity.
Defined.

Lemma subject_shape events d subject :
  Manager.subjects (manager_run Manager.initial events) !! d = Some subject ->
  (BehaviorSubject.value subject = InProgress /\
   BehaviorSubject.notified subject = [Next InProgress]) \/
  (BehaviorSubject.value subject <> InProgress /\
   BehaviorSubject.notified subject = [Next InProgress; Next (BehaviorSubject.value subject)]).
Proof.
  intros Hd. destruct (manager_inv_run events) as (Hlen & _ & _ & Htasks).
  destruct (lookup_lt_is_Some_2 (Manager.tasks (manager_run Manager.initial events)) d)
    as [task Htask].
  { rewrite Hlen. eapply lookup_lt_Some. exact Hd. }
  destruct (Htasks d task Htask) as (_ & _ & subject' & Hd' & _ & Hphase).
  rewrite Hd in Hd'. injection Hd' as <-.
  destruct (Task.phase task).
  - left. tauto.
  - left. tauto.
  - right. destruct Hphase as (v & Hv & Hval & Hnot & _). rewrite Hval. auto.
Qed.

(** X20.  A board that observes a deployment of the manager, from its
    creation or from any later moment (a [BehaviorSubject] replays its
    current value to a new subscriber), always agrees with it: while the
    deployment is in progress the spinner is on and no adapter is set; once
    it is deployed the spinner is off and the adapter is the deployment's;
    once it has failed the spinner is off and the message shown is the
    error's. *)
Theorem board_follows_deployment events d subject seen :
  Manager.subjects (manager_run Manager.initial events) !! d = Some subject ->
  seen <> [] ->
  seen `suffix_of` BehaviorSubject.notified subject ->
  let b := fold_left observeDeployment seen (Board.initial true) in
  Board.invoiceDeployment b = Some (BehaviorSubject.value subject) /\
  match BehaviorSubject.value subject with
  | InProgress =>
      Board.isWorking b = true /\ Board.deployedInvoiceAPI b = None /\
      Board.errorMessage b = None
  | Deployed api =>
      Board.isWorking b = false /\ Board.deployedInvoiceAPI b = Some api /\
      Board.errorMessage b = None
  | Failed error =>
      Board.isWorking b = false /\ Board.deployedInvoiceAPI b = None /\
      Board.errorMessage b = Some (Js.message error)
  end.
Proof.
  intros Hd Hseen [k Hk] b. subst b.
  destruct (subject_shape events d subject Hd) as [[Hval Hnot]|[Hval Hnot]];
    rewrite Hnot in Hk.
  - rewrite Hval. destruct k as [|n [|n' k]]; simpl in Hk.
    + subst seen. simpl. auto.
    + injection Hk as _ Hk. congruence.
    + injection Hk as _ Hk. destruct k; discriminate.
  - destruct k as [|n [|n' k]]; simpl in Hk.
    + subst seen. destruct (BehaviorSubject.value subject); simpl; auto; congruence.
    + injection Hk as _ <-. destruct (BehaviorSubject.value subject); simpl; auto; congruence.
    + injection Hk as _ _ Hk. destruct k; simpl in Hk; [congruence|discriminate].
Qed.

Lemma board_follows_deployment_witness :
  let b := fold_left observeDeployment [Next (Deployed sample_api)] (Board.initial true) in
  Board.invoiceDeployment b = Some (Deployed sample_api) /\
  Board.isWorking b = false /\ Board.deployedInvoiceAPI b = Some sample_api /\
  Board.errorMessage b = None.
Proof.
  apply (board_follows_deployment
           (two_joins ++ [ApiSettled 0 (Js.Ok sample_api)]) 0
           (BehaviorSubject.mk (Deployed sample_api) false
              [Next InProgress; Next (Deployed sample_api)])
           [Next (Deployed sample_api)]).
  - reflexivity.
  - discriminate.
  - exists [Next InProgress]. reflexivity.
Defined.
